(** * apt-golang-s3: the protocol engine of [method/method.go]

    A shallow embedding of the request engine of the S3 acquire method
    (package [method]) and the properties of its specification.

    Go strings are byte sequences: they are modelled by [string] (a list
    of 8-bit characters), Go [int]/[int64] by [Z].  Functions of the Go
    standard library that the engine calls are given with the semantics of
    their documentation in the modules [strings], [strconv], [hex] and
    [time]; the collaborators the engine reaches through an interface
    (the URI parser, the message codec, the object store, the local file
    system, the digests) are the fields of an environment record [Env]. *)

From Stdlib Require Import String Ascii List ZArith Lia Bool DecimalString.
Import ListNotations.
Open Scope string_scope.
Open Scope Z_scope.

(** ** The part of Go's [strings] package used by the engine *)
Module strings.

(** [len(s)] as an integer. *)
Definition len (s : string) : Z := Z.of_nat (String.length s).

Definition HasPrefix (s prefix : string) : bool := String.prefix prefix s.

(** [len(s) >= len(suffix) && s[len(s)-len(suffix):] == suffix] *)
Definition HasSuffix (s suffix : string) : bool :=
  (String.length suffix <=? String.length s)%nat
  && (substring (String.length s - String.length suffix)
                (String.length suffix) s =? suffix)%string.

Definition TrimSuffix (s suffix : string) : string :=
  if HasSuffix s suffix
  then substring 0 (String.length s - String.length suffix) s
  else s.

Fixpoint index_from (substr s : string) (i : nat) : option nat :=
  if String.prefix substr s then Some i
  else match s with
       | EmptyString => None
       | String _ s' => index_from substr s' (S i)
       end.

(** Index of the first instance of [substr] in [s], or -1. *)
Definition Index (s substr : string) : Z :=
  match index_from substr s 0 with
  | Some i => Z.of_nat i
  | None => -1
  end.

Fixpoint explode (s : string) : list string :=
  match s with
  | EmptyString => []
  | String c s' => String c EmptyString :: explode s'
  end.

(** Scan [s] left to right; [skip] counts the bytes of a separator that
    was just matched and are still to be dropped, [cur] is the token
    being built. *)
Fixpoint split_go (sep s : string) (skip : nat) (cur : string) : list string :=
  match s with
  | EmptyString => [cur]
  | String c s' =>
      match skip with
      | S k => split_go sep s' k cur
      | O =>
          if String.prefix sep s
          then cur :: split_go sep s' (String.length sep - 1) EmptyString
          else split_go sep s' O (cur ++ String c EmptyString)
      end
  end.

(** [Split] slices [s] into all substrings separated by [sep]; with an
    empty [sep] it splits after each byte. *)
Definition Split (s sep : string) : list string :=
  if (sep =? "")%string then explode s else split_go sep s O EmptyString.

Definition Join (elems : list string) (sep : string) : string :=
  String.concat sep elems.

Fixpoint replace_go (old new s : string) (skip : nat) : string :=
  match s with
  | EmptyString => EmptyString
  | String c s' =>
      match skip with
      | S k => replace_go old new s' k
      | O =>
          if String.prefix old s
          then new ++ replace_go old new s' (String.length old - 1)
          else String c (replace_go old new s' O)
      end
  end.

Fixpoint interleave (new s : string) : string :=
  match s with
  | EmptyString => new
  | String c s' => new ++ String c (interleave new s')
  end.

(** [ReplaceAll] replaces every non-overlapping instance of [old] by
    [new]; [Replace] returns [s] at once when [old == new], and an empty
    [old] matches before every byte and at the end. *)
Definition ReplaceAll (s old new : string) : string :=
  if (old =? new)%string then s
  else if (old =? "")%string then interleave new s
  else replace_go old new s O.

Fixpoint mem (c : ascii) (cutset : string) : bool :=
  match cutset with
  | EmptyString => false
  | String d cs => Ascii.eqb c d || mem c cs
  end.

Fixpoint TrimRight (s cutset : string) : string :=
  match s with
  | EmptyString => EmptyString
  | String c s' =>
      let t := TrimRight s' cutset in
      if (t =? "")%string && mem c cutset then EmptyString else String c t
  end.

(** [s[i:]]; [None] stands for the run-time panic "slice bounds out of
    range". *)
Definition slice_from (s : string) (i : nat) : option string :=
  if (i <=? String.length s)%nat
  then Some (substring i (String.length s - i) s)
  else None.

(** [s[0:j]], with the same panic. *)
Definition slice_to (s : string) (j : nat) : option string :=
  if (j <=? String.length s)%nat then Some (substring 0 j s) else None.

End strings.



(** ** [strconv.FormatInt(i, 10)] *)
Module strconv.

Definition FormatInt (i : Z) : string := NilZero.string_of_int (Z.to_int i).

End strconv.

(** ** [encoding/hex] *)
Module hex.

Definition hextable : string := "0123456789abcdef".

Definition digit (n : nat) : ascii :=
  match String.get n hextable with
  | Some c => c
  | None => "0"%char
  end.

(** Two lower-case hexadecimal digits per byte, high nibble first. *)
Fixpoint EncodeToString (src : string) : string :=
  match src with
  | EmptyString => EmptyString
  | String c s' =>
      let v := nat_of_ascii c in
      String (digit (v / 16)) (String (digit (v mod 16)) (EncodeToString s'))
  end.

End hex.

(** ** [time]: an instant and its RFC 1123 rendering in GMT *)
Module time.

(** An instant, in seconds since 1970-01-01T00:00:00Z. *)
Definition Time : Type := Z.

Definition dayNames : list string :=
  ["Sun"; "Mon"; "Tue"; "Wed"; "Thu"; "Fri"; "Sat"].
Definition monthNames : list string :=
  ["Jan"; "Feb"; "Mar"; "Apr"; "May"; "Jun";
   "Jul"; "Aug"; "Sep"; "Oct"; "Nov"; "Dec"].

(** Year, month (1..12) and day (1..31) of a day number counted from
    1970-01-01, in the proleptic Gregorian calendar. *)
Definition civil (days : Z) : Z * Z * Z :=
  let z := days + 719468 in
  let era := z / 146097 in
  let doe := z - era * 146097 in
  let yoe := (doe - doe / 1460 + doe / 36524 - doe / 146096) / 365 in
  let doy := doe - (365 * yoe + yoe / 4 - yoe / 100) in
  let mp := (5 * doy + 2) / 153 in
  let d := doy - (153 * mp + 2) / 5 + 1 in
  let m := if mp <? 10 then mp + 3 else mp - 9 in
  let y := yoe + era * 400 + (if m <=? 2 then 1 else 0) in
  (y, m, d).

Definition weekday (days : Z) : Z := (days + 4) mod 7.

(** Decimal rendering, zero-padded on the left to [width] digits. *)
Definition pad (width : nat) (n : Z) : string :=
  let s := strconv.FormatInt (Z.abs n) in
  let zeros := string_of_list_ascii (repeat "0"%char (width - String.length s)) in
  (if n <? 0 then "-" else "") ++ zeros ++ s.

(** [t.In(gmt).Format(time.RFC1123)], layout
    ["Mon, 02 Jan 2006 15:04:05 MST"] with the zone abbreviation GMT. *)
Definition FormatRFC1123GMT (t : Time) : string :=
  let days := t / 86400 in
  let secs := t mod 86400 in
  let '(y, m, d) := civil days in
  nth (Z.to_nat (weekday days)) dayNames "" ++ ", " ++ pad 2 d ++ " "
    ++ nth (Z.to_nat (m - 1)) monthNames "" ++ " " ++ pad 4 y ++ " "
    ++ pad 2 (secs / 3600) ++ ":" ++ pad 2 (secs mod 3600 / 60) ++ ":"
    ++ pad 2 (secs mod 60) ++ " GMT".

End time.

(** ** Go errors and results *)

(** The error values the engine meets: plain text errors ([errors.New],
    [fmt.Errorf]) and the store's [awserr.RequestFailure], which carries
    the HTTP status code of the response. *)
Inductive error : Type :=
| errorString (text : string)
| RequestFailure (StatusCode : Z) (text : string).

Definition Error (e : error) : string :=
  match e with
  | errorString text => text
  | RequestFailure _ text => text
  end.

(** A Go [(value, err)] pair of which exactly one side is meaningful. *)
Inductive result (A : Type) : Type :=
| Ok (a : A)
| Err (e : error).
Arguments Ok {A} a.
Arguments Err {A} e.

(** A pure Go expression that can raise a run-time panic. *)
Inductive panics (A : Type) : Type :=
| Normal (a : A)
| Panicking (why : string).
Arguments Normal {A} a.
Arguments Panicking {A} why.

(** ** [net/url]: the parsed form of a locator *)
Module url.

Record Userinfo : Type := mkUserinfo {
  username : string;
  password : string;
  passwordSet : bool
}.

Record URL : Type := mkURL {
  Scheme : string;
  Opaque : string;
  User : option Userinfo;
  Host : string;
  Path : string;
  RawPath : string;
  RawQuery : string;
  Fragment : string
}.

(** Both accessors accept the nil [*Userinfo]. *)
Definition Username (u : option Userinfo) : string :=
  match u with
  | Some i => username i
  | None => ""
  end.

Definition Password (u : option Userinfo) : string * bool :=
  match u with
  | Some i => (password i, passwordSet i)
  | None => ("", false)
  end.

End url.

(** ** The [message] package: headers, fields and the two lookups *)
Module message.

Record Header : Type := mkHeader {
  Status : Z;
  Description : string
}.

Record Field : Type := mkField {
  Name : string;
  Value : string
}.

Record Message : Type := mkMessage {
  Hdr : Header;
  Fields : list Field
}.

(** Modelled from the spec: the accessor [GetFieldList] of the message
    package, whose source is not part of the engine file; the
    lookup-by-name that returns all matches, in message order. *)
Definition GetFieldList (msg : Message) (name : string) : list Field :=
  filter (fun f => (Name f =? name)%string) (Fields msg).

(** Modelled from the spec: the accessor [GetFieldValue] of the message
    package; the lookup-by-name that returns the first match, with a
    flag telling whether there is one. *)
Definition GetFieldValue (msg : Message) (name : string) : string * bool :=
  match GetFieldList msg name with
  | f :: _ => (Value f, true)
  | [] => ("", false)
  end.

End message.

(** ** The object store client *)
Module aws.

Inductive Credentials : Type :=
| DefaultChain
| StaticCredentials (id secret token : string)
| AssumeRole (roleARN : string).

(** What [s3.New(sess, config)] is built from. *)
Record S3API : Type := mkS3API {
  Region : string;
  Endpoint : option string;
  Creds : Credentials
}.

Record HeadObjectOutput : Type := mkHeadObjectOutput {
  ContentLength : option Z;
  LastModified : option time.Time
}.

End aws.

(** ** Constants of [method.go] *)

Definition headerCodeCapabilities : Z := 100.
Definition headerCodeGeneralLog : Z := 101.
Definition headerCodeStatus : Z := 102.
Definition headerCodeURIStart : Z := 200.
Definition headerCodeURIDone : Z := 201.
Definition headerCodeURIFailure : Z := 400.
Definition headerCodeGeneralFailure : Z := 401.
Definition headerCodeURIAcquire : Z := 600.
Definition headerCodeConfiguration : Z := 601.

Definition headerDescriptionCapabilities : string := "Capabilities".
Definition headerDescriptionGeneralLog : string := "Log".
Definition headerDescriptionStatus : string := "Status".
Definition headerDescriptionURIStart : string := "URI Start".
Definition headerDescriptionURIDone : string := "URI Done".
Definition headerDescriptionURIFailure : string := "URI Failure".
Definition headerDescriptionGeneralFailure : string := "General Failure".

Definition fieldNameConfigItem : string := "Config-Item".
Definition fieldNameSendConfig : string := "Send-Config".
Definition fieldNamePipeline : string := "Pipeline".
Definition fieldNameSingleInstance : string := "Single-Instance".
Definition fieldNameURI : string := "URI".
Definition fieldNameFilename : string := "Filename".
Definition fieldNameSize : string := "Size".
Definition fieldNameLastModified : string := "Last-Modified".
Definition fieldNameMessage : string := "Message".
Definition fieldNameMD5Hash : string := "MD5-Hash".
Definition fieldNameMD5SumHash : string := "MD5Sum-Hash".
Definition fieldNameSHA1Hash : string := "SHA1-Hash".
Definition fieldNameSHA256Hash : string := "SHA256-Hash".
Definition fieldNameSHA512Hash : string := "SHA512-Hash".

Definition fieldValueTrue : string := "true".
Definition fieldValueYes : string := "yes".
Definition fieldValueNotFound : string := "The specified key does not exist.".
Definition fieldValueConnecting : string := "Connecting to s3.amazonaws.com".

Definition configItemAcquireS3Region : string := "Acquire::s3::region".
Definition configItemAcquireS3Role : string := "Acquire::s3::role".
Definition configItemAcquireS3Endpoint : string := "Acquire::s3::endpoint".

Definition locationMinTokensCount : Z := 3.
Definition userAndPasswordFormattedTokensCount : Z := 2.

Definition http_StatusNotFound : Z := 404.
Definition endpoints_UsEast1RegionID : string := "us-east-1".

Definition errLocMissingRequiredTokens : error :=
  errorString "location missing required number of tokens".
Definition errAcqMsgMissingRequiredFieldURI : error :=
  errorString "acquire message missing required field: URI".
Definition errAcqMsgMissingRequiredFieldFilename : error :=
  errorString "acquire message missing required field: Filename".
Definition errAcqMsgMissingRequiredFieldPassword : error :=
  errorString "acquire message missing required value: Password".

(** [fmt.Errorf("<prefix>: %w", err)] *)
Definition Errorf (prefix : string) (err : error) : error :=
  errorString (prefix ++ ": " ++ Error err).

(** ** The collaborators of the engine *)

(** Everything the engine calls outside its own file.  [url_Parse],
    [url_String] and [url_Hostname] are those of [net/url]; [FromBytes] is the parser of
    the message package and [s3EndpointURL] the region-derived endpoint,
    both defined elsewhere in the repository; [NewSession], [HeadObject]
    and [Download] are the object store SDK; [Create] tells whether
    [os.Create] fails on a name, [LoadLocation] whether
    [time.LoadLocation] fails; the four [Sum] functions are the digests
    of [crypto/md5], [crypto/sha1], [crypto/sha256], [crypto/sha512]. *)
Record Env : Type := mkEnv {
  url_Parse : string -> result url.URL;
  url_String : url.URL -> string;
  url_Hostname : url.URL -> string;
  FromBytes : string -> result message.Message;
  s3EndpointURL : string -> result url.URL;
  NewSession : string -> option string -> option error;
  HeadObject : aws.S3API -> string -> string -> result aws.HeadObjectOutput;
  Download : aws.S3API -> string -> string -> result string;
  Create : string -> option error;
  LoadLocation : string -> option error;
  md5_Sum : string -> string;
  sha1_Sum : string -> string;
  sha256_Sum : string -> string;
  sha512_Sum : string -> string
}.

(** ** The engine state *)

(** The [Method] struct: the three configuration values, the
    configuration latch, the counter of the [sync.WaitGroup] and the
    messages printed so far on the logger, oldest first (one entry per
    [Println] of a message). *)
Record Method : Type := mkMethod {
  region : string;
  roleARN : string;
  endpoint : string;
  configured : bool;
  wg : Z;
  stdout : list message.Message
}.

(** A call into the object store, recorded in program order. *)
Inductive call : Type :=
| CallNewSession (region : string) (endpoint : option string)
| CallCredentials (c : aws.Credentials)
| CallHeadObject (bucket key : string)
| CallDownload (bucket key : string).

(** The engine together with what it acts on: the local files (name and
    content, latest write first) and the log of store calls. *)
Record State : Type := mkState {
  self : Method;
  files : list (string * string);
  calls : list call
}.

Definition New : Method :=
  {| region := endpoints_UsEast1RegionID; roleARN := ""; endpoint := "";
     configured := false; wg := 1; stdout := [] |}.

Fixpoint readFile (name : string) (fs : list (string * string)) : option string :=
  match fs with
  | [] => None
  | (n, data) :: rest => if (n =? name)%string then Some data else readFile name rest
  end.

(** ** Control: a handler returns, ends the process, panics, or waits *)

Inductive outcome (A : Type) : Type :=
| Ret (a : A)
| Exit (code : Z)
| Panic (why : string)
| Blocked.
Arguments Ret {A} a.
Arguments Exit {A} code.
Arguments Panic {A} why.
Arguments Blocked {A}.

Definition M (A : Type) : Type := State -> outcome A * State.

Definition ret {A} (a : A) : M A := fun s => (Ret a, s).

Definition bind {A B} (c : M A) (k : A -> M B) : M B :=
  fun s =>
    match c s with
    | (Ret a, s') => k a s'
    | (Exit code, s') => (Exit code, s')
    | (Panic why, s') => (Panic why, s')
    | (Blocked, s') => (Blocked, s')
    end.

Notation "x <- c ;; k" := (bind c (fun x => k))
  (at level 61, c at next level, right associativity).
Notation "c ;; k" := (bind c (fun _ => k))
  (at level 61, right associativity).

Definition get : M State := fun s => (Ret s, s).
Definition modify (f : State -> State) : M unit := fun s => (Ret tt, f s).
Definition os_Exit {A} (code : Z) : M A := fun s => (Exit code, s).
Definition panic {A} (why : string) : M A := fun s => (Panic why, s).
Definition block {A} : M A := fun s => (Blocked, s).

Definition liftP {A} (p : panics A) : M A :=
  match p with
  | Normal a => ret a
  | Panicking why => panic why
  end.

(** Dereference of a pointer that may be nil. *)
Definition deref {A} (p : option A) : M A :=
  match p with
  | Some a => ret a
  | None => panic "invalid memory address or nil pointer dereference"
  end.

Definition setMethod (f : Method -> Method) : M unit :=
  modify (fun s => {| self := f (self s); files := files s; calls := calls s |}).

Definition record (c : call) : M unit :=
  modify (fun s => {| self := self s; files := files s; calls := calls s ++ [c] |}).

Definition writeFile (name data : string) : M unit :=
  modify (fun s => {| self := self s; files := (name, data) :: files s; calls := calls s |}).

(** [method.stdout.Println(msg.String())] *)
Definition Println (msg : message.Message) : M unit :=
  setMethod (fun m =>
    {| region := region m; roleARN := roleARN m; endpoint := endpoint m;
       configured := configured m; wg := wg m; stdout := stdout m ++ [msg] |}).

(** [method.wg.Add(delta)]; [Done] is [Add(-1)].  The engine never drives
    the counter below zero (lemma [wg_nonneg] below), so the panic of a
    negative counter is not part of the model. *)
Definition wg_Add (delta : Z) : M unit :=
  setMethod (fun m =>
    {| region := region m; roleARN := roleARN m; endpoint := endpoint m;
       configured := configured m; wg := wg m + delta; stdout := stdout m |}).

Definition wg_Done : M unit := wg_Add (-1).

(** ** The engine: the functions of [method.go] *)

(** A objectLocation wraps details about the requested items location
    in S3. *)
Record objectLocation : Type := mkObjectLocation {
  uri : url.URL;
  bucket : string;
  key : string
}.

Definition header (code : Z) (description : string) : message.Header :=
  {| message.Status := code; message.Description := description |}.

Definition field (name value : string) : message.Field :=
  {| message.Name := name; message.Value := value |}.

Definition capabilities : message.Message :=
  {| message.Hdr := header headerCodeCapabilities headerDescriptionCapabilities;
     message.Fields := [ field fieldNameSendConfig fieldValueTrue;
                         field fieldNamePipeline fieldValueTrue;
                         field fieldNameSingleInstance fieldValueYes ] |}.

(** Replace any forward slashes in access key and secret. *)
Definition preProcessURL (url : string) : panics string :=
  let idx := strings.Index url "@" in
  if idx <? 0 then Normal url
  else
    match strings.slice_to url (Z.to_nat idx) with
    | None => Panicking "slice bounds out of range"
    | Some sub =>
        match strings.slice_from sub 5 with
        | None => Panicking "slice bounds out of range"
        | Some sub =>
            let tkns := strings.Split sub ":" in
            let '(key, secret) :=
              if Z.of_nat (List.length tkns) =? userAndPasswordFormattedTokensCount
              then (nth 0 tkns "", nth 1 tkns "")
              else ("", "") in
            let processedKey := strings.ReplaceAll key "/" "%2F" in
            let processedSecret := strings.ReplaceAll secret "/" "%2F" in
            let p := strings.ReplaceAll url key processedKey in
            let p := strings.ReplaceAll p secret processedSecret in
            Normal p
        end
    end.

Section Engine.

Variable E : Env.

Definition newLocation (value s3Hostname : string)
  : panics (result objectLocation) :=
  match preProcessURL value with
  | Panicking why => Panicking why
  | Normal p =>
      match url_Parse E p with
      | Err err => Normal (Err err)
      | Ok uri =>
          if (url.Host uri =? s3Hostname)%string then
            let tokens := strings.Split (url.Path uri) "/" in
            if Z.of_nat (List.length tokens) <? locationMinTokensCount
            then Normal (Err errLocMissingRequiredTokens)
            else Normal (Ok {| uri := uri;
                               bucket := nth 1 tokens "";
                               key := strings.Join (skipn 2 tokens) "/" |})
          else if strings.HasSuffix (url.Host uri) s3Hostname then
            match strings.slice_from (url.Path uri) 1 with
            | None => Panicking "slice bounds out of range"
            | Some k =>
                Normal (Ok {| uri := uri;
                              bucket := strings.TrimSuffix (url.Host uri)
                                          ("." ++ s3Hostname);
                              key := k |})
            end
          else
            match strings.slice_from (url.Path uri) 1 with
            | None => Panicking "slice bounds out of range"
            | Some k =>
                Normal (Ok {| uri := uri; bucket := url.Host uri; key := k |})
            end
      end
  end.

Definition requestStatus (s3Uri : url.URL) (status : string) : message.Message :=
  {| message.Hdr := header headerCodeStatus headerDescriptionStatus;
     message.Fields := [ field fieldNameURI (url_String E s3Uri);
                         field fieldNameMessage status ] |}.

Definition notFound (s3Uri : url.URL) : message.Message :=
  {| message.Hdr := header headerCodeURIFailure headerDescriptionURIFailure;
     message.Fields := [ field fieldNameURI (url_String E s3Uri);
                         field fieldNameMessage fieldValueNotFound ] |}.

Definition generalFailure (err : error) : message.Message :=
  let msg := strings.ReplaceAll (Error err) (String "010" "") " " in
  {| message.Hdr := header headerCodeGeneralFailure headerDescriptionGeneralFailure;
     message.Fields := [ field fieldNameMessage msg ] |}.

Definition outputRequestStatus (s3Uri : url.URL) (status : string) : M unit :=
  Println (requestStatus s3Uri status).

Definition outputGeneralFailure (err : error) : M unit :=
  Println (generalFailure err).

(** handleError writes the contents of the given error and then exits
    the program. *)
Definition handleError (err : option error) : M unit :=
  match err with
  | Some e => outputGeneralFailure e ;; os_Exit 1
  | None => ret tt
  end.

(** [v, err := f(...); method.handleError(err)] *)
Definition try {A} (r : result A) : M A :=
  match r with
  | Ok a => ret a
  | Err e => handleError (Some e) ;; os_Exit 1
  end.

(** [if !hasField { method.handleError(err) }] *)
Definition require (hasField : bool) (err : error) : M unit :=
  if negb hasField then handleError (Some err) else ret tt.

Definition lastModified (t : time.Time) : M message.Field :=
  handleError (LoadLocation E "GMT") ;;
  ret (field fieldNameLastModified (time.FormatRFC1123GMT t)).

(** The hash interface never fails on a write, so [prepareHash] has no
    error to hand over. *)
Definition computeHash (h : string -> string) (fileBytes : string) : string :=
  hex.EncodeToString (h fileBytes).

Definition md5Field (bytes : string) : message.Field :=
  field fieldNameMD5Hash (computeHash (md5_Sum E) bytes).
Definition md5SumField (bytes : string) : message.Field :=
  field fieldNameMD5SumHash (computeHash (md5_Sum E) bytes).
Definition sha1Field (bytes : string) : message.Field :=
  field fieldNameSHA1Hash (computeHash (sha1_Sum E) bytes).
Definition sha256Field (bytes : string) : message.Field :=
  field fieldNameSHA256Hash (computeHash (sha256_Sum E) bytes).
Definition sha512Field (bytes : string) : message.Field :=
  field fieldNameSHA512Hash (computeHash (sha512_Sum E) bytes).

Definition uriStart (s3Uri : url.URL) (size : Z) (t : time.Time)
  : M message.Message :=
  let uriField := field fieldNameURI (url_String E s3Uri) in
  let sizeField := field fieldNameSize (strconv.FormatInt size) in
  lmField <- lastModified t ;;
  ret {| message.Hdr := header headerCodeURIStart headerDescriptionURIStart;
         message.Fields := [uriField; sizeField; lmField] |}.

Definition os_ReadFile (filename : string) : M (result string) :=
  s <- get ;;
  ret match readFile filename (files s) with
      | Some data => Ok data
      | None => Err (errorString ("open " ++ filename ++ ": no such file or directory"))
      end.

Definition uriDone (s3Uri : url.URL) (size : Z) (t : time.Time)
           (filename : string) : M message.Message :=
  let uriField := field fieldNameURI (url_String E s3Uri) in
  let filenameField := field fieldNameFilename filename in
  let sizeField := field fieldNameSize (strconv.FormatInt size) in
  lmField <- lastModified t ;;
  r <- os_ReadFile filename ;;
  fileBytes <- try r ;;
  ret {| message.Hdr := header headerCodeURIDone headerDescriptionURIDone;
         message.Fields := [ uriField; filenameField; sizeField; lmField;
                             md5Field fileBytes; md5SumField fileBytes;
                             sha1Field fileBytes; sha256Field fileBytes;
                             sha512Field fileBytes ] |}.

Definition outputURIStart (s3Uri : url.URL) (size : Z) (t : time.Time) : M unit :=
  msg <- uriStart s3Uri size t ;;
  Println msg.

Definition outputURIDone (s3Uri : url.URL) (size : Z) (t : time.Time)
           (filename : string) : M unit :=
  msg <- uriDone s3Uri size t filename ;;
  Println msg ;;
  wg_Done.

Definition outputNotFound (s3Uri : url.URL) : M unit :=
  Println (notFound s3Uri) ;;
  wg_Done.

(** waitForConfiguration polls the latch once a millisecond; a handler
    that finds it unset makes no progress in that state. *)
Definition waitForConfiguration : M unit :=
  s <- get ;;
  if configured (self s) then ret tt else block.

Definition s3Client (user : option url.Userinfo) : M aws.S3API :=
  s <- get ;;
  let m := self s in
  let cfgEndpoint := if negb (endpoint m =? "")%string then Some (endpoint m) else None in
  record (CallNewSession (region m) cfgEndpoint) ;;
  match NewSession E (region m) cfgEndpoint with
  | Some err => handleError (Some (Errorf "creating AWS session" err))
  | None => ret tt
  end ;;
  creds <-
    (let accessKeyID := url.Username user in
     if negb (accessKeyID =? "")%string then
       let '(secretAccessKey, ok) := url.Password user in
       if ok then ret (aws.StaticCredentials accessKeyID secretAccessKey "")
       else handleError (Some errAcqMsgMissingRequiredFieldPassword) ;;
            ret aws.DefaultChain
     else if negb (roleARN m =? "")%string then ret (aws.AssumeRole (roleARN m))
     else ret aws.DefaultChain) ;;
  record (CallCredentials creds) ;;
  ret {| aws.Region := region m; aws.Endpoint := cfgEndpoint; aws.Creds := creds |}.

Definition os_Create (filename : string) : M unit :=
  match Create E filename with
  | Some err => handleError (Some err)
  | None => writeFile filename ""
  end.

Definition downloader_Download (client : aws.S3API) (filename bucket key : string)
  : M Z :=
  record (CallDownload bucket key) ;;
  data <- try (Download E client bucket key) ;;
  writeFile filename data ;;
  ret (strings.len data).

(** uriAcquire downloads and stores objects from S3 based on the
    contents of the provided Message.  Its body is given in three
    parts: [uriAcquire_connect] runs from the wait on the configuration
    to the construction of the store client, [uriAcquire_fetch] from
    the metadata query to the URI Start message, [uriAcquire_store]
    from the lookup of the Filename field to the end. *)
Definition uriAcquire_connect (msg : message.Message)
  : M (objectLocation * aws.S3API) :=
  waitForConfiguration ;;
  let '(locator, hasField) := message.GetFieldValue msg fieldNameURI in
  require hasField errAcqMsgMissingRequiredFieldURI ;;
  s <- get ;;
  let m := self s in
  s3URL <-
    (if negb (endpoint m =? "")%string then
       match url_Parse E (endpoint m) with
       | Ok u => ret u
       | Err err =>
           handleError (Some (Errorf ("parsing S3 endpoint " ++ endpoint m) err)) ;;
           os_Exit 1
       end
     else
       match s3EndpointURL E (region m) with
       | Ok u => ret u
       | Err err =>
           handleError
             (Some (Errorf ("resolving S3 endpoint for region " ++ region m) err)) ;;
           os_Exit 1
       end) ;;
  r <- liftP (newLocation locator (url_Hostname E s3URL)) ;;
  objLoc <- try r ;;
  outputRequestStatus objLoc.(uri) fieldValueConnecting ;;
  client <- s3Client (url.User objLoc.(uri)) ;;
  ret (objLoc, client).

Definition uriAcquire_store (msg : message.Message) (objLoc : objectLocation)
           (client : aws.S3API) (lastModified : time.Time) : M unit :=
  let '(filename, hasField) := message.GetFieldValue msg fieldNameFilename in
  require hasField errAcqMsgMissingRequiredFieldFilename ;;
  os_Create filename ;;
  numBytes <- downloader_Download client filename objLoc.(bucket) objLoc.(key) ;;
  outputURIDone objLoc.(uri) numBytes lastModified filename.

Definition uriAcquire_fetch (msg : message.Message) (objLoc : objectLocation)
           (client : aws.S3API) : M unit :=
  record (CallHeadObject objLoc.(bucket) objLoc.(key)) ;;
  match HeadObject E client objLoc.(bucket) objLoc.(key) with
  | Err err =>
      match err with
      | RequestFailure code _ =>
          if code =? http_StatusNotFound
          then outputNotFound objLoc.(uri)
          else handleError (Some err)
      | _ => handleError (Some err)
      end
  | Ok headObjectOutput =>
      expectedLen <- deref (aws.ContentLength headObjectOutput) ;;
      lastModified <- deref (aws.LastModified headObjectOutput) ;;
      outputURIStart objLoc.(uri) expectedLen lastModified ;;
      uriAcquire_store msg objLoc client lastModified
  end.

Definition uriAcquire (msg : message.Message) : M unit :=
  p <- uriAcquire_connect msg ;;
  uriAcquire_fetch msg (fst p) (snd p).

(** [l[i]], with the run-time panic of an index out of range. *)
Definition index {A} (l : list A) (i : nat) : M A :=
  match nth_error l i with
  | Some a => ret a
  | None => panic "index out of range"
  end.

Definition setRegion (v : string) : M unit :=
  setMethod (fun m =>
    {| region := v; roleARN := roleARN m; endpoint := endpoint m;
       configured := configured m; wg := wg m; stdout := stdout m |}).

Definition setRoleARN (v : string) : M unit :=
  setMethod (fun m =>
    {| region := region m; roleARN := v; endpoint := endpoint m;
       configured := configured m; wg := wg m; stdout := stdout m |}).

Definition setEndpoint (v : string) : M unit :=
  setMethod (fun m =>
    {| region := region m; roleARN := roleARN m; endpoint := v;
       configured := configured m; wg := wg m; stdout := stdout m |}).

Definition setConfigured (v : bool) : M unit :=
  setMethod (fun m =>
    {| region := region m; roleARN := roleARN m; endpoint := endpoint m;
       configured := v; wg := wg m; stdout := stdout m |}).

(** The loop of [configure] over the Config-Item fields. *)
Fixpoint configureItems (items : list message.Field) : M unit :=
  match items with
  | [] => ret tt
  | f :: rest =>
      let config := strings.Split (message.Value f) "=" in
      c0 <- index config 0 ;;
      (if (c0 =? configItemAcquireS3Region)%string then
         v <- index config 1 ;; setRegion v
       else if (c0 =? configItemAcquireS3Role)%string then
         v <- index config 1 ;; setRoleARN v
       else if (c0 =? configItemAcquireS3Endpoint)%string then
         v <- index config 1 ;; setEndpoint v
       else ret tt) ;;
      configureItems rest
  end.

(** configure loops though the Config-Item fields of a configuration
    Message and sets the appropriate state on the Method based on the
    field values. Once the configuration has been applied, the Method's
    sync.WaitGroup is decremented by 1. *)
Definition configure (msg : message.Message) : M unit :=
  let items := message.GetFieldList msg fieldNameConfigItem in
  configureItems items ;;
  setConfigured true ;;
  wg_Done.

(** handleBytes initializes a new Message and dispatches it according
    to the Message.Header.Status value. *)
Definition handleBytes (b : string) : M unit :=
  msg <- try (FromBytes E b) ;;
  if message.Status (message.Hdr msg) =? headerCodeURIAcquire then
    uriAcquire msg
  else if message.Status (message.Hdr msg) =? headerCodeConfiguration then
    configure msg
  else ret tt.

End Engine.

(** ** The running process: [Run], [readInput], [processMessages] *)

(** The goroutine of [readInput]: scanning with the lines still to come
    and the buffer; between the send of a complete message on the channel
    and the [wg.Add(1)] that follows it; or past its final [wg.Done()]. *)
Inductive Reader : Type :=
| Scanning (input : list string) (buffer : string)
| Adding (input : list string)
| Finished.

(** One goroutine per message received by [processMessages]: the bytes
    it was started on and whether [handleBytes] has returned. *)
Record Handler : Type := mkHandler {
  bytes : string;
  returned : bool
}.

Inductive Status : Type :=
| Running
| Exited (code : Z)
| Crashed (why : string).

Record Process : Type := mkProcess {
  state : State;
  reader : Reader;
  handlers : list Handler;
  status : Status
}.

(** The process once [Run] has flushed the capabilities and started the
    two goroutines, on an input given as the lines the scanner will
    deliver. *)
Definition Run (input : list string) : Process :=
  {| state := {| self := {| region := region New; roleARN := roleARN New;
                            endpoint := endpoint New; configured := configured New;
                            wg := wg New; stdout := [capabilities] |};
                 files := []; calls := [] |};
     reader := Scanning input "";
     handlers := [];
     status := Running |}.

(** Who moves next: the reader, the handler goroutine of the [i]-th
    message, or the main goroutine blocked in [wg.Wait()]. *)
Inductive action : Type :=
| ActReader
| ActHandler (i : nat)
| ActMain.

Fixpoint markReturned (i : nat) (hs : list Handler) : list Handler :=
  match hs, i with
  | [], _ => []
  | h :: rest, O => {| bytes := bytes h; returned := true |} :: rest
  | h :: rest, S j => h :: markReturned j rest
  end.

(** One turn of the loop of [readInput]: a line is appended to the
    buffer and, when it is blank and the buffer holds more than 3 bytes,
    the buffer is sent on the channel, where [processMessages] starts a
    handler on it; the [wg.Add(1)] for a message follows its send; at the
    end of the input the reader does its [wg.Done()]. *)
Definition readerStep (p : Process) : option Process :=
  match reader p with
  | Scanning (l :: rest) buffer =>
      let line := l ++ String "010" "" in
      let buffer := buffer ++ line in
      let trimmed := strings.TrimRight line (String "010" "") in
      if (strings.len trimmed =? 0) && (strings.len buffer >? 3) then
        Some {| state := state p; reader := Adding rest;
                handlers := handlers p ++ [{| bytes := buffer; returned := false |}];
                status := status p |}
      else
        Some {| state := state p; reader := Scanning rest buffer;
                handlers := handlers p; status := status p |}
  | Scanning [] _ =>
      Some {| state := snd (wg_Done (state p)); reader := Finished;
              handlers := handlers p; status := status p |}
  | Adding rest =>
      Some {| state := snd (wg_Add 1 (state p)); reader := Scanning rest "";
              handlers := handlers p; status := status p |}
  | Finished => None
  end.

(** The goroutine of the [i]-th message runs [handleBytes], in one move:
    the moves of other goroutines come before or after a handler, not
    inside it.  A handler that waits for the configuration does not
    move; [os.Exit] ends the process with its code, a panic crashes
    it.  The print and the exit of [handleError] are taken apart in
    [stagedStep] below. *)
Definition handlerStep (E : Env) (i : nat) (p : Process) : option Process :=
  match nth_error (handlers p) i with
  | Some h =>
      if returned h then None
      else
        match handleBytes E (bytes h) (state p) with
        | (Ret _, s') =>
            Some {| state := s'; reader := reader p;
                    handlers := markReturned i (handlers p); status := status p |}
        | (Exit code, s') =>
            Some {| state := s'; reader := reader p;
                    handlers := handlers p; status := Exited code |}
        | (Panic why, s') =>
            Some {| state := s'; reader := reader p;
                    handlers := handlers p; status := Crashed why |}
        | (Blocked, _) => None
        end
  | None => None
  end.

(** [wg.Wait()] blocks until the counter is zero: the main goroutine
    moves in a state where the counter is zero, and in no other; [Run]
    then returns and the process ends with status 0. *)
Definition mainStep (p : Process) : option Process :=
  if wg (self (state p)) =? 0 then
    Some {| state := state p; reader := reader p;
            handlers := handlers p; status := Exited 0 |}
  else None.

(** One move of the process; [None] when the chosen goroutine cannot
    move.  Nothing moves once the process has ended. *)
Definition step (E : Env) (a : action) (p : Process) : option Process :=
  match status p with
  | Running =>
      match a with
      | ActReader => readerStep p
      | ActHandler i => handlerStep E i p
      | ActMain => mainStep p
      end
  | _ => None
  end.

(** A schedule is the sequence of moves of one execution. *)
Fixpoint exec (E : Env) (schedule : list action) (p : Process) : option Process :=
  match schedule with
  | [] => Some p
  | a :: rest =>
      match step E a p with
      | Some p' => exec E rest p'
      | None => None
      end
  end.

Definition reachable (E : Env) (input : list string) (p : Process) : Prop :=
  exists schedule, exec E schedule (Run input) = Some p.

(** ** The fatal path, statement by statement

    [handleError] prints the General Failure and then calls [os.Exit]
    (lines 577 and 578): two statements of one handler goroutine, and
    the other goroutines run between them.  The moves below take the
    two apart.  A handler whose run comes to [os.Exit] stops before
    that call, with everything up to it done, the [Println] of the
    General Failure included; it is then exiting, and its [os.Exit] is
    a move of its own.  [exiting] lists these handlers with the
    argument of their [os.Exit], in the order in which they got
    there. *)
Record Staged : Type := mkStaged {
  process : Process;
  exiting : list (nat * Z)
}.

Inductive move : Type :=
| Act (a : action)
| ActExit (i : nat).

Definition exitCode (i : nat) (q : Staged) : option Z :=
  option_map snd (find (fun e => Nat.eqb (fst e) i) (exiting q)).

Definition stagedHandlerStep (E : Env) (i : nat) (q : Staged) : option Staged :=
  let p := process q in
  match nth_error (handlers p) i, exitCode i q with
  | Some h, None =>
      if returned h then None
      else
        match handleBytes E (bytes h) (state p) with
        | (Ret _, s') =>
            Some {| process := {| state := s'; reader := reader p;
                                  handlers := markReturned i (handlers p);
                                  status := status p |};
                    exiting := exiting q |}
        | (Exit code, s') =>
            Some {| process := {| state := s'; reader := reader p;
                                  handlers := handlers p; status := status p |};
                    exiting := (exiting q ++ [(i, code)])%list |}
        | (Panic why, s') =>
            Some {| process := {| state := s'; reader := reader p;
                                  handlers := handlers p; status := Crashed why |};
                    exiting := exiting q |}
        | (Blocked, _) => None
        end
  | _, _ => None
  end.

(** [os.Exit(code)] of an exiting handler: the process ends there. *)
Definition exitStep (i : nat) (q : Staged) : option Staged :=
  match exitCode i q with
  | Some code =>
      Some {| process := {| state := state (process q); reader := reader (process q);
                            handlers := handlers (process q); status := Exited code |};
              exiting := exiting q |}
  | None => None
  end.

Definition stagedStep (E : Env) (m : move) (q : Staged) : option Staged :=
  match status (process q) with
  | Running =>
      match m with
      | Act ActReader =>
          option_map (fun p => {| process := p; exiting := exiting q |})
                     (readerStep (process q))
      | Act (ActHandler i) => stagedHandlerStep E i q
      | Act ActMain =>
          option_map (fun p => {| process := p; exiting := exiting q |})
                     (mainStep (process q))
      | ActExit i => exitStep i q
      end
  | _ => None
  end.

Fixpoint stagedExec (E : Env) (moves : list move) (q : Staged) : option Staged :=
  match moves with
  | [] => Some q
  | m :: rest =>
      match stagedStep E m q with
      | Some q' => stagedExec E rest q'
      | None => None
      end
  end.

Definition stagedRun (input : list string) : Staged :=
  {| process := Run input; exiting := [] |}.

Definition stagedReachable (E : Env) (input : list string) (q : Staged) : Prop :=
  exists moves, stagedExec E moves (stagedRun input) = Some q.

(** ** A reference environment, to run the engine on concrete input

    The theorems below hold for every environment.  To evaluate the
    engine on concrete locators and messages, this section gives one:
    [net/url] for locators of the shape
    [scheme://[user[:password]@]host[:port][/path]] without query or
    fragment, a message parser that follows the wire format, and a store
    that holds a given list of objects. *)
Module ref.

Definition isAlpha (c : ascii) : bool :=
  let n := nat_of_ascii c in
  ((97 <=? n) && (n <=? 122) || (65 <=? n) && (n <=? 90))%nat.

Definition isDigit (c : ascii) : bool :=
  let n := nat_of_ascii c in ((48 <=? n) && (n <=? 57))%nat.

Definition toLowerChar (c : ascii) : ascii :=
  let n := nat_of_ascii c in
  if ((65 <=? n) && (n <=? 90))%nat then ascii_of_nat (n + 32) else c.

Fixpoint ToLower (s : string) : string :=
  match s with
  | EmptyString => EmptyString
  | String c s' => String (toLowerChar c) (ToLower s')
  end.

(** [getScheme]: the scheme and what follows its colon. *)
Fixpoint getSchemeFrom (rawURL s : string) (i : nat) : result (string * string) :=
  match s with
  | EmptyString => Ok ("", rawURL)
  | String c s' =>
      if isAlpha c then getSchemeFrom rawURL s' (S i)
      else if isDigit c || strings.mem c "+-." then
        match i with
        | O => Ok ("", rawURL)
        | _ => getSchemeFrom rawURL s' (S i)
        end
      else if Ascii.eqb c ":" then
        match i with
        | O => Err (errorString "missing protocol scheme")
        | _ => Ok (substring 0 i rawURL, s')
        end
      else Ok ("", rawURL)
  end.

Definition unhex (c : ascii) : option nat :=
  let n := nat_of_ascii c in
  if isDigit c then Some (n - 48)%nat
  else if ((97 <=? n) && (n <=? 102))%nat then Some (n - 87)%nat
  else if ((65 <=? n) && (n <=? 70))%nat then Some (n - 55)%nat
  else None.

(** Percent-decoding; a [%] not followed by two hex digits is an
    error. *)
Fixpoint unescape (s : string) : result string :=
  match s with
  | EmptyString => Ok EmptyString
  | String "%" (String a (String b rest)) =>
      match unhex a, unhex b, unescape rest with
      | Some h, Some l, Ok r => Ok (String (ascii_of_nat (16 * h + l)) r)
      | _, _, Err e => Err e
      | _, _, _ => Err (errorString "invalid URL escape")
      end
  | String "%" _ => Err (errorString "invalid URL escape")
  | String c rest =>
      match unescape rest with
      | Ok r => Ok (String c r)
      | Err e => Err e
      end
  end.

Definition isUnreserved (c : ascii) : bool :=
  isAlpha c || isDigit c || strings.mem c "-_.~".

(** [shouldEscape] in the user-password and in the path mode. *)
Definition shouldEscapeUser (c : ascii) : bool :=
  if isUnreserved c then false
  else if strings.mem c "$&+,;=" then false
  else true.

Definition shouldEscapePath (c : ascii) : bool :=
  if isUnreserved c then false
  else if strings.mem c "$&+,/:;=@" then false
  else true.

Definition upperhex : string := "0123456789ABCDEF".

Definition hexDigit (n : nat) : ascii :=
  match String.get n upperhex with
  | Some c => c
  | None => "0"%char
  end.

Fixpoint escape (should : ascii -> bool) (s : string) : string :=
  match s with
  | EmptyString => EmptyString
  | String c rest =>
      if should c then
        let n := nat_of_ascii c in
        String "%" (String (hexDigit (n / 16)) (String (hexDigit (n mod 16))
                                                       (escape should rest)))
      else String c (escape should rest)
  end.

Fixpoint lastIndexFrom (c : ascii) (s : string) (i : nat) (found : option nat)
  : option nat :=
  match s with
  | EmptyString => found
  | String d rest =>
      lastIndexFrom c rest (S i) (if Ascii.eqb c d then Some i else found)
  end.

Definition LastIndexByte (s : string) (c : ascii) : option nat :=
  lastIndexFrom c s 0%nat None.

(** [strings.Cut]: around the first instance of [sep]. *)
Definition Cut (s sep : string) : string * string * bool :=
  match strings.index_from sep s 0 with
  | Some i =>
      (substring 0 i s,
       substring (i + String.length sep) (String.length s - i - String.length sep) s,
       true)
  | None => (s, "", false)
  end.

Definition parseHost (host : string) : result string :=
  if strings.mem "%" host then Err (errorString "invalid URL escape in host")
  else Ok host.

Definition parseAuthority (authority : string)
  : result (option url.Userinfo * string) :=
  match LastIndexByte authority "@" with
  | None =>
      match parseHost authority with
      | Ok host => Ok (None, host)
      | Err e => Err e
      end
  | Some i =>
      let hostPart := substring (S i) (String.length authority - S i) authority in
      match parseHost hostPart with
      | Err e => Err e
      | Ok host =>
          let userinfo := substring 0 i authority in
          let '(u, p, hasColon) := Cut userinfo ":" in
          match unescape u, unescape p with
          | Ok u', Ok p' =>
              Ok (Some {| url.username := u'; url.password := p';
                          url.passwordSet := hasColon |}, host)
          | Err e, _ => Err e
          | _, Err e => Err e
          end
      end
  end.

Definition setPath (u : url.URL) (p : string) : result url.URL :=
  match unescape p with
  | Err e => Err e
  | Ok path =>
      Ok {| url.Scheme := url.Scheme u; url.Opaque := url.Opaque u;
            url.User := url.User u; url.Host := url.Host u;
            url.Path := path;
            url.RawPath := if (escape shouldEscapePath path =? p)%string
                           then "" else p;
            url.RawQuery := url.RawQuery u; url.Fragment := url.Fragment u |}
  end.

Definition emptyURL (scheme : string) : url.URL :=
  {| url.Scheme := scheme; url.Opaque := ""; url.User := None; url.Host := "";
     url.Path := ""; url.RawPath := ""; url.RawQuery := ""; url.Fragment := "" |}.

Definition Parse (rawURL : string) : result url.URL :=
  if strings.mem "?" rawURL || strings.mem "#" rawURL then
    Err (errorString "query and fragment are outside the reference parser")
  else
    match getSchemeFrom rawURL rawURL 0 with
    | Err e => Err e
    | Ok (scheme, rest) =>
        let scheme := ToLower scheme in
        if negb (strings.HasPrefix rest "/") && negb (scheme =? "")%string then
          Ok {| url.Scheme := scheme; url.Opaque := rest; url.User := None;
                url.Host := ""; url.Path := ""; url.RawPath := "";
                url.RawQuery := ""; url.Fragment := "" |}
        else if negb (strings.HasPrefix rest "/")
                && strings.mem ":" (fst (fst (Cut rest "/"))) then
          Err (errorString "first path segment in URL cannot contain colon")
        else if strings.HasPrefix rest "//" then
          let authority := substring 2 (String.length rest - 2) rest in
          let '(authority, rest) :=
            match strings.index_from "/" authority 0 with
            | Some i => (substring 0 i authority,
                         substring i (String.length authority - i) authority)
            | None => (authority, "")
            end in
          match parseAuthority authority with
          | Err e => Err e
          | Ok (user, host) =>
              setPath {| url.Scheme := scheme; url.Opaque := ""; url.User := user;
                         url.Host := host; url.Path := ""; url.RawPath := "";
                         url.RawQuery := ""; url.Fragment := "" |} rest
          end
        else setPath (emptyURL scheme) rest
    end.

Definition userString (u : url.Userinfo) : string :=
  escape shouldEscapeUser (url.username u)
  ++ (if url.passwordSet u
      then ":" ++ escape shouldEscapeUser (url.password u) else "").

Definition EscapedPath (u : url.URL) : string :=
  if negb (url.RawPath u =? "")%string then url.RawPath u
  else escape shouldEscapePath (url.Path u).

Definition URLString (u : url.URL) : string :=
  (if (url.Scheme u =? "")%string then "" else url.Scheme u ++ ":")
  ++ (if negb (url.Opaque u =? "")%string then url.Opaque u
      else
        (match url.User u with
         | Some i => "//" ++ userString i ++ "@"
         | None =>
             if negb (url.Host u =? "")%string
                || negb (url.Scheme u =? "")%string && negb (url.Path u =? "")%string
                   && negb (url.Host u =? "")%string
             then "//" else ""
         end)
        ++ url.Host u ++ EscapedPath u).

Fixpoint allDigits (s : string) : bool :=
  match s with
  | EmptyString => true
  | String c rest => isDigit c && allDigits rest
  end.

(** [Hostname]: the host without a valid port and without the brackets
    of an IPv6 literal. *)
Definition Hostname (u : url.URL) : string :=
  let hostPort := url.Host u in
  let host :=
    match LastIndexByte hostPort ":" with
    | Some colon =>
        if allDigits (substring (S colon) (String.length hostPort - S colon) hostPort)
        then substring 0 colon hostPort else hostPort
    | None => hostPort
    end in
  if strings.HasPrefix host "[" && strings.HasSuffix host "]"
  then substring 1 (String.length host - 2) host else host.

End ref.

(** The rest of the reference environment: the message parser and a
    store with a fixed content. *)
Module refenv.

Fixpoint dropBlank (lines : list string) : list string :=
  match lines with
  | l :: rest => if (l =? "")%string then dropBlank rest else lines
  | [] => []
  end.

Fixpoint parseFields (lines : list string) : result (list message.Field) :=
  match lines with
  | [] => Ok []
  | l :: rest =>
      if (l =? "")%string then Ok []
      else
        match ref.Cut l ": " with
        | (name, value, true) =>
            match parseFields rest with
            | Ok fs => Ok (field name value :: fs)
            | Err e => Err e
            end
        | _ => Err (errorString ("malformed field line: " ++ l))
        end
  end.

(** Modelled from the spec: the parser [FromBytes] of the message
    package, whose source is not part of the engine file.  The first
    non-empty line is the status code, a space and the description; each
    following line up to the blank line is a field name, a colon and a
    space, and the field value. *)
Definition FromBytes (b : string) : result message.Message :=
  match dropBlank (strings.Split b (String "010" "")) with
  | [] => Err (errorString "empty message")
  | h :: rest =>
      let '(code, description, _) := ref.Cut h " " in
      match NilZero.uint_of_string code, parseFields rest with
      | Some n, Ok fs =>
          Ok {| message.Hdr := header (Z.of_uint n) description;
                message.Fields := fs |}
      | None, _ => Err (errorString ("malformed header line: " ++ h))
      | _, Err e => Err e
      end
  end.

(** An object of the store. *)
Record object : Type := mkObject {
  objBucket : string;
  objKey : string;
  objData : string;
  objModified : time.Time
}.

Fixpoint lookup (store : list object) (b k : string) : option object :=
  match store with
  | [] => None
  | o :: rest =>
      if (objBucket o =? b)%string && (objKey o =? k)%string then Some o
      else lookup rest b k
  end.

Definition notFoundError : error :=
  RequestFailure 404 "NotFound: Not Found".

Definition forbiddenError : error :=
  RequestFailure 403 ("Forbidden: Forbidden" ++ String "010" "" ++ "status code: 403").

(** The store answers 403 on the buckets of [denied], 404 on a key it
    does not hold. *)
Definition HeadObject (store : list object) (denied : list string)
           (client : aws.S3API) (b k : string) : result aws.HeadObjectOutput :=
  if existsb (String.eqb b) denied then Err forbiddenError
  else
    match lookup store b k with
    | Some o => Ok {| aws.ContentLength := Some (strings.len (objData o));
                      aws.LastModified := Some (objModified o) |}
    | None => Err notFoundError
    end.

Definition Download (store : list object) (denied : list string)
           (client : aws.S3API) (b k : string) : result string :=
  if existsb (String.eqb b) denied then Err forbiddenError
  else
    match lookup store b k with
    | Some o => Ok (objData o)
    | None => Err notFoundError
    end.

Definition s3EndpointURL (region : string) : result url.URL :=
  if (region =? endpoints_UsEast1RegionID)%string
  then ref.Parse "https://s3.amazonaws.com"
  else ref.Parse ("https://s3." ++ region ++ ".amazonaws.com").

(** Stand-ins for the four digests, with the lengths of the real ones:
    a running sum of the bytes, repeated. *)
Fixpoint checksum (acc : nat) (data : string) : nat :=
  match data with
  | EmptyString => acc
  | String c rest => checksum ((acc * 31 + nat_of_ascii c) mod 256) rest
  end.

Definition digest (width seed : nat) (data : string) : string :=
  string_of_list_ascii (repeat (ascii_of_nat (checksum seed data)) width).

Definition env (store : list object) (denied : list string) : Env :=
  mkEnv ref.Parse ref.URLString ref.Hostname
        FromBytes s3EndpointURL
        (fun _ _ => None)
        (HeadObject store denied) (Download store denied)
        (fun _ => None) (fun _ => None)
        (digest 16 1) (digest 20 2) (digest 32 3) (digest 64 4).

End refenv.

(** The object of the scenarios of the specification: 9012 bytes, last
    modified on Thu, 25 Oct 2018 20:17:39 GMT. *)
Definition pkg : refenv.object :=
  {| refenv.objBucket := "my-bucket"; refenv.objKey := "pkg.deb";
     refenv.objData := string_of_list_ascii (repeat "x"%char (Z.to_nat 9012));
     refenv.objModified := 1540498659 |}.

Definition acquireLines : list string :=
  [ "600 URI Acquire";
    "URI: s3://ak:sk@s3.amazonaws.com/my-bucket/pkg.deb";
    "Filename: /tmp/pkg.deb";
    "" ].

Definition configurationLines : list string :=
  [ "601 Configuration";
    "Config-Item: Acquire::s3::region=eu-west-1";
    "" ].

(** ** Vocabulary of the properties *)

Definition codeOf (m : message.Message) : Z := message.Status (message.Hdr m).

(** The state after one more message on the output. *)
Definition emit (s : State) (msg : message.Message) : State :=
  snd (Println msg s).

(** The state after one more store call. *)
Definition logged (s : State) (c : call) : State := snd (record c s).

(** The state after [wg.Done()]. *)
Definition done (s : State) : State := snd (wg_Done s).

(** The state after a write to a local file. *)
Definition written (s : State) (name data : string) : State :=
  snd (writeFile name data s).

(** The messages of [out] were printed between [s] and [s']. *)
Definition emitted (s s' : State) (out : list message.Message) : Prop :=
  stdout (self s') = (stdout (self s) ++ out)%list.

(** A request that goes on: it may print Status and URI Start messages,
    call the store and write files, and leaves the configuration, the
    latch and the counter as they are. *)
Definition advances (s s' : State) : Prop :=
  region (self s') = region (self s)
  /\ roleARN (self s') = roleARN (self s)
  /\ endpoint (self s') = endpoint (self s)
  /\ configured (self s') = configured (self s)
  /\ wg (self s') = wg (self s)
  /\ exists out, emitted s s' out
                 /\ Forall (fun m => codeOf m = headerCodeStatus
                                     \/ codeOf m = headerCodeURIStart) out.

(** The end of the process on a fatal error: one General Failure
    message, then exit status 1. *)
Definition fails (s : State) (code : Z) (s' : State) : Prop :=
  code = 1 /\ exists err, s' = emit s (generalFailure err).

(** The end of a fetch request: one URI Failure or URI Done message,
    then the counter goes down by one. *)
Definition concludes (s s' : State) : Prop :=
  exists msg, (codeOf msg = headerCodeURIFailure \/ codeOf msg = headerCodeURIDone)
              /\ s' = done (emit s msg).

(** A computation that goes on until it returns, panics or fails
    fatally, and never waits. *)
Definition orderlyAt {A} (c : M A) (s : State) : Prop :=
  match c s with
  | (Ret _, s') => advances s s'
  | (Panic _, s') => advances s s'
  | (Exit code, s') => exists m, advances s m /\ fails m code s'
  | (Blocked, _) => False
  end.

Definition orderly {A} (c : M A) : Prop := forall s, orderlyAt c s.

(** A computation that goes on until it concludes the request, panics
    or fails fatally, and never waits. *)
Definition settles {A} (c : M A) : Prop :=
  forall s,
    match c s with
    | (Ret _, s') => exists m, advances s m /\ concludes m s'
    | (Panic _, s') => advances s s'
    | (Exit code, s') => exists m, advances s m /\ fails m code s'
    | (Blocked, _) => False
    end.

(** The possible courses of a fetch handler. *)
Definition settled (s : State) (r : outcome unit) (s' : State) : Prop :=
  match r with
  | Ret _ => configured (self s) = true /\ exists m, advances s m /\ concludes m s'
  | Exit code => configured (self s) = true /\ exists m, advances s m /\ fails m code s'
  | Panic _ => configured (self s) = true /\ advances s s'
  | Blocked => configured (self s) = false /\ s' = s
  end.

(** The header codes the dispatch acts on. *)
Definition dispatched (code : Z) : bool :=
  (code =? headerCodeURIAcquire) || (code =? headerCodeConfiguration).

(** A handler whose message parses and carries a code the dispatch does
    not act on. *)
Definition ignored (E : Env) (h : Handler) : bool :=
  match FromBytes E (bytes h) with
  | Ok msg => negb (dispatched (codeOf msg))
  | Err _ => false
  end.

(** A handler whose message is the configuration message. *)
Definition configures (E : Env) (h : Handler) : bool :=
  match FromBytes E (bytes h) with
  | Ok msg => codeOf msg =? headerCodeConfiguration
  | Err _ => false
  end.

(** What each goroutine holds of the counter: the reader one unit until
    its final [Done], less the unit of a message sent and not yet added;
    a handler one unit until it returns, and for ever when its message is
    ignored. *)
Definition readerShare (r : Reader) : Z :=
  match r with
  | Scanning _ _ => 1
  | Adding _ => 0
  | Finished => 0
  end.

Definition handlerShare (E : Env) (h : Handler) : Z :=
  if returned h then (if ignored E h then 1 else 0) else 1.

Fixpoint handlerShares (E : Env) (hs : list Handler) : Z :=
  match hs with
  | [] => 0
  | h :: rest => handlerShare E h + handlerShares E rest
  end.

(** No General Failure among the messages of [out]. *)
Definition quiet (out : list message.Message) : Prop :=
  Forall (fun m => codeOf m <> headerCodeGeneralFailure) out.

(** The counter is the sum of the shares of the goroutines. *)
Definition accounted (E : Env) (p : Process) : Prop :=
  wg (self (state p)) = readerShare (reader p) + handlerShares E (handlers p).

(** The General Failure messages of an output, in their order. *)
Definition failures (out : list message.Message) : list message.Message :=
  filter (fun m => codeOf m =? headerCodeGeneralFailure) out.

(** Fatal errors are reported one by one: the counter is the sum of the
    shares; the General Failure messages of the output are those of the
    exiting handlers, one each; an exiting handler is listed once, exits
    with 1 and has not returned; the process has ended with status 0
    only with no handler exiting, and with another status only with
    status 1 and a handler exiting. *)
Definition tallied (E : Env) (q : Staged) : Prop :=
  let p := process q in
  accounted E p
  /\ (exists errs, failures (stdout (self (state p))) = map generalFailure errs
                   /\ List.length errs = List.length (exiting q))
  /\ NoDup (map fst (exiting q))
  /\ Forall (fun e => snd e = 1
                      /\ exists h, nth_error (handlers p) (fst e) = Some h
                                   /\ returned h = false)
            (exiting q)
  /\ match status p with
     | Exited code => code = 0 /\ exiting q = [] \/ code = 1 /\ exiting q <> []
     | _ => True
     end.

(** A byte-wise map over a string. *)
Definition mapBytes (f : ascii -> ascii) (s : string) : string :=
  string_of_list_ascii (map f (list_ascii_of_string s)).

(** A newline becomes a space. *)
Definition flatten (c : ascii) : ascii :=
  if Ascii.eqb c "010" then " "%char else c.

(** ** Scenarios *)

(** The fetch request of the scenarios, as the message parser delivers
    it, and the same request without its Filename field. *)
Definition acquireMessage : message.Message :=
  {| message.Hdr := header headerCodeURIAcquire "URI Acquire";
     message.Fields :=
       [ field fieldNameURI "s3://ak:sk@s3.amazonaws.com/my-bucket/pkg.deb";
         field fieldNameFilename "/tmp/pkg.deb" ] |}.

Definition acquireNoFilename : message.Message :=
  {| message.Hdr := header headerCodeURIAcquire "URI Acquire";
     message.Fields :=
       [ field fieldNameURI "s3://ak:sk@s3.amazonaws.com/my-bucket/pkg.deb" ] |}.

Definition configurationMessage : message.Message :=
  {| message.Hdr := header headerCodeConfiguration "Configuration";
     message.Fields :=
       [ field fieldNameConfigItem "Acquire::s3::region=eu-west-1" ] |}.

(** The engine after a configuration message without items, with one
    fetch request outstanding. *)
Definition configuredState : State :=
  {| self := {| region := endpoints_UsEast1RegionID; roleARN := ""; endpoint := "";
                configured := true; wg := 2; stdout := [capabilities] |};
     files := []; calls := [] |}.

(** The engine before any configuration message. *)
Definition freshState : State :=
  {| self := New; files := []; calls := [] |}.

(** A configuration without items, then the fetch request. *)
Definition sessionLines : list string :=
  ["601 Configuration"; ""] ++ acquireLines.

(** A configuration without items, then a fetch request without URI. *)
Definition brokenLines : list string :=
  ["601 Configuration"; ""; "600 URI Acquire"; "Filename: /tmp/pkg.deb"; ""].

(** A message the dispatch does not act on, then the end of the input. *)
Definition mediaLines : list string :=
  ["603 Media Changed"; "Media: disc"; ""].

(** The reader reads a two-line and a four-line message, adds each and
    meets the end of the input; the two handlers then run in order. *)
Definition sessionSchedule : list action :=
  [ ActReader; ActReader; ActReader;
    ActReader; ActReader; ActReader; ActReader; ActReader;
    ActReader;
    ActHandler 0; ActHandler 1 ].

(** The reader reads both messages and adds each; the two handlers then
    run in order. *)
Definition brokenSchedule : list action :=
  [ ActReader; ActReader; ActReader;
    ActReader; ActReader; ActReader; ActReader;
    ActHandler 0; ActHandler 1 ].

(** The reader reads the message and adds it, the handler runs, the
    reader meets the end of the input. *)
Definition mediaSchedule : list action :=
  [ ActReader; ActReader; ActReader; ActReader; ActHandler 0; ActReader ].

(** A configuration without items, then two fetch requests without
    URI. *)
Definition twiceBrokenLines : list string :=
  brokenLines ++ ["600 URI Acquire"; "Filename: /tmp/other.deb"; ""].

(** The reader reads the three messages and adds each; the
    configuration handler returns; both fetch handlers print their
    General Failure before either exits. *)
Definition twiceBrokenMoves : list move :=
  map Act (repeat ActReader 3 ++ repeat ActReader 4 ++ repeat ActReader 4
           ++ [ActHandler 0; ActHandler 1; ActHandler 2]).

(** A configuration without items, then a fetch request whose locator
    has a host other than the endpoint's and no path. *)
Definition pathlessLines : list string :=
  ["601 Configuration"; "";
   "600 URI Acquire"; "URI: s3://my-bucket"; "Filename: /tmp/pkg.deb"; ""].

Definition pathlessMoves : list move :=
  map Act (repeat ActReader 3 ++ repeat ActReader 5
           ++ [ActHandler 0; ActHandler 1]).

(** ** Further scenarios *)

(** The reference environment with one collaborator replaced: a store
    whose metadata answer has no content length, a system without the
    GMT zone, a directory in which no file can be created. *)
Definition bareAnswerEnv : Env :=
  let E := refenv.env [pkg] [] in
  mkEnv (url_Parse E) (url_String E) (url_Hostname E) (FromBytes E)
        (s3EndpointURL E) (NewSession E)
        (fun _ _ _ => Ok {| aws.ContentLength := None;
                            aws.LastModified := Some (refenv.objModified pkg) |})
        (Download E) (Create E) (LoadLocation E)
        (md5_Sum E) (sha1_Sum E) (sha256_Sum E) (sha512_Sum E).

Definition zonelessEnv : Env :=
  let E := refenv.env [pkg] [] in
  mkEnv (url_Parse E) (url_String E) (url_Hostname E) (FromBytes E)
        (s3EndpointURL E) (NewSession E) (HeadObject E) (Download E) (Create E)
        (fun name => Some (errorString ("unknown time zone " ++ name)))
        (md5_Sum E) (sha1_Sum E) (sha256_Sum E) (sha512_Sum E).

Definition readOnlyEnv : Env :=
  let E := refenv.env [pkg] [] in
  mkEnv (url_Parse E) (url_String E) (url_Hostname E) (FromBytes E)
        (s3EndpointURL E) (NewSession E) (HeadObject E) (Download E)
        (fun name => Some (errorString ("open " ++ name ++ ": permission denied")))
        (LoadLocation E)
        (md5_Sum E) (sha1_Sum E) (sha256_Sum E) (sha512_Sum E).

(** A fetch request without URI field, and one whose path-style locator
    names a bucket and no key. *)
Definition acquireNoURI : message.Message :=
  {| message.Hdr := header headerCodeURIAcquire "URI Acquire";
     message.Fields := [ field fieldNameFilename "/tmp/pkg.deb" ] |}.

Definition acquireBucketOnly : message.Message :=
  {| message.Hdr := header headerCodeURIAcquire "URI Acquire";
     message.Fields :=
       [ field fieldNameURI "s3://ak:sk@s3.amazonaws.com/my-bucket";
         field fieldNameFilename "/tmp/pkg.deb" ] |}.

(** The configured engine with an endpoint override that is no URI. *)
Definition misconfiguredState : State :=
  {| self := {| region := endpoints_UsEast1RegionID; roleARN := "";
                endpoint := ":9000"; configured := true; wg := 2;
                stdout := [capabilities] |};
     files := []; calls := [] |}.

(** Configuration messages: one with an item the handler does not know,
    one with a key and no value, one with an endpoint that holds a
    second '='. *)
Definition configurationUnknown : message.Message :=
  {| message.Hdr := header headerCodeConfiguration "Configuration";
     message.Fields := [ field fieldNameConfigItem "Dir::Etc=/etc/apt" ] |}.

Definition configurationBareKey : message.Message :=
  {| message.Hdr := header headerCodeConfiguration "Configuration";
     message.Fields := [ field fieldNameConfigItem "Acquire::s3::region" ] |}.

Definition configurationQuery : message.Message :=
  {| message.Hdr := header headerCodeConfiguration "Configuration";
     message.Fields :=
       [ field fieldNameConfigItem
               "Acquire::s3::endpoint=https://minio.example.com/?zone=a" ] |}.

(** * Properties *)

(** ** The library functions on examples *)

Example split_path :
  strings.Split "/bucket/this/is/a/path" "/"
  = [""; "bucket"; "this"; "is"; "a"; "path"].
Proof. reflexivity. Qed.

Example replace_slash :
  strings.ReplaceAll "ab/cd/e" "/" "%2F" = "ab%2Fcd%2Fe".
Proof. reflexivity. Qed.

Example format_int : strconv.FormatInt 9012 = "9012".
Proof. reflexivity. Qed.

Example hex_bytes : hex.EncodeToString "Hi!" = "486921".
Proof. reflexivity. Qed.

(** The instant of the examples in the comments of [uriStart] and
    [uriDone]. *)
Example rfc1123_example :
  time.FormatRFC1123GMT 1540498659 = "Thu, 25 Oct 2018 20:17:39 GMT".
Proof. vm_compute. reflexivity. Qed.

Example rfc1123_epoch :
  time.FormatRFC1123GMT 0 = "Thu, 01 Jan 1970 00:00:00 GMT".
Proof. vm_compute. reflexivity. Qed.

(** ** Facts on strings *)
Section StringFacts.

Local Open Scope nat_scope.

Lemma append_nil_r (s : string) : s ++ "" = s.
Proof. induction s; simpl; congruence. Qed.

Lemma append_assoc (a b c : string) : (a ++ b) ++ c = a ++ (b ++ c).
Proof. induction a; simpl; congruence. Qed.

Lemma length_app (a b : string) :
  String.length (a ++ b) = String.length a + String.length b.
Proof. induction a; simpl; congruence. Qed.

Lemma substring_all (s : string) : substring 0 (String.length s) s = s.
Proof. induction s; simpl; congruence. Qed.

Lemma substring_app_l (a b : string) : substring 0 (String.length a) (a ++ b) = a.
Proof. induction a; simpl; [destruct b; reflexivity | congruence]. Qed.

Lemma substring_app_r (a b : string) (n : nat) :
  substring (String.length a) n (a ++ b) = substring 0 n b.
Proof. induction a; simpl; auto. Qed.

Lemma substring_cut (s : string) (n : nat) :
  n <= String.length s ->
  substring 0 n s ++ substring n (String.length s - n) s = s.
Proof.
  revert n; induction s as [|c s IH]; intros [|n] Hn; simpl in *; try lia.
  - reflexivity.
  - f_equal. apply substring_all.
  - f_equal. apply IH. lia.
Qed.

Lemma HasSuffix_app (p suffix : string) : strings.HasSuffix (p ++ suffix) suffix = true.
Proof.
  unfold strings.HasSuffix. rewrite length_app.
  replace (String.length p + String.length suffix - String.length suffix)
    with (String.length p) by lia.
  rewrite substring_app_r, substring_all, String.eqb_refl.
  rewrite andb_true_r. apply Nat.leb_le. lia.
Qed.

Lemma HasSuffix_inv (s suffix : string) :
  strings.HasSuffix s suffix = true -> exists p, s = p ++ suffix.
Proof.
  unfold strings.HasSuffix. intros H.
  apply andb_true_iff in H as [Hlen Heq].
  apply Nat.leb_le in Hlen. apply String.eqb_eq in Heq.
  exists (substring 0 (String.length s - String.length suffix) s).
  pose proof (substring_cut s (String.length s - String.length suffix)) as Hc.
  replace (String.length s - (String.length s - String.length suffix))
    with (String.length suffix) in Hc by lia.
  rewrite Heq in Hc. symmetry. apply Hc. lia.
Qed.

Lemma TrimSuffix_app (p suffix : string) : strings.TrimSuffix (p ++ suffix) suffix = p.
Proof.
  unfold strings.TrimSuffix. rewrite HasSuffix_app, length_app.
  replace (String.length p + String.length suffix - String.length suffix)
    with (String.length p) by lia.
  apply substring_app_l.
Qed.

Lemma TrimSuffix_other (s suffix : string) :
  (forall p, s <> p ++ suffix) -> strings.TrimSuffix s suffix = s.
Proof.
  intros H. unfold strings.TrimSuffix.
  destruct (strings.HasSuffix s suffix) eqn:Hs; [|reflexivity].
  apply HasSuffix_inv in Hs as [p Hp]. now apply H in Hp.
Qed.

Lemma slice_from_1 (c : ascii) (k : string) :
  strings.slice_from (String c k) 1 = Some k.
Proof.
  unfold strings.slice_from. simpl. now rewrite Nat.sub_0_r, substring_all.
Qed.

Lemma slice_from_1_empty : strings.slice_from "" 1 = None.
Proof. reflexivity. Qed.

End StringFacts.

(** ** [Split] and [Join] on the path separator, [ReplaceAll] on a byte *)
Section SplitFacts.

Lemma prefix_nil (s : string) : String.prefix "" s = true.
Proof. destruct s; reflexivity. Qed.

Lemma prefix_byte (a c : ascii) (s : string) :
  String.prefix (String a "") (String c s) = Ascii.eqb a c.
Proof.
  change (String.prefix (String a "") (String c s))
    with (if ascii_dec a c then String.prefix "" s else false).
  destruct (ascii_dec a c) as [->|Hne].
  - now rewrite prefix_nil, Ascii.eqb_refl.
  - symmetry. now apply Ascii.eqb_neq.
Qed.

Lemma prefix_slash (c : ascii) (s : string) :
  String.prefix "/" (String c s) = Ascii.eqb "/" c.
Proof. apply prefix_byte. Qed.

Lemma split_go_nonempty (sep s : string) (skip : nat) (cur : string) :
  strings.split_go sep s skip cur <> [].
Proof.
  revert skip cur; induction s as [|c s IH]; intros skip cur;
    cbn [strings.split_go].
  - discriminate.
  - destruct skip; [|apply IH].
    destruct (String.prefix sep (String c s)); [discriminate | apply IH].
Qed.

Lemma concat_cons (sep x : string) (l : list string) :
  l <> [] -> String.concat sep (x :: l) = x ++ sep ++ String.concat sep l.
Proof. destruct l; [congruence | reflexivity]. Qed.

(** Joining the tokens gives the string back. *)
Lemma Join_split_go (s cur : string) :
  strings.Join (strings.split_go "/" s 0 cur) "/" = cur ++ s.
Proof.
  unfold strings.Join. revert cur; induction s as [|c s IH]; intros cur.
  - simpl. now rewrite append_nil_r.
  - cbn [strings.split_go]. rewrite prefix_slash.
    destruct (Ascii.eqb "/" c) eqn:Hc.
    + apply Ascii.eqb_eq in Hc; subst c.
      rewrite concat_cons by apply split_go_nonempty.
      simpl String.length. simpl Nat.sub. now rewrite IH.
    + rewrite IH, append_assoc. reflexivity.
Qed.

Lemma Join_Split (s : string) : strings.Join (strings.Split s "/") "/" = s.
Proof. unfold strings.Split. simpl. apply Join_split_go. Qed.

(** A first segment free of the separator is the first token. *)
Lemma split_go_segment (b k cur : string) :
  strings.mem "/" b = false ->
  strings.split_go "/" (b ++ String "/" k) 0 cur
  = (cur ++ b) :: strings.split_go "/" k 0 "".
Proof.
  revert cur; induction b as [|c b IH]; intros cur Hb.
  - cbn [append strings.split_go]. rewrite prefix_slash. simpl.
    now rewrite append_nil_r.
  - cbn [strings.mem] in Hb. apply orb_false_iff in Hb as [Hc Hb].
    cbn [append strings.split_go]. rewrite prefix_slash, Hc.
    rewrite IH by assumption. now rewrite append_assoc.
Qed.

Lemma Split_path (b k : string) :
  strings.mem "/" b = false ->
  strings.Split (String "/" (b ++ String "/" k)) "/"
  = "" :: b :: strings.Split k "/".
Proof.
  intros Hb. unfold strings.Split. simpl String.eqb. cbv iota.
  cbn [strings.split_go]. rewrite prefix_slash. simpl.
  now rewrite split_go_segment.
Qed.

(** The number of tokens is one more than the number of separators. *)
Lemma length_split_go (s cur : string) :
  List.length (strings.split_go "/" s 0 cur)
  = S (List.length (filter (Ascii.eqb "/") (list_ascii_of_string s))).
Proof.
  revert cur; induction s as [|c s IH]; intros cur; [reflexivity|].
  cbn [strings.split_go list_ascii_of_string filter]. rewrite prefix_slash.
  destruct (Ascii.eqb "/" c); simpl; now rewrite IH.
Qed.

Lemma replace_go_byte (old new : ascii) (s : string) :
  strings.replace_go (String old "") (String new "") s 0
  = string_of_list_ascii
      (map (fun c => if Ascii.eqb c old then new else c) (list_ascii_of_string s)).
Proof.
  induction s as [|c s IH]; [reflexivity|].
  cbn [strings.replace_go list_ascii_of_string map string_of_list_ascii].
  rewrite prefix_byte, (Ascii.eqb_sym old c).
  destruct (Ascii.eqb c old); simpl; now rewrite IH.
Qed.

End SplitFacts.

(** ** Location resolution *)
Section Location.

Variable E : Env.

Lemma Split_nonempty (s : string) : strings.Split s "/" <> [].
Proof. unfold strings.Split. simpl. apply split_go_nonempty. Qed.

Lemma newLocation_parsed (value s3Hostname p : string) (u : url.URL) :
  preProcessURL value = Normal p ->
  url_Parse E p = Ok u ->
  newLocation E value s3Hostname
  = if (url.Host u =? s3Hostname)%string then
      let tokens := strings.Split (url.Path u) "/" in
      if Z.of_nat (List.length tokens) <? locationMinTokensCount
      then Normal (Err errLocMissingRequiredTokens)
      else Normal (Ok {| uri := u; bucket := nth 1 tokens "";
                         key := strings.Join (skipn 2 tokens) "/" |})
    else
      match strings.slice_from (url.Path u) 1 with
      | None => Panicking "slice bounds out of range"
      | Some k =>
          Normal (Ok {| uri := u;
                        bucket := if strings.HasSuffix (url.Host u) s3Hostname
                                  then strings.TrimSuffix (url.Host u) ("." ++ s3Hostname)
                                  else url.Host u;
                        key := k |})
      end.
Proof.
  intros Hp Hu. unfold newLocation. rewrite Hp, Hu.
  destruct (url.Host u =? s3Hostname)%string; [reflexivity|].
  destruct (strings.HasSuffix (url.Host u) s3Hostname);
    destruct (strings.slice_from (url.Path u) 1); reflexivity.
Qed.

(** C3. Resolution is classified by comparing the parsed host with the
    endpoint host.  Path-style (the hosts are equal): a path that splits
    into fewer than 3 tokens on '/' is a location error; otherwise the
    bucket is the token after the leading empty one and the key is the
    remaining tokens joined by '/', so that a path [/b/k] with [b] free
    of '/' gives bucket [b] and key [k].  Otherwise the key is the path
    without its first byte, the leading '/', and the bucket is the host
    without the suffix [.<endpoint-host>] when the host has the form
    [<bucket>.<endpoint-host>] (virtual-hosted style) and the whole host
    for any other host (opaque style). *)
Theorem newLocation_styles (value s3Hostname p : string) (u : url.URL) :
  preProcessURL value = Normal p ->
  url_Parse E p = Ok u ->
  (url.Host u = s3Hostname ->
     let tokens := strings.Split (url.Path u) "/" in
     (Z.of_nat (List.length tokens) < 3 ->
        newLocation E value s3Hostname = Normal (Err errLocMissingRequiredTokens))
     /\ (3 <= Z.of_nat (List.length tokens) ->
           newLocation E value s3Hostname
           = Normal (Ok {| uri := u; bucket := nth 1 tokens "";
                           key := strings.Join (skipn 2 tokens) "/" |}))
     /\ (forall b k, url.Path u = "/" ++ b ++ "/" ++ k ->
           strings.mem "/" b = false ->
           newLocation E value s3Hostname
           = Normal (Ok {| uri := u; bucket := b; key := k |})))
  /\ (url.Host u <> s3Hostname ->
        forall c k, url.Path u = String c k ->
          (forall b, url.Host u = b ++ "." ++ s3Hostname ->
             newLocation E value s3Hostname
             = Normal (Ok {| uri := u; bucket := b; key := k |}))
          /\ ((forall b, url.Host u <> b ++ "." ++ s3Hostname) ->
                newLocation E value s3Hostname
                = Normal (Ok {| uri := u; bucket := url.Host u; key := k |}))).
Proof.
  intros Hp Hu. rewrite (newLocation_parsed _ _ _ _ Hp Hu). split.
  - intros Hhost. apply String.eqb_eq in Hhost. rewrite Hhost.
    cbv zeta. unfold locationMinTokensCount. repeat split.
    + intros Hlt. apply Z.ltb_lt in Hlt. now rewrite Hlt.
    + intros Hge. apply Z.ltb_ge in Hge. now rewrite Hge.
    + intros b k Hpath Hb.
      change ("/" ++ b ++ "/" ++ k) with (String "/" (b ++ String "/" k)) in Hpath.
      rewrite Hpath, Split_path by assumption.
      pose proof (Split_nonempty k) as Hne.
      destruct (strings.Split k "/") as [|t ts] eqn:Hk; [congruence|].
      replace (Z.of_nat (List.length ("" :: b :: t :: ts)) <? 3) with false
        by (symmetry; apply Z.ltb_ge; simpl List.length; lia).
      cbn [nth skipn]. now rewrite <- Hk, Join_Split.
  - intros Hhost c k Hpath. apply String.eqb_neq in Hhost.
    rewrite Hhost, Hpath, slice_from_1. split.
    + intros b Hb. rewrite Hb at 1. rewrite <- append_assoc, HasSuffix_app.
      rewrite Hb. now rewrite TrimSuffix_app.
    + intros Hother.
      destruct (strings.HasSuffix (url.Host u) s3Hostname); [|reflexivity].
      now rewrite TrimSuffix_other.
Qed.

(** C9. Resolution is not total: when the parsed host differs from the
    endpoint host and the parsed path is empty, taking the path from its
    second byte is out of range and [newLocation] panics; it returns
    neither a location nor a location error. *)
Theorem newLocation_empty_path_panics (value s3Hostname p : string) (u : url.URL) :
  preProcessURL value = Normal p ->
  url_Parse E p = Ok u ->
  url.Host u <> s3Hostname ->
  url.Path u = "" ->
  newLocation E value s3Hostname = Panicking "slice bounds out of range".
Proof.
  intros Hp Hu Hhost Hpath. rewrite (newLocation_parsed _ _ _ _ Hp Hu).
  apply String.eqb_neq in Hhost. now rewrite Hhost, Hpath.
Qed.

End Location.

(** ** Reasoning on handlers *)

Create HintDb engine.

Section Orderly.

Lemma advances_refl (s : State) : advances s s.
Proof.
  unfold advances, emitted. repeat split; try reflexivity.
  exists []. split; [now rewrite app_nil_r | constructor].
Qed.

Lemma advances_trans (s1 s2 s3 : State) :
  advances s1 s2 -> advances s2 s3 -> advances s1 s3.
Proof.
  unfold advances, emitted.
  intros (Hr & Ha & He & Hc & Hw & out & Ho & Hf)
         (Hr' & Ha' & He' & Hc' & Hw' & out' & Ho' & Hf').
  repeat split; try congruence.
  exists (out ++ out')%list. split.
  - now rewrite Ho', Ho, app_assoc.
  - apply Forall_app. now split.
Qed.

Lemma advances_emit (s : State) (msg : message.Message) :
  codeOf msg = headerCodeStatus \/ codeOf msg = headerCodeURIStart ->
  advances s (emit s msg).
Proof.
  intros Hmsg. unfold advances, emitted. repeat split; try reflexivity.
  exists [msg]. split; [reflexivity | now constructor].
Qed.

Lemma advances_logged (s : State) (c : call) : advances s (logged s c).
Proof.
  unfold advances, emitted. repeat split; try reflexivity.
  exists []. split; [simpl; now rewrite app_nil_r | constructor].
Qed.

Lemma advances_written (s : State) (name data : string) :
  advances s (written s name data).
Proof.
  unfold advances, emitted. repeat split; try reflexivity.
  exists []. split; [simpl; now rewrite app_nil_r | constructor].
Qed.

Context {A B : Type}.

Lemma orderly_ret (a : A) : orderly (ret a).
Proof. intros s. apply advances_refl. Qed.

Lemma orderly_panic (why : string) : orderly (@panic A why).
Proof. intros s. apply advances_refl. Qed.

Lemma orderlyAt_bind (c : M A) (k : A -> M B) (s : State) :
  orderlyAt c s -> (forall a, orderly (k a)) -> orderlyAt (bind c k) s.
Proof.
  unfold orderlyAt, bind. intros Hc Hk.
  destruct (c s) as [[a|code|why|] s1]; try exact Hc.
  specialize (Hk a s1). unfold orderlyAt in Hk.
  destruct (k a s1) as [[b|code|why|] s2]; eauto using advances_trans.
  destruct Hk as (m & Hm & Hf). exists m. eauto using advances_trans.
Qed.

Lemma orderly_bind (c : M A) (k : A -> M B) :
  orderly c -> (forall a, orderly (k a)) -> orderly (bind c k).
Proof. intros Hc Hk s. apply orderlyAt_bind; auto. Qed.

(** Whatever follows a fatal error is not run. *)
Lemma orderly_fatal (e : error) (k : unit -> M A) :
  orderly (bind (handleError (Some e)) k).
Proof.
  intros s. unfold orderlyAt. cbn.
  exists s. split; [apply advances_refl|]. split; [reflexivity|]. now exists e.
Qed.

End Orderly.

Section OrderlySteps.

Variable E : Env.

Lemma orderly_get : orderly get.
Proof. intros s. apply advances_refl. Qed.

Lemma orderly_record (c : call) : orderly (record c).
Proof. intros s. apply advances_logged. Qed.

Lemma orderly_writeFile (name data : string) : orderly (writeFile name data).
Proof. intros s. apply advances_written. Qed.

Lemma orderly_Println (msg : message.Message) :
  codeOf msg = headerCodeStatus \/ codeOf msg = headerCodeURIStart ->
  orderly (Println msg).
Proof. intros Hmsg s. now apply advances_emit. Qed.

Lemma orderly_handleError (err : option error) : orderly (handleError err).
Proof.
  destruct err as [e|]; [|apply orderly_ret].
  intros s. unfold orderlyAt. cbn.
  exists s. split; [apply advances_refl|]. split; [reflexivity|]. now exists e.
Qed.

Lemma orderly_try {A} (r : result A) : orderly (try r).
Proof. destruct r; [apply orderly_ret | apply orderly_fatal]. Qed.

Lemma orderly_require (hasField : bool) (err : error) :
  orderly (require hasField err).
Proof. destruct hasField; [apply orderly_ret | apply orderly_handleError]. Qed.

Lemma orderly_deref {A} (p : option A) : orderly (deref p).
Proof. destruct p; [apply orderly_ret | apply orderly_panic]. Qed.

Lemma orderly_liftP {A} (p : panics A) : orderly (liftP p).
Proof. destruct p; [apply orderly_ret | apply orderly_panic]. Qed.

End OrderlySteps.

#[export] Hint Resolve orderly_ret orderly_panic orderly_get orderly_record
  orderly_writeFile orderly_handleError orderly_try orderly_require
  orderly_deref orderly_liftP orderly_fatal : engine.

(** Decompose a goal [orderly c] along the structure of [c]. *)
Ltac orderly_step :=
  match goal with
  | |- orderly (bind (handleError (Some _)) _) => apply orderly_fatal
  | |- orderly (bind _ _) => apply orderly_bind; [|intros ?]
  | |- orderly (let _ := _ in _) => cbv zeta
  | |- orderly (if ?b then _ else _) => destruct b
  | |- orderly (match ?x with _ => _ end) => destruct x
  | |- orderly (Println _) => apply orderly_Println; cbn; auto
  | |- orderly _ => solve [auto with engine]
  end.

Ltac orderly_tac := repeat orderly_step.

Section OrderlyEngine.

Variable E : Env.

Lemma orderly_lastModified (t : time.Time) : orderly (lastModified E t).
Proof. unfold lastModified. orderly_tac. Qed.

Lemma orderly_uriStart (u : url.URL) (size : Z) (t : time.Time) :
  orderly (uriStart E u size t).
Proof. unfold uriStart. pose proof orderly_lastModified. orderly_tac. Qed.

Lemma orderly_os_ReadFile (filename : string) : orderly (os_ReadFile filename).
Proof. unfold os_ReadFile. orderly_tac. Qed.

Lemma orderly_uriDone (u : url.URL) (size : Z) (t : time.Time) (filename : string) :
  orderly (uriDone E u size t filename).
Proof.
  unfold uriDone. pose proof orderly_lastModified. pose proof orderly_os_ReadFile.
  orderly_tac.
Qed.

Lemma orderly_outputRequestStatus (u : url.URL) (status : string) :
  orderly (outputRequestStatus E u status).
Proof. unfold outputRequestStatus. orderly_tac. Qed.

Lemma orderly_outputURIStart (u : url.URL) (size : Z) (t : time.Time) :
  orderly (outputURIStart E u size t).
Proof.
  intros s. unfold orderlyAt, outputURIStart, uriStart, lastModified.
  destruct (LoadLocation E "GMT") as [e|]; cbn.
  - exists s. split; [apply advances_refl|]. split; [reflexivity|]. now exists e.
  - apply advances_emit. now right.
Qed.

Lemma orderly_s3Client (user : option url.Userinfo) : orderly (s3Client E user).
Proof. unfold s3Client. orderly_tac. Qed.

Lemma orderly_os_Create (filename : string) : orderly (os_Create E filename).
Proof. unfold os_Create. orderly_tac. Qed.

Lemma orderly_downloader_Download (client : aws.S3API) (filename b k : string) :
  orderly (downloader_Download E client filename b k).
Proof. unfold downloader_Download. orderly_tac. Qed.

Lemma wait_bind {A} (k : unit -> M A) (s : State) :
  bind waitForConfiguration k s
  = if configured (self s) then k tt s else (Blocked, s).
Proof.
  unfold waitForConfiguration, bind, get.
  destruct (configured (self s)); reflexivity.
Qed.

(** Before the latch is set the handler waits, and has done nothing. *)
Lemma connect_waits (msg : message.Message) (s : State) :
  configured (self s) = false -> uriAcquire_connect E msg s = (Blocked, s).
Proof.
  intros Hc. unfold uriAcquire_connect. now rewrite wait_bind, Hc.
Qed.

(** Once the latch is set the first part of the handler goes on. *)
Lemma connect_orderly (msg : message.Message) (s : State) :
  configured (self s) = true -> orderlyAt (uriAcquire_connect E msg) s.
Proof.
  intros Hc. unfold orderlyAt, uriAcquire_connect. rewrite wait_bind, Hc.
  pose proof orderly_outputRequestStatus. pose proof orderly_s3Client.
  match goal with
  | |- context [?c s] =>
      assert (Ho : orderly c) by orderly_tac; exact (Ho s)
  end.
Qed.

End OrderlyEngine.

(** ** Runs that return *)
Section Returns.

Context {A B : Type}.

Lemma bind_Ret (c : M A) (k : A -> M B) (s s' : State) (b : B) :
  bind c k s = (Ret b, s') ->
  exists a s1, c s = (Ret a, s1) /\ k a s1 = (Ret b, s').
Proof.
  unfold bind. destruct (c s) as [[a|code|why|] s1]; try discriminate.
  intros H. now exists a, s1.
Qed.

Lemma ret_Ret (a b : A) (s s' : State) :
  ret a s = (Ret b, s') -> b = a /\ s' = s.
Proof. unfold ret. intros H. now inversion H. Qed.

Lemma try_Ret (r : result A) (a : A) (s s' : State) :
  try r s = (Ret a, s') -> r = Ok a /\ s' = s.
Proof. destruct r; cbn; intros H; now inversion H. Qed.

Lemma liftP_Ret (p : panics A) (a : A) (s s' : State) :
  liftP p s = (Ret a, s') -> p = Normal a /\ s' = s.
Proof. destruct p; cbn; intros H; now inversion H. Qed.

Lemma deref_Ret (p : option A) (a : A) (s s' : State) :
  deref p s = (Ret a, s') -> p = Some a /\ s' = s.
Proof. destruct p; cbn; intros H; now inversion H. Qed.

Lemma fatal_Ret (e : error) (k : unit -> M A) (a : A) (s s' : State) :
  bind (handleError (Some e)) k s = (Ret a, s') -> False.
Proof. cbn. discriminate. Qed.

End Returns.

Lemma handleError_Ret (err : option error) (u : unit) (s s' : State) :
  handleError err s = (Ret u, s') -> err = None /\ s' = s.
Proof. destruct err; cbn; intros H; now inversion H. Qed.

Lemma require_Ret (hasField : bool) (err : error) (u : unit) (s s' : State) :
  require hasField err s = (Ret u, s') -> hasField = true /\ s' = s.
Proof. destruct hasField; cbn; intros H; now inversion H. Qed.

Lemma get_Ret (s0 s s' : State) : get s = (Ret s0, s') -> s0 = s /\ s' = s.
Proof. unfold get. intros H. now inversion H. Qed.

Lemma record_Ret (c : call) (u : unit) (s s' : State) :
  record c s = (Ret u, s') -> s' = logged s c.
Proof. unfold logged. destruct (record c s) eqn:Hr. cbn in *. intros H. now inversion H. Qed.

Lemma Println_Ret (msg : message.Message) (u : unit) (s s' : State) :
  Println msg s = (Ret u, s') -> s' = emit s msg.
Proof. unfold emit. cbn. intros H. now inversion H. Qed.

(** Evaluate the monadic operations of a run, and nothing else. *)
Ltac mrun :=
  cbv beta iota zeta delta
    [bind ret get modify os_Exit panic block liftP deref setMethod record
     writeFile Println wg_Add wg_Done handleError try require
     outputGeneralFailure outputRequestStatus outputNotFound outputURIStart
     outputURIDone uriStart uriDone lastModified os_ReadFile os_Create
     downloader_Download emit logged done written];
  cbn [self files calls region roleARN endpoint configured wg stdout fst snd
       aws.ContentLength aws.LastModified negb].

(** Peel the first step off a run that returns. *)
Tactic Notation "step" hyp(H) "as" ident(a) ident(s) ident(Hs) :=
  apply bind_Ret in H as (a & s & Hs & H).

Section Courses.

Variable E : Env.

Lemma s3Client_returns (user : option url.Userinfo) (client : aws.S3API)
      (s s' : State) :
  s3Client E user s = (Ret client, s') ->
  s' = logged (logged s (CallNewSession (aws.Region client) (aws.Endpoint client)))
              (CallCredentials (aws.Creds client))
  /\ aws.Region client = region (self s).
Proof.
  intros H. unfold s3Client in H.
  step H as s0 t0 H0. apply get_Ret in H0 as [-> ->].
  step H as u1 t1 H1. apply record_Ret in H1 as ->.
  step H as u2 t2 H2.
  assert (t2 = logged s (CallNewSession (region (self s))
            (if negb (endpoint (self s) =? "")%string
             then Some (endpoint (self s)) else None))) as ->.
  { destruct (NewSession E _ _); cbn in H2; [discriminate|]. now inversion H2. }
  clear H2.
  step H as creds t3 H3. step H as u4 t4 H4. apply record_Ret in H4 as ->.
  apply ret_Ret in H as [-> ->]. cbn [aws.Region aws.Endpoint aws.Creds].
  assert (t3 = logged s (CallNewSession (region (self s))
            (if negb (endpoint (self s) =? "")%string
             then Some (endpoint (self s)) else None))) as ->; [|now split].
  revert H3. cbv zeta.
  destruct (negb (url.Username user =? "")%string).
  - destruct (url.Password user) as [secret ok]. destruct ok; cbn.
    + intros H; now inversion H.
    + discriminate.
  - destruct (negb (roleARN _ =? "")%string); cbn; intros H; now inversion H.
Qed.

(** A first part that returns has found the latch set, the URI field
    present and the location resolved; it has printed the Status
    message and built the store client, and nothing else. *)
Lemma connect_returns (msg : message.Message) (s s1 : State)
      (objLoc : objectLocation) (client : aws.S3API) :
  uriAcquire_connect E msg s = (Ret (objLoc, client), s1) ->
  configured (self s) = true
  /\ s1 = logged (logged (emit s (requestStatus E (uri objLoc) fieldValueConnecting))
                         (CallNewSession (aws.Region client) (aws.Endpoint client)))
                 (CallCredentials (aws.Creds client))
  /\ aws.Region client = region (self s)
  /\ exists locator s3URL,
       message.GetFieldValue msg fieldNameURI = (locator, true)
       /\ newLocation E locator (url_Hostname E s3URL) = Normal (Ok objLoc).
Proof.
  intros H. unfold uriAcquire_connect in H. rewrite wait_bind in H.
  destruct (configured (self s)) eqn:Hc; [|discriminate].
  split; [reflexivity|].
  destruct (message.GetFieldValue msg fieldNameURI) as [locator hasField].
  step H as u0 t0 H0. apply require_Ret in H0 as [-> ->].
  step H as s0 t1 H1. apply get_Ret in H1 as [-> ->]. cbv zeta in H.
  step H as s3URL t2 H2.
  assert (t2 = s) as ->.
  { destruct (negb (endpoint (self s) =? "")%string);
      [destruct (url_Parse E _) | destruct (s3EndpointURL E _)];
      cbn in H2; try discriminate; now inversion H2. }
  clear H2.
  step H as r t3 H3. apply liftP_Ret in H3 as [Hloc ->].
  step H as loc t4 H4. apply try_Ret in H4 as [-> ->].
  step H as u5 t5 H5. unfold outputRequestStatus in H5. apply Println_Ret in H5 as ->.
  step H as cl t6 H6. apply s3Client_returns in H6 as [-> Hregion].
  apply ret_Ret in H as [Heq ->]. inversion Heq; subst loc cl.
  repeat split; eauto.
Qed.

End Courses.

(** ** The second part of a fetch request *)
Section Fetch.

Variable E : Env.

Lemma settles_bind {A B} (c : M A) (k : A -> M B) :
  orderly c -> (forall a, settles (k a)) -> settles (bind c k).
Proof.
  intros Hc Hk s. unfold bind. specialize (Hc s). unfold orderlyAt in Hc.
  destruct (c s) as [[a|code|why|] s1]; try exact Hc.
  specialize (Hk a s1).
  destruct (k a s1) as [[b|code|why|] s2]; eauto using advances_trans.
  - destruct Hk as (m & Hm & Hf). exists m. eauto using advances_trans.
  - destruct Hk as (m & Hm & Hf). exists m. eauto using advances_trans.
Qed.

Lemma settles_outputNotFound (u : url.URL) : settles (outputNotFound E u).
Proof.
  intros s. cbn. exists s. split; [apply advances_refl|].
  exists (notFound E u). split; [now left | reflexivity].
Qed.

Lemma settles_handleError (e : error) : settles (handleError (Some e)).
Proof.
  intros s. cbn. exists s. split; [apply advances_refl|].
  split; [reflexivity|]. now exists e.
Qed.

Lemma settles_outputURIDone (u : url.URL) (size : Z) (t : time.Time)
      (filename : string) :
  settles (outputURIDone E u size t filename).
Proof.
  intros s. mrun.
  destruct (LoadLocation E "GMT") as [e|]; mrun.
  - exists s. split; [apply advances_refl|]. split; [reflexivity|]. now exists e.
  - destruct (readFile filename (files s)) as [data|]; mrun.
    + exists s. split; [apply advances_refl|].
      eexists. split; [|reflexivity]. now right.
    + exists s. split; [apply advances_refl|]. split; [reflexivity|].
      eexists. reflexivity.
Qed.

Lemma settles_store (msg : message.Message) (objLoc : objectLocation)
      (client : aws.S3API) (t : time.Time) :
  settles (uriAcquire_store E msg objLoc client t).
Proof.
  unfold uriAcquire_store.
  destruct (message.GetFieldValue msg fieldNameFilename) as [filename hasField].
  apply settles_bind; [apply orderly_require | intros _].
  apply settles_bind; [apply orderly_os_Create | intros _].
  apply settles_bind; [apply orderly_downloader_Download | intros numBytes].
  apply settles_outputURIDone.
Qed.

Lemma settles_fetch (msg : message.Message) (objLoc : objectLocation)
      (client : aws.S3API) :
  settles (uriAcquire_fetch E msg objLoc client).
Proof.
  unfold uriAcquire_fetch.
  apply settles_bind; [apply orderly_record | intros _].
  destruct (HeadObject E client (bucket objLoc) (key objLoc)) as [out|err].
  - apply settles_bind; [apply orderly_deref | intros expectedLen].
    apply settles_bind; [apply orderly_deref | intros t].
    apply settles_bind; [apply orderly_outputURIStart | intros _].
    apply settles_store.
  - destruct err as [text|code text]; [apply settles_handleError|].
    destruct (code =? http_StatusNotFound);
      [apply settles_outputNotFound | apply settles_handleError].
Qed.

(** A computation that settles only adds to the output. *)
Lemma settles_emits {A} (c : M A) (s : State) :
  settles c -> exists out, emitted s (snd (c s)) out.
Proof.
  intros Hc. specialize (Hc s). unfold advances, concludes, fails in Hc.
  destruct (c s) as [[a|code|why|] s']; cbn [snd].
  - destruct Hc as (m & (_ & _ & _ & _ & _ & out & Ho & _) & msg & _ & ->).
    exists (out ++ [msg])%list. unfold emitted in *. cbn. now rewrite Ho, app_assoc.
  - destruct Hc as (m & (_ & _ & _ & _ & _ & out & Ho & _) & _ & err & ->).
    exists (out ++ [generalFailure err])%list. unfold emitted in *. cbn.
    now rewrite Ho, app_assoc.
  - destruct Hc as (_ & _ & _ & _ & _ & out & Ho & _). now exists out.
  - contradiction.
Qed.

(** Every course of a fetch handler: it waits while the latch is unset;
    once it is set the handler goes on to exactly one of a concluding
    message with the decrement of the counter, a fatal error, or a
    panic. *)
Lemma uriAcquire_settled (msg : message.Message) (s : State) :
  settled s (fst (uriAcquire E msg s)) (snd (uriAcquire E msg s)).
Proof.
  unfold uriAcquire, bind.
  destruct (configured (self s)) eqn:Hc.
  - pose proof (connect_orderly E msg s Hc) as Ho. unfold orderlyAt in Ho.
    destruct (uriAcquire_connect E msg s) as [[[objLoc client]|code|why|] s1];
      cbn [fst snd settled]; try (split; [assumption | exact Ho]); try contradiction.
    pose proof (settles_fetch msg objLoc client s1) as Hf.
    destruct (uriAcquire_fetch E msg objLoc client s1) as [[u|code|why|] s2];
      cbn [fst snd settled]; split; try assumption; try contradiction.
    + destruct Hf as (m & Hm & Hcon). exists m. eauto using advances_trans.
    + destruct Hf as (m & Hm & Hcon). exists m. eauto using advances_trans.
    + eauto using advances_trans.
  - rewrite (connect_waits E msg s Hc). cbn. now split.
Qed.

End Fetch.

(** ** The outcomes of a fetch request *)
Section Outcomes.

Variable E : Env.

Lemma uriAcquire_connected (msg : message.Message) (s s1 : State)
      (objLoc : objectLocation) (client : aws.S3API) :
  uriAcquire_connect E msg s = (Ret (objLoc, client), s1) ->
  uriAcquire E msg s = uriAcquire_fetch E msg objLoc client s1
  /\ emitted s s1 [requestStatus E (uri objLoc) fieldValueConnecting]
  /\ wg (self s1) = wg (self s).
Proof.
  intros Hc. split.
  - unfold uriAcquire, bind. now rewrite Hc.
  - apply connect_returns in Hc as (_ & -> & _). now split.
Qed.

Lemma emitted_step (s s1 s2 : State) (out more : list message.Message) :
  emitted s s1 out -> emitted s1 s2 more -> emitted s s2 (out ++ more).
Proof. unfold emitted. intros H1 H2. now rewrite H2, H1, app_assoc. Qed.

(** C1. A fetch request whose metadata query is answered with the
    store's not-found signal (a request failure of status 404) prints,
    after its Status message, exactly one message, the 400 URI Failure
    with the locator and the text "The specified key does not exist.",
    takes one off the counter and returns: no URI Start, no URI Done,
    no exit.  Any other error of the metadata query prints a General
    Failure and ends the process with status 1. *)
Theorem uriAcquire_not_found (msg : message.Message) (s s1 : State)
        (objLoc : objectLocation) (client : aws.S3API) (err : error) :
  uriAcquire_connect E msg s = (Ret (objLoc, client), s1) ->
  HeadObject E client (bucket objLoc) (key objLoc) = Err err ->
  let status := requestStatus E (uri objLoc) fieldValueConnecting in
  let failure := notFound E (uri objLoc) in
  ((exists text, err = RequestFailure 404 text) ->
     exists s', uriAcquire E msg s = (Ret tt, s')
                /\ emitted s s' [status; failure]
                /\ map codeOf [status; failure] = [102; 400]
                /\ wg (self s') = wg (self s) - 1)
  /\ failure
     = {| message.Hdr := {| message.Status := 400;
                            message.Description := "URI Failure" |};
          message.Fields :=
            [ {| message.Name := "URI";
                 message.Value := url_String E (uri objLoc) |};
              {| message.Name := "Message";
                 message.Value := "The specified key does not exist." |} ] |}
  /\ ((forall text, err <> RequestFailure 404 text) ->
        exists s', uriAcquire E msg s = (Exit 1, s')
                   /\ emitted s s' [status; generalFailure err]).
Proof.
  intros Hc Hhead status failure.
  destruct (uriAcquire_connected _ _ _ _ _ Hc) as (-> & Hout & Hwg).
  unfold uriAcquire_fetch. mrun. rewrite Hhead.
  split; [|split; [reflexivity|]].
  - intros [text ->]. cbn [Z.eqb Pos.eqb http_StatusNotFound]. mrun.
    eexists. split; [reflexivity|]. split; [|split; [reflexivity|]].
    + apply (emitted_step _ _ _ _ _ Hout). reflexivity.
    + cbn. lia.
  - intros Hother. destruct err as [text|code text]; mrun.
    + eexists. split; [reflexivity|].
      apply (emitted_step _ _ _ _ _ Hout). reflexivity.
    + destruct (code =? http_StatusNotFound) eqn:Hcode.
      * apply Z.eqb_eq in Hcode. subst code. now destruct (Hother text).
      * mrun. eexists. split; [reflexivity|].
        apply (emitted_step _ _ _ _ _ Hout). reflexivity.
Qed.

(** C5, as the code has it.  Once the metadata query has answered with
    a size and a last-modified time (and the GMT zone loads), the URI
    Start message with the locator, the size and the time in RFC 1123
    form in GMT is printed whether or not the request has a Filename
    field; the Filename field is looked up only then, and its absence
    is a fatal error that follows the URI Start message. *)
Theorem uriAcquire_start_then_filename (msg : message.Message) (s s1 : State)
        (objLoc : objectLocation) (client : aws.S3API) (size : Z) (t : time.Time) :
  uriAcquire_connect E msg s = (Ret (objLoc, client), s1) ->
  HeadObject E client (bucket objLoc) (key objLoc)
  = Ok {| aws.ContentLength := Some size; aws.LastModified := Some t |} ->
  LoadLocation E "GMT" = None ->
  let status := requestStatus E (uri objLoc) fieldValueConnecting in
  let start :=
    {| message.Hdr := {| message.Status := 200;
                         message.Description := "URI Start" |};
       message.Fields :=
         [ {| message.Name := "URI"; message.Value := url_String E (uri objLoc) |};
           {| message.Name := "Size"; message.Value := strconv.FormatInt size |};
           {| message.Name := "Last-Modified";
              message.Value := time.FormatRFC1123GMT t |} ] |} in
  (exists rest, emitted s (snd (uriAcquire E msg s)) ([status; start] ++ rest))
  /\ (snd (message.GetFieldValue msg fieldNameFilename) = false ->
        exists s', uriAcquire E msg s = (Exit 1, s')
                   /\ emitted s s'
                        [status; start;
                         generalFailure errAcqMsgMissingRequiredFieldFilename]).
Proof.
  intros Hc Hhead Hgmt status start.
  destruct (uriAcquire_connected _ _ _ _ _ Hc) as (Hrun & Hout & Hwg).
  pose (s2 := emit (logged s1 (CallHeadObject (bucket objLoc) (key objLoc))) start).
  assert (Hfetch : uriAcquire E msg s = uriAcquire_store E msg objLoc client t s2).
  { rewrite Hrun. unfold uriAcquire_fetch. mrun. rewrite Hhead. mrun.
    rewrite Hgmt. reflexivity. }
  assert (Hstart : emitted s s2 [status; start])
    by (apply (emitted_step _ _ _ _ _ Hout); reflexivity).
  rewrite Hfetch. split.
  - destruct (settles_emits (uriAcquire_store E msg objLoc client t) s2
                (settles_store E msg objLoc client t)) as [rest Hrest].
    exists rest. now apply (emitted_step _ _ _ _ _ Hstart).
  - unfold uriAcquire_store.
    destruct (message.GetFieldValue msg fieldNameFilename) as [filename hasField].
    cbn [snd]. intros ->. mrun.
    eexists. split; [reflexivity|].
    apply (emitted_step _ _ _ _ _ Hstart). reflexivity.
Qed.

(** C6. A request whose object is downloaded prints a URI Done message
    with the locator, the file name, the number of bytes written, the
    last-modified time, and the hexadecimal MD5, SHA-1, SHA-256 and
    SHA-512 digests of the bytes read back from the file just written
    (which are the downloaded bytes); the MD5 digest is given twice,
    under MD5-Hash and under MD5Sum-Hash, with the same value. *)
Theorem uriAcquire_done (msg : message.Message) (s s1 : State)
        (objLoc : objectLocation) (client : aws.S3API) (size : Z) (t : time.Time)
        (filename data : string) :
  uriAcquire_connect E msg s = (Ret (objLoc, client), s1) ->
  HeadObject E client (bucket objLoc) (key objLoc)
  = Ok {| aws.ContentLength := Some size; aws.LastModified := Some t |} ->
  LoadLocation E "GMT" = None ->
  message.GetFieldValue msg fieldNameFilename = (filename, true) ->
  Create E filename = None ->
  Download E client (bucket objLoc) (key objLoc) = Ok data ->
  exists s' fileBytes,
    uriAcquire E msg s = (Ret tt, s')
    /\ readFile filename (files s') = Some fileBytes
    /\ fileBytes = data
    /\ emitted s s'
         [ requestStatus E (uri objLoc) fieldValueConnecting;
           {| message.Hdr := {| message.Status := 200;
                                message.Description := "URI Start" |};
              message.Fields :=
                [ {| message.Name := "URI";
                     message.Value := url_String E (uri objLoc) |};
                  {| message.Name := "Size";
                     message.Value := strconv.FormatInt size |};
                  {| message.Name := "Last-Modified";
                     message.Value := time.FormatRFC1123GMT t |} ] |};
           {| message.Hdr := {| message.Status := 201;
                                message.Description := "URI Done" |};
              message.Fields :=
                [ {| message.Name := "URI";
                     message.Value := url_String E (uri objLoc) |};
                  {| message.Name := "Filename"; message.Value := filename |};
                  {| message.Name := "Size";
                     message.Value := strconv.FormatInt (strings.len data) |};
                  {| message.Name := "Last-Modified";
                     message.Value := time.FormatRFC1123GMT t |};
                  {| message.Name := "MD5-Hash";
                     message.Value := hex.EncodeToString (md5_Sum E fileBytes) |};
                  {| message.Name := "MD5Sum-Hash";
                     message.Value := hex.EncodeToString (md5_Sum E fileBytes) |};
                  {| message.Name := "SHA1-Hash";
                     message.Value := hex.EncodeToString (sha1_Sum E fileBytes) |};
                  {| message.Name := "SHA256-Hash";
                     message.Value := hex.EncodeToString (sha256_Sum E fileBytes) |};
                  {| message.Name := "SHA512-Hash";
                     message.Value := hex.EncodeToString (sha512_Sum E fileBytes) |}
                ] |} ]
    /\ wg (self s') = wg (self s) - 1.
Proof.
  intros Hc Hhead Hgmt Hname Hcreate Hdown.
  destruct (uriAcquire_connected _ _ _ _ _ Hc) as (-> & Hout & Hwg).
  unfold uriAcquire_fetch, uriAcquire_store. mrun. rewrite Hhead. mrun.
  rewrite Hgmt, Hname. mrun. rewrite Hcreate. mrun. rewrite Hdown. mrun.
  cbn [readFile]. rewrite String.eqb_refl. mrun.
  eexists. exists data. split; [reflexivity|].
  split; [cbn; now rewrite String.eqb_refl|]. split; [reflexivity|]. split.
  - apply (emitted_step _ _ _ _ _ Hout). unfold emitted. cbn [self stdout].
    rewrite <- app_assoc. reflexivity.
  - cbn. lia.
Qed.

End Outcomes.

(** ** The configuration handler *)
Section Configuration.

(** The loop over the Config-Item fields touches the three
    configuration values only, and ends by returning or by the panic of
    an item without a value. *)
Lemma configureItems_course (items : list message.Field) (s : State) :
  let r := fst (configureItems items s) in
  let s' := snd (configureItems items s) in
  ((exists u, r = Ret u) \/ (exists why, r = Panic why))
  /\ configured (self s') = configured (self s)
  /\ wg (self s') = wg (self s)
  /\ stdout (self s') = stdout (self s)
  /\ files s' = files s
  /\ calls s' = calls s.
Proof.
  revert s. induction items as [|f rest IH]; intros s.
  - cbn. repeat split. left. now exists tt.
  - cbn [configureItems]. cbv zeta.
    set (config := strings.Split (message.Value f) "=").
    unfold index.
    destruct (nth_error config 0) as [c0|]; mrun;
      [|repeat split; right; eauto].
    destruct (c0 =? configItemAcquireS3Region)%string;
      [|destruct (c0 =? configItemAcquireS3Role)%string;
        [|destruct (c0 =? configItemAcquireS3Endpoint)%string]];
      try (destruct (nth_error config 1) as [v|]; mrun;
           [|repeat split; right; eauto]);
      unfold setRegion, setRoleARN, setEndpoint; mrun;
      match goal with
      | |- context [configureItems rest ?t] =>
          specialize (IH t); destruct (configureItems rest t) as [[u|code|why|] s2];
          cbn [fst snd] in IH |- *; cbn [self configured wg stdout files calls] in IH;
          exact IH
      end.
Qed.

(** Every course of the configuration handler: it returns with the
    latch set and one unit off the counter, or panics on an item without
    a value and leaves latch and counter as they were. *)
Lemma configure_course (msg : message.Message) (s : State) :
  let r := fst (configure msg s) in
  let s' := snd (configure msg s) in
  stdout (self s') = stdout (self s) /\ files s' = files s /\ calls s' = calls s
  /\ ((exists u, r = Ret u) /\ configured (self s') = true
      /\ wg (self s') = wg (self s) - 1
      \/ (exists why, r = Panic why) /\ configured (self s') = configured (self s)
         /\ wg (self s') = wg (self s)).
Proof.
  unfold configure.
  pose proof (configureItems_course
                (message.GetFieldList msg fieldNameConfigItem) s) as H.
  cbv zeta in H. unfold bind.
  destruct (configureItems _ s) as [[u|code|why|] s1]; cbn [fst snd] in H |- *;
    destruct H as ([[u' Hr]|[w Hr]] & Hc & Hw & Ho & Hf & Hl);
    try discriminate Hr; unfold setConfigured; mrun.
  - repeat split; try assumption. left. repeat split; [now exists tt | lia].
  - repeat split; try assumption. right. repeat split; eauto.
Qed.

(** C8. A configuration message whose only Config-Item is
    [Acquire::s3::region=eu-west-1] sets the region to [eu-west-1]; the
    role identifier and the endpoint override keep their values.  As
    for every configuration message, the handler then sets the latch
    and takes one off the counter; it prints nothing, calls nothing and
    writes no file. *)
Theorem configure_region_only (msg : message.Message) (f : message.Field)
        (s : State) :
  message.GetFieldList msg fieldNameConfigItem = [f] ->
  message.Value f = "Acquire::s3::region=eu-west-1" ->
  exists s', configure msg s = (Ret tt, s')
             /\ region (self s') = "eu-west-1"
             /\ roleARN (self s') = roleARN (self s)
             /\ endpoint (self s') = endpoint (self s)
             /\ configured (self s') = true
             /\ wg (self s') = wg (self s) - 1
             /\ stdout (self s') = stdout (self s)
             /\ files s' = files s
             /\ calls s' = calls s.
Proof.
  intros Hitems Hvalue. unfold configure. rewrite Hitems.
  cbn [configureItems]. rewrite Hvalue.
  eexists. split; [vm_compute; reflexivity|].
  cbn. repeat split.
Qed.

End Configuration.

(** ** The effects of one handler *)

Ltac split6 := split; [|split; [|split; [|split; [|split]]]].

Section Handlers.

Variable E : Env.

Lemma quiet_progress (out : list message.Message) :
  Forall (fun m => codeOf m = headerCodeStatus \/ codeOf m = headerCodeURIStart) out ->
  quiet out.
Proof.
  apply Forall_impl. intros m [H|H]; rewrite H; discriminate.
Qed.

(** What the dispatch does with the bytes of a message. *)
Lemma handleBytes_dispatch (b : string) (s : State) :
  match FromBytes E b with
  | Err e => handleBytes E b s = (Exit 1, emit s (generalFailure e))
  | Ok msg =>
      if codeOf msg =? headerCodeURIAcquire
      then handleBytes E b s = uriAcquire E msg s
      else if codeOf msg =? headerCodeConfiguration
           then handleBytes E b s = configure msg s
           else handleBytes E b s = (Ret tt, s)
  end.
Proof.
  unfold handleBytes, codeOf. destruct (FromBytes E b) as [msg|e]; mrun.
  - destruct (message.Status (message.Hdr msg) =? headerCodeURIAcquire);
      [reflexivity|].
    destruct (message.Status (message.Hdr msg) =? headerCodeConfiguration);
      reflexivity.
  - reflexivity.
Qed.

(** The facts the process needs on one run of a handler: its output,
    its effect on the counter, on the latch and on the log of calls, and
    when it waits. *)
Lemma handleBytes_effect (h : Handler) (s : State) :
  let r := fst (handleBytes E (bytes h) s) in
  let s' := snd (handleBytes E (bytes h) s) in
  (exists out, emitted s s' out
               /\ match r with
                  | Exit code => code = 1 /\ exists pre err,
                                   out = (pre ++ [generalFailure err])%list /\ quiet pre
                  | _ => quiet out
                  end)
  /\ wg (self s') = wg (self s)
                    - match r with
                      | Ret _ => if ignored E h then 0 else 1
                      | _ => 0
                      end
  /\ (configured (self s) = true -> configured (self s') = true)
  /\ (configured (self s) = false -> configured (self s') = true ->
      (exists u, r = Ret u) /\ configures E h = true)
  /\ (calls s' <> calls s -> configured (self s) = true)
  /\ (r = Blocked <->
      exists msg, FromBytes E (bytes h) = Ok msg
                  /\ codeOf msg = headerCodeURIAcquire
                  /\ configured (self s) = false).
Proof.
  pose proof (handleBytes_dispatch (bytes h) s) as Hd.
  unfold ignored, configures, dispatched.
  destruct (FromBytes E (bytes h)) as [msg|e].
  - destruct (codeOf msg =? headerCodeURIAcquire) eqn:Hacq.
    + rewrite Hd. clear Hd. apply Z.eqb_eq in Hacq.
      pose proof (uriAcquire_settled E msg s) as Hs.
      destruct (uriAcquire E msg s) as [[u|code|why|] s'];
        cbn [fst snd settled orb negb] in *.
      * destruct Hs as (Hc & m & (Hr & Ha & He & Hl & Hw & out & Ho & Hf)
                        & fin & Hfin & ->).
        unfold emitted in *. split6.
        -- exists (out ++ [fin])%list. split; [cbn; now rewrite Ho, app_assoc|].
           apply Forall_app. split; [now apply quiet_progress|].
           constructor; [|constructor]. destruct Hfin as [H|H]; rewrite H; discriminate.
        -- cbn. lia.
        -- intros _. cbn. congruence.
        -- congruence.
        -- auto.
        -- split; [discriminate|]. intros (msg' & Hm & _ & Hfalse). congruence.
      * destruct Hs as (Hc & m & (Hr & Ha & He & Hl & Hw & out & Ho & Hf)
                        & -> & err & ->).
        unfold emitted in *. split6.
        -- exists (out ++ [generalFailure err])%list.
           split; [cbn; now rewrite Ho, app_assoc|]. split; [reflexivity|].
           exists out, err. split; [reflexivity | now apply quiet_progress].
        -- cbn. lia.
        -- intros _. cbn. congruence.
        -- congruence.
        -- auto.
        -- split; [discriminate|]. intros (msg' & Hm & _ & Hfalse). congruence.
      * destruct Hs as (Hc & (Hr & Ha & He & Hl & Hw & out & Ho & Hf)). split6.
        -- exists out. split; [assumption | now apply quiet_progress].
        -- lia.
        -- congruence.
        -- congruence.
        -- auto.
        -- split; [discriminate|]. intros (msg' & Hm & _ & Hfalse). congruence.
      * destruct Hs as (Hc & ->). split6.
        -- exists []. split; [unfold emitted; now rewrite app_nil_r | constructor].
        -- lia.
        -- auto.
        -- congruence.
        -- congruence.
        -- split; [|reflexivity]. intros _. now exists msg.
    + destruct (codeOf msg =? headerCodeConfiguration) eqn:Hcfg.
      * rewrite Hd. clear Hd. pose proof (configure_course msg s) as Hs.
        cbv zeta in Hs.
        destruct (configure msg s) as [r s']; cbn [fst snd orb negb] in *.
        destruct Hs as (Ho & Hf & Hl & [([u ->] & Hc & Hw)|([why ->] & Hc & Hw)]);
          split6; try congruence; try lia; auto;
          try (exists []; split; [unfold emitted; now rewrite app_nil_r, Ho | constructor]);
          try (split; [discriminate|]; intros (msg' & Hm & Hcode & _);
               apply Z.eqb_neq in Hacq; congruence).
        intros _ _. split; [now exists u | reflexivity].
      * rewrite Hd. clear Hd. cbn [fst snd orb negb].
        split6; try congruence; try lia; auto;
          try (exists []; split; [unfold emitted; now rewrite app_nil_r | constructor]).
        split; [discriminate|]. intros (msg' & Hm & Hcode & _).
        apply Z.eqb_neq in Hacq. congruence.
  - rewrite Hd. clear Hd. cbn [fst snd]. split6; try congruence; auto.
    + exists [generalFailure e]. split; [reflexivity|]. split; [reflexivity|].
      exists [], e. split; [reflexivity | constructor].
    + cbn. lia.
    + cbn. congruence.
    + split; [discriminate|]. intros (msg' & Hm & _). discriminate.
Qed.

End Handlers.

(** ** The moves of the process *)
Section Moves.

Variable E : Env.

Lemma stopped_stays (a : action) (p : Process) :
  status p <> Running -> step E a p = None.
Proof. unfold step. destruct (status p); congruence. Qed.

Lemma step_running (a : action) (p p' : Process) :
  step E a p = Some p' -> status p = Running.
Proof. unfold step. destruct (status p); congruence. Qed.

(** An invariant of the moves holds along every schedule. *)
Lemma exec_invariant (Inv : Process -> Prop) :
  (forall a p p', Inv p -> step E a p = Some p' -> Inv p') ->
  forall schedule p p', Inv p -> exec E schedule p = Some p' -> Inv p'.
Proof.
  intros Hstep schedule.
  induction schedule as [|a rest IH]; intros p p' Hp Hrun; cbn in Hrun.
  - inversion Hrun; subst; assumption.
  - destruct (step E a p) as [q|] eqn:Hq; [|discriminate].
    apply (IH q p'); [exact (Hstep a p q Hp Hq) | exact Hrun].
Qed.

Lemma exec_app (first second : list action) (p : Process) :
  exec E (first ++ second) p
  = match exec E first p with
    | Some q => exec E second q
    | None => None
    end.
Proof.
  revert p; induction first as [|a rest IH]; intros p; cbn; [reflexivity|].
  destruct (step E a p); [apply IH | reflexivity].
Qed.

Lemma reachable_exec (input : list string) (schedule : list action)
      (p p' : Process) :
  reachable E input p -> exec E schedule p = Some p' -> reachable E input p'.
Proof.
  intros [first Hp] Hrun. exists (first ++ schedule)%list.
  now rewrite exec_app, Hp.
Qed.

(** The reader touches the counter and the list of handlers only: it
    appends a handler that has not run, or adds one to the counter, or
    takes its own unit off the counter. *)
Lemma readerStep_effect (p p' : Process) :
  readerStep p = Some p' ->
  status p' = status p
  /\ stdout (self (state p')) = stdout (self (state p))
  /\ configured (self (state p')) = configured (self (state p))
  /\ calls (state p') = calls (state p)
  /\ exists new, handlers p' = (handlers p ++ new)%list
                 /\ Forall (fun h => returned h = false) new
                 /\ wg (self (state p')) - readerShare (reader p')
                    - Z.of_nat (List.length new)
                    = wg (self (state p)) - readerShare (reader p).
Proof.
  unfold readerStep. destruct (reader p) as [[|l rest] buffer|rest|] eqn:Hr.
  - intros H; inversion H; subst p'; clear H. cbn.
    repeat split. exists []. rewrite app_nil_r.
    split; [reflexivity|]. split; [apply Forall_nil | cbn; lia].
  - destruct ((strings.len _ =? 0) && _); intros H; inversion H; subst p'; clear H; cbn.
    + repeat split. eexists. split; [reflexivity|].
      split; [repeat constructor | cbn [List.length readerShare]; lia].
    + repeat split. exists []. rewrite app_nil_r.
    split; [reflexivity|]. split; [apply Forall_nil | cbn; lia].
  - intros H; inversion H; subst p'; clear H. cbn.
    repeat split. exists []. rewrite app_nil_r.
    split; [reflexivity|]. split; [apply Forall_nil | cbn; lia].
  - discriminate.
Qed.

Lemma handlerStep_effect (i : nat) (p p' : Process) :
  handlerStep E i p = Some p' ->
  exists h, nth_error (handlers p) i = Some h
            /\ returned h = false
            /\ reader p' = reader p
            /\ state p' = snd (handleBytes E (bytes h) (state p))
            /\ match fst (handleBytes E (bytes h) (state p)) with
               | Ret _ => handlers p' = markReturned i (handlers p)
                          /\ status p' = status p
               | Exit code => handlers p' = handlers p /\ status p' = Exited code
               | Panic why => handlers p' = handlers p /\ status p' = Crashed why
               | Blocked => False
               end.
Proof.
  unfold handlerStep. destruct (nth_error (handlers p) i) as [h|]; [|discriminate].
  destruct (returned h) eqn:Hret; [discriminate|].
  destruct (handleBytes E (bytes h) (state p)) as [[u|code|why|] s'] eqn:Hrun;
    intros H; inversion H; subst p'; clear H; exists h; rewrite Hrun; cbn;
    repeat split; auto.
Qed.

Lemma mainStep_effect (p p' : Process) :
  mainStep p = Some p' ->
  wg (self (state p)) = 0 /\ state p' = state p /\ reader p' = reader p
  /\ handlers p' = handlers p /\ status p' = Exited 0.
Proof.
  unfold mainStep. destruct (wg (self (state p)) =? 0) eqn:Hw; [|discriminate].
  apply Z.eqb_eq in Hw. intros H; inversion H; subst p'. cbn. auto.
Qed.

Lemma step_cases (a : action) (p p' : Process) :
  step E a p = Some p' ->
  status p = Running
  /\ (readerStep p = Some p'
      \/ (exists i, handlerStep E i p = Some p')
      \/ mainStep p = Some p').
Proof.
  intros H. split; [eapply step_running; eauto|].
  unfold step in H. destruct (status p); try discriminate.
  destruct a; eauto.
Qed.

(** *** The shares of the handlers *)

Lemma handlerShares_app (hs new : list Handler) :
  handlerShares E (hs ++ new) = handlerShares E hs + handlerShares E new.
Proof. induction hs as [|h hs IH]; cbn; [reflexivity | rewrite IH; lia]. Qed.

Lemma handlerShares_new (new : list Handler) :
  Forall (fun h => returned h = false) new ->
  handlerShares E new = Z.of_nat (List.length new).
Proof.
  induction 1 as [|h new Hh _ IH]; [reflexivity|].
  cbn [handlerShares List.length]. unfold handlerShare. rewrite Hh, IH. lia.
Qed.

Lemma handlerShare_bounds (h : Handler) : 0 <= handlerShare E h <= 1.
Proof. unfold handlerShare. destruct (returned h), (ignored E h); lia. Qed.

Lemma handlerShares_nonneg (hs : list Handler) : 0 <= handlerShares E hs.
Proof.
  induction hs as [|h hs IH]; cbn; [lia|].
  pose proof (handlerShare_bounds h). lia.
Qed.

Lemma handlerShares_ignored (hs : list Handler) (h : Handler) :
  In h hs -> ignored E h = true -> 1 <= handlerShares E hs.
Proof.
  induction hs as [|h' hs IH]; intros Hin Hig; [contradiction|].
  cbn [handlerShares]. destruct Hin as [->|Hin].
  - pose proof (handlerShares_nonneg hs). unfold handlerShare. rewrite Hig.
    destruct (returned h); lia.
  - pose proof (handlerShare_bounds h'). specialize (IH Hin Hig). lia.
Qed.

Lemma handlerShares_markReturned (hs : list Handler) (i : nat) (h : Handler) :
  nth_error hs i = Some h ->
  returned h = false ->
  handlerShares E (markReturned i hs)
  = handlerShares E hs - (if ignored E h then 0 else 1).
Proof.
  revert i; induction hs as [|h' hs IH]; intros [|i] Hnth Hret; cbn in Hnth;
    try discriminate.
  - inversion Hnth; subst h'. cbn [markReturned handlerShares].
    unfold handlerShare, ignored. cbn [returned bytes]. rewrite Hret.
    destruct (FromBytes E (bytes h)) as [msg|e]; [|lia].
    destruct (negb (dispatched (codeOf msg))); lia.
  - cbn [markReturned handlerShares]. rewrite (IH i Hnth Hret). lia.
Qed.

Lemma markReturned_keeps (hs : list Handler) (i : nat) (h : Handler) :
  In h hs ->
  exists h', In h' (markReturned i hs) /\ bytes h' = bytes h
             /\ (returned h = true -> returned h' = true).
Proof.
  revert i; induction hs as [|h0 hs IH]; intros i Hin; [contradiction|].
  destruct Hin as [->|Hin].
  - destruct i; cbn [markReturned].
    + eexists. split; [left; reflexivity|]. cbn. auto.
    + exists h. split; [now left | auto].
  - destruct i; cbn [markReturned].
    + exists h. split; [now right | auto].
    + destruct (IH i Hin) as (h' & Hin' & Hb & Hr).
      exists h'. split; [now right | auto].
Qed.

Lemma markReturned_marks (hs : list Handler) (i : nat) (h : Handler) :
  nth_error hs i = Some h ->
  In {| bytes := bytes h; returned := true |} (markReturned i hs).
Proof.
  revert i; induction hs as [|h0 hs IH]; intros [|i] Hnth; cbn in Hnth;
    try discriminate; cbn [markReturned].
  - inversion Hnth; subst. now left.
  - right. now apply IH.
Qed.

End Moves.

(** ** Invariants of the process *)
Section Invariants.

Variable E : Env.

(** *** The counter is the sum of the shares *)

Lemma accounted_step (a : action) (p p' : Process) :
  accounted E p -> step E a p = Some p' -> accounted E p'.
Proof.
  unfold accounted. intros Hp Hstep.
  apply step_cases in Hstep as (Hrun & [Hr|[[i Hh]|Hm]]).
  - apply readerStep_effect in Hr as (_ & _ & _ & _ & new & Hnew & Hfresh & Hw).
    rewrite Hnew, handlerShares_app, (handlerShares_new E new Hfresh). lia.
  - apply handlerStep_effect in Hh as (h & Hnth & Hret & Hrd & Hst & Hout).
    destruct (handleBytes_effect E h (state p)) as (_ & Hw & _).
    cbv zeta in Hw. rewrite Hrd, Hst, Hw.
    destruct (fst (handleBytes E (bytes h) (state p))) as [u|code|why|].
    + destruct Hout as [-> _].
      rewrite (handlerShares_markReturned E _ _ _ Hnth Hret).
      destruct (ignored E h); lia.
    + destruct Hout as [-> _]. lia.
    + destruct Hout as [-> _]. lia.
    + contradiction.
  - apply mainStep_effect in Hm as (_ & -> & -> & -> & _). exact Hp.
Qed.

Lemma accounted_reachable (input : list string) (p : Process) :
  reachable E input p -> accounted E p.
Proof.
  intros [schedule Hrun].
  apply (exec_invariant E (accounted E) accounted_step schedule (Run input));
    [reflexivity | assumption].
Qed.

(** The counter never goes below zero: the panic of a negative
    [sync.WaitGroup] counter cannot occur. *)
Lemma wg_nonneg (input : list string) (p : Process) :
  reachable E input p -> 0 <= wg (self (state p)).
Proof.
  intros Hp. pose proof (accounted_reachable input p Hp) as Ha.
  unfold accounted in Ha.
  pose proof (handlerShares_nonneg E (handlers p)).
  destruct (reader p); cbn [readerShare] in Ha; lia.
Qed.

(** *** A graceful end needs a counter at zero *)

Lemma graceful_step (a : action) (p p' : Process) :
  (status p = Exited 0 -> wg (self (state p)) = 0) ->
  step E a p = Some p' ->
  status p' = Exited 0 -> wg (self (state p')) = 0.
Proof.
  intros _ Hstep Hend.
  apply step_cases in Hstep as (Hrun & [Hr|[[i Hh]|Hm]]).
  - apply readerStep_effect in Hr as (Hs & _). congruence.
  - apply handlerStep_effect in Hh as (h & Hnth & Hret & Hrd & Hst & Hout).
    destruct (handleBytes_effect E h (state p)) as ((out & _ & Hq) & _).
    cbv zeta in Hq.
    destruct (fst (handleBytes E (bytes h) (state p))) as [u|code|why|].
    + destruct Hout as [_ Hs]. congruence.
    + destruct Hout as [_ Hs]. destruct Hq as (-> & _). congruence.
    + destruct Hout as [_ Hs]. congruence.
    + contradiction.
  - apply mainStep_effect in Hm as (Hw & -> & _). exact Hw.
Qed.

Lemma graceful_reachable (input : list string) (p : Process) :
  reachable E input p -> status p = Exited 0 -> wg (self (state p)) = 0.
Proof.
  intros [schedule Hrun].
  apply (exec_invariant E (fun p => status p = Exited 0 -> wg (self (state p)) = 0)
           graceful_step schedule (Run input)); [discriminate | assumption].
Qed.

(** *** An ignored message stays *)

Lemma ignored_step (a : action) (p p' : Process) :
  (exists h, In h (handlers p) /\ ignored E h = true) ->
  step E a p = Some p' ->
  exists h, In h (handlers p') /\ ignored E h = true.
Proof.
  intros (h & Hin & Hig) Hstep.
  apply step_cases in Hstep as (Hrun & [Hr|[[i Hh]|Hm]]).
  - apply readerStep_effect in Hr as (_ & _ & _ & _ & new & -> & _).
    exists h. split; [apply in_or_app; now left | assumption].
  - apply handlerStep_effect in Hh as (h0 & Hnth & Hret & Hrd & Hst & Hout).
    destruct (fst (handleBytes E (bytes h0) (state p))) as [u|code|why|];
      try (destruct Hout as [-> _]; now exists h); [|contradiction].
    destruct Hout as [-> _].
    destruct (markReturned_keeps (handlers p) i h Hin) as (h' & Hin' & Hb & _).
    exists h'. split; [assumption|]. unfold ignored in *. now rewrite Hb.
  - apply mainStep_effect in Hm as (_ & _ & _ & -> & _). now exists h.
Qed.

(** *** The latch *)

Lemma gate_step (a : action) (p p' : Process) :
  ((calls (state p) <> [] -> configured (self (state p)) = true)
   /\ (configured (self (state p)) = true ->
       exists h, In h (handlers p) /\ returned h = true /\ configures E h = true)) ->
  step E a p = Some p' ->
  (calls (state p') <> [] -> configured (self (state p')) = true)
  /\ (configured (self (state p')) = true ->
      exists h, In h (handlers p') /\ returned h = true /\ configures E h = true).
Proof.
  intros [Hcalls Hlatch] Hstep.
  apply step_cases in Hstep as (Hrun & [Hr|[[i Hh]|Hm]]).
  - apply readerStep_effect in Hr as (_ & _ & -> & -> & new & -> & _).
    split; [assumption|]. intros Hc. destruct (Hlatch Hc) as (h & Hin & Hh).
    exists h. split; [apply in_or_app; now left | assumption].
  - apply handlerStep_effect in Hh as (h & Hnth & Hret & Hrd & Hst & Hout).
    destruct (handleBytes_effect E h (state p)) as (_ & _ & Hmono & Hset & Hlog & _).
    cbv zeta in Hmono, Hset, Hlog. rewrite Hst.
    set (s' := snd (handleBytes E (bytes h) (state p))) in *.
    assert (Hkeep : configured (self (state p)) = true ->
                    exists h0, In h0 (handlers p') /\ returned h0 = true
                               /\ configures E h0 = true).
    { intros Hc. destruct (Hlatch Hc) as (h0 & Hin & Hr0 & Hc0).
      destruct (fst (handleBytes E (bytes h) (state p))) as [u|code|why|];
        try (destruct Hout as [-> _]; now exists h0); [|contradiction].
      destruct Hout as [-> _].
      destruct (markReturned_keeps (handlers p) i h0 Hin) as (h' & Hin' & Hb & Hr').
      exists h'. repeat split; auto. unfold configures in *. now rewrite Hb. }
    split.
    + intros Hne. apply Hmono.
      destruct (list_eq_dec (fun x y : call => ltac:(repeat decide equality) : {x = y} + {x <> y})
                  (calls s') (calls (state p))) as [Heq|Hdiff].
      * apply Hcalls. congruence.
      * now apply Hlog.
    + intros Hc. destruct (configured (self (state p))) eqn:Hold; [now apply Hkeep|].
      destruct (Hset eq_refl Hc) as ([u Hu] & Hcfg).
      rewrite Hu in Hout. destruct Hout as [-> _].
      exists {| bytes := bytes h; returned := true |}.
      split; [now apply markReturned_marks|]. split; [reflexivity | exact Hcfg].
  - apply mainStep_effect in Hm as (_ & -> & _ & -> & _). now split.
Qed.

Lemma gate_reachable (input : list string) (p : Process) :
  reachable E input p ->
  (calls (state p) <> [] -> configured (self (state p)) = true)
  /\ (configured (self (state p)) = true ->
      exists h, In h (handlers p) /\ returned h = true /\ configures E h = true).
Proof.
  intros [schedule Hrun].
  apply (exec_invariant E _ gate_step schedule (Run input)); [|assumption].
  cbn. split; [congruence | discriminate].
Qed.

End Invariants.

(** ** The fatal path under interleaving *)
Section Staging.

Variable E : Env.

Lemma failures_app (a b : list message.Message) :
  failures (a ++ b) = (failures a ++ failures b)%list.
Proof. apply filter_app. Qed.

Lemma failures_quiet (out : list message.Message) :
  quiet out -> failures out = [].
Proof.
  induction 1 as [|m out Hm _ IH]; [reflexivity|].
  cbn [failures filter]. fold (failures out). rewrite IH.
  destruct (codeOf m =? headerCodeGeneralFailure) eqn:Hc; [|reflexivity].
  apply Z.eqb_eq in Hc. contradiction.
Qed.

Lemma exitCode_absent (i : nat) (q : Staged) :
  exitCode i q = None -> ~ In i (map fst (exiting q)).
Proof.
  unfold exitCode. induction (exiting q) as [|e l IH]; cbn; [tauto|].
  destruct (Nat.eqb (fst e) i) eqn:He; [discriminate|].
  apply Nat.eqb_neq in He. intros Hnone [H|H]; [contradiction|]. now apply IH.
Qed.

Lemma exitCode_listed (i : nat) (code : Z) (q : Staged) :
  exitCode i q = Some code -> In (i, code) (exiting q).
Proof.
  unfold exitCode. destruct (find _ (exiting q)) as [[j c]|] eqn:Hf; [|discriminate].
  apply find_some in Hf as [Hin Heq]. cbn in Heq. apply Nat.eqb_eq in Heq. subst j.
  cbn. intros H; inversion H; subst. exact Hin.
Qed.

Lemma exitCode_present (i : nat) (q : Staged) :
  In i (map fst (exiting q)) -> exists code, exitCode i q = Some code.
Proof.
  unfold exitCode. induction (exiting q) as [|e l IH]; cbn; [tauto|].
  destruct (Nat.eqb (fst e) i) eqn:He; [eexists; reflexivity|].
  apply Nat.eqb_neq in He. intros [H|H]; [contradiction | now apply IH].
Qed.

Lemma markReturned_other (hs : list Handler) (i j : nat) :
  i <> j -> nth_error (markReturned i hs) j = nth_error hs j.
Proof.
  revert i j; induction hs as [|h hs IH]; intros [|i] [|j] Hij; cbn;
    try reflexivity; try congruence.
  apply IH. congruence.
Qed.

Lemma handlerShares_pending (hs : list Handler) (i : nat) (h : Handler) :
  nth_error hs i = Some h -> returned h = false -> 1 <= handlerShares E hs.
Proof.
  revert i; induction hs as [|h' hs IH]; intros [|i] Hnth Hret; cbn in Hnth;
    try discriminate; cbn [handlerShares].
  - inversion Hnth; subst h'. pose proof (handlerShares_nonneg E hs).
    unfold handlerShare. rewrite Hret. lia.
  - pose proof (handlerShare_bounds E h'). specialize (IH i Hnth Hret). lia.
Qed.

Lemma stagedStep_running (m : move) (q q' : Staged) :
  stagedStep E m q = Some q' -> status (process q) = Running.
Proof. unfold stagedStep. destruct (status (process q)); congruence. Qed.

Lemma stagedStep_stopped (m : move) (q : Staged) :
  status (process q) <> Running -> stagedStep E m q = None.
Proof. unfold stagedStep. destruct (status (process q)); congruence. Qed.

(** The run of a handler up to its return, its panic or its
    [os.Exit]. *)
Lemma stagedHandlerStep_effect (i : nat) (q q' : Staged) :
  stagedHandlerStep E i q = Some q' ->
  exists h, nth_error (handlers (process q)) i = Some h
            /\ returned h = false
            /\ exitCode i q = None
            /\ reader (process q') = reader (process q)
            /\ state (process q')
               = snd (handleBytes E (bytes h) (state (process q)))
            /\ match fst (handleBytes E (bytes h) (state (process q))) with
               | Ret _ => handlers (process q') = markReturned i (handlers (process q))
                          /\ status (process q') = status (process q)
                          /\ exiting q' = exiting q
               | Exit code => handlers (process q') = handlers (process q)
                              /\ status (process q') = status (process q)
                              /\ exiting q' = (exiting q ++ [(i, code)])%list
               | Panic why => handlers (process q') = handlers (process q)
                              /\ status (process q') = Crashed why
                              /\ exiting q' = exiting q
               | Blocked => False
               end.
Proof.
  unfold stagedHandlerStep.
  destruct (nth_error (handlers (process q)) i) as [h|]; [|discriminate].
  destruct (exitCode i q) eqn:Hcode; [discriminate|].
  destruct (returned h) eqn:Hret; [discriminate|].
  destruct (handleBytes E (bytes h) (state (process q))) as [[u|code|why|] s'] eqn:Hrun;
    intros H; inversion H; subst q'; clear H; exists h; rewrite Hrun; cbn;
    repeat split; auto.
Qed.

Lemma stagedStep_cases (m : move) (q q' : Staged) :
  stagedStep E m q = Some q' ->
  status (process q) = Running
  /\ ((exists p', readerStep (process q) = Some p'
                  /\ q' = {| process := p'; exiting := exiting q |})
      \/ (exists p', mainStep (process q) = Some p'
                     /\ q' = {| process := p'; exiting := exiting q |})
      \/ (exists i, stagedHandlerStep E i q = Some q')
      \/ (exists i, exitStep i q = Some q')).
Proof.
  intros H. split; [eapply stagedStep_running; eauto|].
  unfold stagedStep in H. destruct (status (process q)); try discriminate.
  destruct m as [[|i|]|i].
  - destruct (readerStep (process q)) as [p'|]; [|discriminate].
    inversion H. left. eauto.
  - right. right. left. eauto.
  - destruct (mainStep (process q)) as [p'|]; [|discriminate].
    inversion H. right. left. eauto.
  - right. right. right. eauto.
Qed.

Lemma pending_kept (hs new : list Handler) (l : list (nat * Z)) :
  Forall (fun e => snd e = 1
                   /\ exists h, nth_error hs (fst e) = Some h /\ returned h = false) l ->
  Forall (fun e => snd e = 1
                   /\ exists h, nth_error (hs ++ new) (fst e) = Some h
                                /\ returned h = false) l.
Proof.
  apply Forall_impl. intros e (Hc & h & Hnth & Hret). split; [exact Hc|].
  exists h. split; [|exact Hret].
  rewrite nth_error_app1; [exact Hnth|]. apply nth_error_Some. congruence.
Qed.

Lemma tallied_step (m : move) (q q' : Staged) :
  tallied E q -> stagedStep E m q = Some q' -> tallied E q'.
Proof.
  unfold tallied. cbv zeta.
  intros (Hacc & (errs & Hfail & Hlen) & Hnodup & Hpend & _) Hstep.
  apply stagedStep_cases in Hstep
    as (Hrun & [(p' & Hr & ->)|[(p' & Hm & ->)|[[i Hh]|[i Hx]]]]).
  - assert (Hcoarse : step E ActReader (process q) = Some p')
      by (unfold step; now rewrite Hrun).
    pose proof (accounted_step E _ _ _ Hacc Hcoarse) as Hacc'.
    apply readerStep_effect in Hr as (Hst & Hout & _ & _ & new & Hnew & _).
    cbn [process exiting]. rewrite Hout, Hnew, Hst, Hrun.
    repeat split; auto. { exists errs. now split. } now apply pending_kept.
  - assert (Hcoarse : step E ActMain (process q) = Some p')
      by (unfold step; now rewrite Hrun).
    pose proof (accounted_step E _ _ _ Hacc Hcoarse) as Hacc'.
    apply mainStep_effect in Hm as (Hw & Hst & Hrd & Hhs & Hstatus).
    cbn [process exiting]. rewrite Hst, Hhs, Hstatus.
    repeat split; auto. { exists errs. now split. }
    left. split; [reflexivity|].
    destruct (exiting q) as [|e l]; [reflexivity|].
    inversion Hpend as [|? ? (_ & h & Hnth & Hret) _]; subst.
    pose proof (handlerShares_pending _ _ _ Hnth Hret).
    unfold accounted in Hacc.
    destruct (reader (process q)); cbn [readerShare] in Hacc; lia.
  - apply stagedHandlerStep_effect in Hh
      as (h & Hnth & Hret & Hcode & Hrd & Hst & Hout).
    destruct (handleBytes_effect E h (state (process q)))
      as ((out & Hem & Hq) & Hw & _).
    cbv zeta in Hem, Hq, Hw. unfold emitted in Hem.
    apply exitCode_absent in Hcode.
    unfold accounted in *. rewrite Hrd, Hst, Hem, Hw, failures_app, Hfail.
    destruct (fst (handleBytes E (bytes h) (state (process q)))) as [u|code|why|].
    + destruct Hout as (Hhs & Hstatus & Hex). rewrite Hhs, Hstatus, Hex, Hrun.
      repeat split; auto.
      * rewrite (handlerShares_markReturned E _ _ _ Hnth Hret). lia.
      * exists errs. rewrite (failures_quiet out Hq), app_nil_r. now split.
      * rewrite Forall_forall in *. intros e He.
        destruct (Hpend e He) as (Hc & h' & Hn' & Hr').
        split; [exact Hc|]. exists h'. split; [|exact Hr'].
        rewrite markReturned_other; [exact Hn'|].
        intros ->. apply Hcode. now apply in_map.
    + destruct Hout as (Hhs & Hstatus & Hex). rewrite Hhs, Hstatus, Hex, Hrun.
      destruct Hq as (-> & pre & err & -> & Hpre).
      repeat split; auto.
      * lia.
      * exists (errs ++ [err])%list.
        rewrite failures_app, (failures_quiet pre Hpre), map_app, !List.length_app.
        cbn [app map List.length failures filter].
        change (codeOf (generalFailure err) =? headerCodeGeneralFailure) with true.
        cbn iota. split; [reflexivity | lia].
      * rewrite map_app. cbn [map fst].
        apply NoDup_app; [exact Hnodup | repeat constructor; intros [] |].
        intros j Hj [<-|[]]. contradiction.
      * apply Forall_app. split; [exact Hpend|].
        constructor; [|constructor]. cbn [fst snd]. split; [reflexivity|]. eauto.
    + destruct Hout as (Hhs & Hstatus & Hex). rewrite Hhs, Hstatus, Hex.
      repeat split; auto.
      * lia.
      * exists errs. rewrite (failures_quiet out Hq), app_nil_r. now split.
    + contradiction.
  - unfold exitStep in Hx. destruct (exitCode i q) as [code|] eqn:Hcode; [|discriminate].
    inversion Hx; subst q'; clear Hx. cbn [process exiting state handlers status reader].
    apply exitCode_listed in Hcode.
    repeat split; auto. { exists errs. now split. }
    right. rewrite Forall_forall in Hpend. destruct (Hpend _ Hcode) as [Hc _].
    cbn in Hc. split; [exact Hc|]. intros Hnil. rewrite Hnil in Hcode. contradiction.
Qed.

Lemma stagedExec_invariant (Inv : Staged -> Prop) :
  (forall m q q', Inv q -> stagedStep E m q = Some q' -> Inv q') ->
  forall moves q q', Inv q -> stagedExec E moves q = Some q' -> Inv q'.
Proof.
  intros Hstep moves.
  induction moves as [|m rest IH]; intros q q' Hq Hrun; cbn in Hrun.
  - inversion Hrun; subst; assumption.
  - destruct (stagedStep E m q) as [r|] eqn:Hr; [|discriminate].
    apply (IH r q'); [exact (Hstep m q r Hq Hr) | exact Hrun].
Qed.

Lemma stagedExec_app (first second : list move) (q : Staged) :
  stagedExec E (first ++ second) q
  = match stagedExec E first q with
    | Some r => stagedExec E second r
    | None => None
    end.
Proof.
  revert q; induction first as [|m rest IH]; intros q; cbn; [reflexivity|].
  destruct (stagedStep E m q); [apply IH | reflexivity].
Qed.

Lemma tallied_reachable (input : list string) (q : Staged) :
  stagedReachable E input q -> tallied E q.
Proof.
  intros [moves Hrun].
  apply (stagedExec_invariant (tallied E) tallied_step moves (stagedRun input));
    [|assumption].
  unfold tallied. cbn. repeat split.
  - exists []. now split.
  - constructor.
  - constructor.
Qed.

(** The handlers that have failed stay listed. *)
Lemma exiting_grows (moves : list move) (q q' : Staged) :
  stagedExec E moves q = Some q' ->
  exists more, exiting q' = (exiting q ++ more)%list.
Proof.
  revert q; induction moves as [|m rest IH]; intros q Hrun; cbn in Hrun.
  - inversion Hrun; subst. exists []. now rewrite app_nil_r.
  - destruct (stagedStep E m q) as [r|] eqn:Hr; [|discriminate].
    destruct (IH r Hrun) as [more Hmore].
    assert (Hone : exists one, exiting r = (exiting q ++ one)%list).
    { apply stagedStep_cases in Hr
        as (_ & [(p' & _ & ->)|[(p' & _ & ->)|[[i Hh]|[i Hx]]]]).
      - exists []. now rewrite app_nil_r.
      - exists []. now rewrite app_nil_r.
      - apply stagedHandlerStep_effect in Hh as (h & _ & _ & _ & _ & _ & Hout).
        destruct (fst (handleBytes E (bytes h) (state (process q))));
          try contradiction; destruct Hout as (_ & _ & ->);
          eexists; try reflexivity; now rewrite app_nil_r.
      - unfold exitStep in Hx. destruct (exitCode i q); [|discriminate].
        inversion Hx. exists []. now rewrite app_nil_r. }
    destruct Hone as [one Hone]. exists (one ++ more)%list.
    now rewrite Hmore, Hone, app_assoc.
Qed.

Lemma generalFailure_flattens (err : error) :
  generalFailure err
  = {| message.Hdr := {| message.Status := 401;
                         message.Description := "General Failure" |};
       message.Fields :=
         [ {| message.Name := "Message";
              message.Value := mapBytes flatten (Error err) |} ] |}.
Proof.
  unfold generalFailure, header, field. do 3 f_equal.
  unfold strings.ReplaceAll. cbn [String.eqb Ascii.eqb Bool.eqb].
  apply replace_go_byte.
Qed.


End Staging.

(** ** The configuration gate, ignored messages *)
Section Process.

Variable E : Env.

(** C7. A fetch handler that finds the configuration latch unset waits
    and has done nothing: no message, no store call, no file.  In every
    execution, whatever the order in which the messages arrived, a
    store call (session and credentials, metadata query, download) has
    been made only with the latch set, and the latch has been set by a
    configuration handler that has returned.  This is the only wait: a
    handler that has not returned can move in every state of the
    running process, unless it is a fetch handler and the latch is
    unset. *)
Theorem configuration_gate (input : list string) (p : Process) :
  reachable E input p ->
  (forall msg s, configured (self s) = false -> uriAcquire E msg s = (Blocked, s))
  /\ (calls (state p) <> [] ->
      configured (self (state p)) = true
      /\ exists h, In h (handlers p) /\ returned h = true /\ configures E h = true)
  /\ (forall i h, status p = Running ->
                  nth_error (handlers p) i = Some h ->
                  returned h = false ->
                  (step E (ActHandler i) p = None
                   <-> exists msg, FromBytes E (bytes h) = Ok msg
                                   /\ codeOf msg = headerCodeURIAcquire
                                   /\ configured (self (state p)) = false)).
Proof.
  intros Hp. split; [|split].
  - intros msg s Hc. unfold uriAcquire, bind. now rewrite connect_waits.
  - intros Hcalls. destruct (gate_reachable E input p Hp) as [Hgate Hlatch].
    split; auto.
  - intros i h Hrun Hnth Hret.
    destruct (handleBytes_effect E h (state p)) as (_ & _ & _ & _ & _ & Hblocked).
    cbv zeta in Hblocked. rewrite <- Hblocked.
    unfold step, handlerStep. rewrite Hrun, Hnth, Hret.
    destruct (handleBytes E (bytes h) (state p)) as [[u|code|why|] s'];
      cbn [fst]; split; intros H; try discriminate; reflexivity.
Qed.


End Process.

(** ** The escaping of credentials *)

(** C4, where the code departs from it.  [preProcessURL] replaces the
    text of the access key and of the secret wherever it occurs in the
    locator, not only in the credentials.  With the secret [/b] and the
    bucket [b], the '/' that ends the host is escaped too: the string
    handed to the URI parser no longer separates host and bucket, and the
    resolution fails.  With the access key [k/x] and the secret [/k], the
    second '/' of [s3://] is escaped: the parsed locator has no host and
    no credentials. *)
Theorem preProcessURL_escapes_outside_credentials :
  preProcessURL "s3://ak:/b@s3.amazonaws.com/b/pkg.deb"
  = Normal "s3://ak:%2Fb@s3.amazonaws.com%2Fb/pkg.deb"
  /\ newLocation (refenv.env [] []) "s3://ak:/b@s3.amazonaws.com/b/pkg.deb"
                 "s3.amazonaws.com"
     = Normal (Err (errorString "invalid URL escape in host"))
  /\ preProcessURL "s3://k/x:/k@s3.amazonaws.com/b/pkg.deb"
     = Normal "s3:/%2Fk%2Fx:%2Fk@s3.amazonaws.com/b/pkg.deb"
  /\ exists loc,
       newLocation (refenv.env [] []) "s3://k/x:/k@s3.amazonaws.com/b/pkg.deb"
                   "s3.amazonaws.com" = Normal (Ok loc)
       /\ url.User (uri loc) = None
       /\ bucket loc = "".
Proof.
  split; [reflexivity|]. split; [vm_compute; reflexivity|].
  split; [reflexivity|]. eexists. split; [vm_compute; reflexivity|].
  split; reflexivity.
Qed.

(** Credentials whose text occurs nowhere else in the locator come back
    unescaped, and bucket and key are those of the path. *)
Example credentials_round_trip :
  exists loc,
    newLocation (refenv.env [] []) "s3://a/b:c/d@s3.amazonaws.com/my-bucket/pkg.deb"
                "s3.amazonaws.com" = Normal (Ok loc)
    /\ url.Username (url.User (uri loc)) = "a/b"
    /\ url.Password (url.User (uri loc)) = ("c/d", true)
    /\ bucket loc = "my-bucket" /\ key loc = "pkg.deb".
Proof.
  eexists. split; [vm_compute; reflexivity|]. repeat split.
Qed.

(** ** The properties at work on the scenarios *)

Lemma newLocation_styles_witness :
  exists u,
    newLocation (refenv.env [] []) "s3://ak:sk@s3.amazonaws.com/my-bucket/pkg.deb"
                "s3.amazonaws.com"
    = Normal (Ok {| uri := u; bucket := "my-bucket"; key := "pkg.deb" |}).
Proof.
  eexists.
  refine (proj2 (proj2 (proj1
           (newLocation_styles (refenv.env [] [])
              "s3://ak:sk@s3.amazonaws.com/my-bucket/pkg.deb" "s3.amazonaws.com"
              _ _ _ _) _)) "my-bucket" "pkg.deb" _ _).
  - vm_compute. reflexivity.
  - vm_compute. reflexivity.
  - reflexivity.
  - reflexivity.
  - reflexivity.
Defined.

Lemma newLocation_empty_path_panics_witness :
  newLocation (refenv.env [] []) "s3://my-bucket" "minio.example.com"
  = Panicking "slice bounds out of range".
Proof.
  eapply newLocation_empty_path_panics.
  - vm_compute. reflexivity.
  - vm_compute. reflexivity.
  - cbn. discriminate.
  - reflexivity.
Defined.

Lemma uriAcquire_not_found_witness :
  exists s', uriAcquire (refenv.env [] []) acquireMessage configuredState = (Ret tt, s')
             /\ wg (self s') = wg (self configuredState) - 1.
Proof.
  destruct (uriAcquire_not_found (refenv.env [] []) acquireMessage configuredState
              _ _ _ refenv.notFoundError
              ltac:(vm_compute; reflexivity) ltac:(vm_compute; reflexivity))
    as (Hnf & _).
  destruct (Hnf (ex_intro _ "NotFound: Not Found" eq_refl))
    as (s' & Hrun & _ & _ & Hwg).
  exists s'. split; assumption.
Defined.

Lemma uriAcquire_start_then_filename_witness :
  exists s',
    uriAcquire (refenv.env [pkg] []) acquireNoFilename configuredState = (Exit 1, s').
Proof.
  destruct (uriAcquire_start_then_filename (refenv.env [pkg] []) acquireNoFilename
              configuredState _ _ _ _ _
              ltac:(vm_compute; reflexivity) ltac:(vm_compute; reflexivity)
              ltac:(reflexivity))
    as (_ & Hfatal).
  destruct (Hfatal eq_refl) as (s' & Hrun & _).
  exists s'. exact Hrun.
Defined.

(** C5 as stated fails: the request below has no Filename field, and
    its output holds a URI Start message. *)
Lemma filename_checked_after_start :
  snd (message.GetFieldValue acquireNoFilename fieldNameFilename) = false
  /\ ~ (forall m,
          In m (stdout (self (snd (uriAcquire (refenv.env [pkg] []) acquireNoFilename
                                              configuredState)))) ->
          codeOf m <> headerCodeURIStart).
Proof.
  split; [reflexivity|]. intros Hnone.
  apply (Hnone (nth 2 (stdout (self (snd (uriAcquire (refenv.env [pkg] [])
                                           acquireNoFilename configuredState))))
                    capabilities)).
  - vm_compute. right. right. left. reflexivity.
  - vm_compute. reflexivity.
Qed.

Lemma uriAcquire_done_witness :
  exists s',
    uriAcquire (refenv.env [pkg] []) acquireMessage configuredState = (Ret tt, s')
    /\ readFile "/tmp/pkg.deb" (files s') = Some (refenv.objData pkg).
Proof.
  destruct (uriAcquire_done (refenv.env [pkg] []) acquireMessage configuredState
              _ _ _ _ _ "/tmp/pkg.deb" (refenv.objData pkg)
              ltac:(vm_compute; reflexivity) ltac:(vm_compute; reflexivity)
              ltac:(reflexivity) ltac:(reflexivity) ltac:(reflexivity)
              ltac:(vm_compute; reflexivity))
    as (s' & fileBytes & Hrun & Hfile & Hdata & _).
  exists s'. split; [exact Hrun | now rewrite Hfile, Hdata].
Defined.

Lemma configure_region_only_witness :
  exists s', configure configurationMessage freshState = (Ret tt, s')
             /\ region (self s') = "eu-west-1"
             /\ roleARN (self s') = "" /\ endpoint (self s') = "".
Proof.
  destruct (configure_region_only configurationMessage
              (field fieldNameConfigItem "Acquire::s3::region=eu-west-1") freshState
              eq_refl eq_refl)
    as (s' & Hrun & Hregion & Hrole & Hendpoint & _).
  exists s'. repeat split; assumption.
Defined.



Lemma configuration_gate_witness :
  exists p, exec (refenv.env [pkg] []) sessionSchedule (Run sessionLines) = Some p
            /\ calls (state p) <> []
            /\ configured (self (state p)) = true.
Proof.
  eexists. split; [vm_compute; reflexivity|]. split; [discriminate|].
  match goal with
  | |- configured (self (state ?p)) = true =>
      assert (Hp : reachable (refenv.env [pkg] []) sessionLines p)
        by (exists sessionSchedule; vm_compute; reflexivity);
      destruct (configuration_gate (refenv.env [pkg] []) sessionLines p Hp)
        as (_ & Hgate & _)
  end.
  apply Hgate. discriminate.
Defined.


(** * Further properties of the engine *)

(** ** [Split] on a one-byte separator *)
Section SplitByte.

Variable c : ascii.

Lemma split_go_byte_segment (b k cur : string) :
  strings.mem c b = false ->
  strings.split_go (String c "") (b ++ String c k) 0 cur
  = (cur ++ b) :: strings.split_go (String c "") k 0 "".
Proof.
  revert cur; induction b as [|d b IH]; intros cur Hb.
  - cbn [append strings.split_go]. rewrite prefix_byte, Ascii.eqb_refl.
    cbn. now rewrite append_nil_r.
  - cbn [strings.mem] in Hb. apply orb_false_iff in Hb as [Hd Hb].
    cbn [append strings.split_go]. rewrite prefix_byte, Hd.
    rewrite IH by assumption. now rewrite append_assoc.
Qed.

Lemma split_go_byte_whole (b cur : string) :
  strings.mem c b = false ->
  strings.split_go (String c "") b 0 cur = [cur ++ b].
Proof.
  revert cur; induction b as [|d b IH]; intros cur Hb.
  - cbn. now rewrite append_nil_r.
  - cbn [strings.mem] in Hb. apply orb_false_iff in Hb as [Hd Hb].
    cbn [strings.split_go]. rewrite prefix_byte, Hd.
    rewrite IH by assumption. now rewrite append_assoc.
Qed.

Lemma mem_app (a b : string) :
  strings.mem c (a ++ b) = strings.mem c a || strings.mem c b.
Proof.
  induction a as [|d a IH]; cbn [append strings.mem]; [reflexivity|].
  rewrite IH. now rewrite orb_assoc.
Qed.

(** No token holds the separator. *)
Lemma split_go_byte_free (s cur : string) :
  strings.mem c cur = false ->
  Forall (fun t => strings.mem c t = false) (strings.split_go (String c "") s 0 cur).
Proof.
  revert cur; induction s as [|d s IH]; intros cur Hcur.
  - cbn. now constructor.
  - cbn [strings.split_go]. rewrite prefix_byte.
    destruct (Ascii.eqb c d) eqn:Hd.
    + constructor; [assumption|]. cbn. now apply IH.
    + apply IH. rewrite mem_app, Hcur. cbn. now rewrite Hd.
Qed.

Lemma Join_split_go_byte (s cur : string) :
  strings.Join (strings.split_go (String c "") s 0 cur) (String c "") = cur ++ s.
Proof.
  unfold strings.Join. revert cur; induction s as [|d s IH]; intros cur.
  - cbn. now rewrite append_nil_r.
  - cbn [strings.split_go]. rewrite prefix_byte.
    destruct (Ascii.eqb c d) eqn:Hd.
    + apply Ascii.eqb_eq in Hd; subst d.
      rewrite concat_cons by apply split_go_nonempty.
      cbn [String.length Nat.sub]. rewrite IH. reflexivity.
    + rewrite IH, append_assoc. reflexivity.
Qed.

End SplitByte.

(** ** More on the configuration handler *)
Section ConfigurationItems.

Lemma Split_byte (s : string) (c : ascii) :
  strings.Split s (String c "") = strings.split_go (String c "") s 0 "".
Proof. reflexivity. Qed.

(** The first token of an item is a key only if the item is the key
    alone, or the key, the separator and more. *)
Lemma first_token_key (value key : string) (tokens : list string) :
  strings.Split value "=" = key :: tokens ->
  value = key \/ exists v, value = key ++ "=" ++ v.
Proof.
  intros H. pose proof (Join_split_go_byte "=" value "") as HJ.
  change (strings.split_go "=" value 0 "") with (strings.Split value "=") in HJ.
  rewrite H in HJ. cbn [append] in HJ. unfold strings.Join in HJ.
  destruct tokens as [|t ts].
  - left. now rewrite <- HJ.
  - right. exists (String.concat "=" (t :: ts)). rewrite <- HJ.
    now rewrite concat_cons by discriminate.
Qed.

(** The three keys the handler knows. *)
Lemma key_cases (key : string) :
  In key [configItemAcquireS3Region; configItemAcquireS3Role;
          configItemAcquireS3Endpoint] ->
  key = configItemAcquireS3Region \/ key = configItemAcquireS3Role
  \/ key = configItemAcquireS3Endpoint.
Proof. cbn. intuition. Qed.

Lemma configureItems_cons (f : message.Field) (rest : list message.Field)
      (s : State) :
  configureItems (f :: rest) s
  = match configureItems [f] s with
    | (Ret _, s1) => configureItems rest s1
    | other => other
    end.
Proof.
  cbn [configureItems]. cbv zeta. unfold bind.
  destruct (index (strings.Split (message.Value f) "=") 0 s) as [[c0|code|why|] s0];
    try reflexivity.
  match goal with
  | |- context [let (o, s') := ?step s0 in _] =>
      destruct (step s0) as [[u|code|why|] s1]; reflexivity
  end.
Qed.

Lemma configureItems_unrecognised (f : message.Field) (s : State) :
  (forall key,
      In key [configItemAcquireS3Region; configItemAcquireS3Role;
              configItemAcquireS3Endpoint] ->
      message.Value f <> key /\ forall v, message.Value f <> key ++ "=" ++ v) ->
  configureItems [f] s = (Ret tt, s).
Proof.
  intros Hunknown. cbn [configureItems]. cbv zeta.
  pose proof (split_go_nonempty "=" (message.Value f) 0 "") as Hne.
  rewrite Split_byte.
  destruct (strings.split_go "=" (message.Value f) 0 "") as [|c0 tokens] eqn:Hs;
    [congruence|].
  assert (Hkey : forall key,
             In key [configItemAcquireS3Region; configItemAcquireS3Role;
                     configItemAcquireS3Endpoint] -> (c0 =? key)%string = false).
  { intros key Hin. apply String.eqb_neq. intros ->.
    destruct (Hunknown key Hin) as [Hbare Hvalued].
    destruct (first_token_key (message.Value f) key tokens Hs) as [H|[v H]];
      [now apply Hbare | now apply (Hvalued v)]. }
  unfold index, bind, ret. cbn [nth_error].
  rewrite (Hkey configItemAcquireS3Region), (Hkey configItemAcquireS3Role),
    (Hkey configItemAcquireS3Endpoint) by (cbn; auto).
  reflexivity.
Qed.

(** X1. Config-Item fields whose key is none of the three the handler
    knows are passed over: a configuration message that holds only such
    items leaves region, role and endpoint as they were, and the handler
    sets the latch and takes one off the counter as always. *)
Theorem configure_unrecognised_items (msg : message.Message) (s : State) :
  Forall (fun f =>
            forall key,
              In key [configItemAcquireS3Region; configItemAcquireS3Role;
                      configItemAcquireS3Endpoint] ->
              message.Value f <> key
              /\ forall v, message.Value f <> key ++ "=" ++ v)
         (message.GetFieldList msg fieldNameConfigItem) ->
  exists s', configure msg s = (Ret tt, s')
             /\ region (self s') = region (self s)
             /\ roleARN (self s') = roleARN (self s)
             /\ endpoint (self s') = endpoint (self s)
             /\ configured (self s') = true
             /\ wg (self s') = wg (self s) - 1
             /\ stdout (self s') = stdout (self s).
Proof.
  intros Hall. unfold configure.
  assert (Hloop : configureItems (message.GetFieldList msg fieldNameConfigItem) s
                  = (Ret tt, s)).
  { induction Hall as [|f rest Hf _ IH]; [reflexivity|].
    now rewrite configureItems_cons, (configureItems_unrecognised f s Hf). }
  unfold bind. rewrite Hloop. eexists. split; [reflexivity|].
  cbn. repeat split.
Qed.

Lemma configureItems_bare_key (f : message.Field) (s : State) :
  In (message.Value f) [configItemAcquireS3Region; configItemAcquireS3Role;
                        configItemAcquireS3Endpoint] ->
  configureItems [f] s = (Panic "index out of range", s).
Proof.
  intros Hin. apply key_cases in Hin. cbn [configureItems]. cbv zeta.
  destruct Hin as [-> | [-> | ->]]; reflexivity.
Qed.

Lemma configureItems_single (f : message.Field) (s : State) :
  (exists s1, configureItems [f] s = (Ret tt, s1))
  \/ configureItems [f] s = (Panic "index out of range", s).
Proof.
  cbn [configureItems]. cbv zeta. unfold index, bind, ret, panic.
  destruct (nth_error (strings.Split (message.Value f) "=") 0) as [c0|];
    [|now right].
  destruct (c0 =? configItemAcquireS3Region)%string;
    [|destruct (c0 =? configItemAcquireS3Role)%string;
      [|destruct (c0 =? configItemAcquireS3Endpoint)%string]];
    try (destruct (nth_error (strings.Split (message.Value f) "=") 1) as [v|];
         [|now right]);
    left; eexists; reflexivity.
Qed.

(** X2. A Config-Item that is one of the three keys without a value
    (no '=') makes the handler panic on the missing second token: the
    configuration handler does not return, the latch stays as it was and
    the counter is not decremented, wherever the item stands among the
    Config-Item fields. *)
Theorem configure_key_without_value (msg : message.Message) (f : message.Field)
        (s : State) :
  In f (message.GetFieldList msg fieldNameConfigItem) ->
  In (message.Value f) [configItemAcquireS3Region; configItemAcquireS3Role;
                        configItemAcquireS3Endpoint] ->
  exists s', configure msg s = (Panic "index out of range", s')
             /\ configured (self s') = configured (self s)
             /\ wg (self s') = wg (self s)
             /\ stdout (self s') = stdout (self s).
Proof.
  intros Hin Hbare. unfold configure.
  assert (Hloop : exists s',
             configureItems (message.GetFieldList msg fieldNameConfigItem) s
             = (Panic "index out of range", s')).
  { revert s. induction (message.GetFieldList msg fieldNameConfigItem) as [|f0 rest IH];
      intros s; [contradiction|].
    rewrite configureItems_cons. destruct Hin as [->|Hin].
    - rewrite (configureItems_bare_key f s Hbare). now exists s.
    - destruct (configureItems_single f0 s) as [[s1 ->]| ->];
        [apply (IH Hin) | now exists s]. }
  destruct Hloop as [s' Hloop].
  pose proof (configureItems_course
                (message.GetFieldList msg fieldNameConfigItem) s) as Hc.
  cbv zeta in Hc. rewrite Hloop in Hc. cbn [fst snd] in Hc.
  destruct Hc as (_ & Hlatch & Hwg & Hout & _).
  exists s'. unfold bind. rewrite Hloop. repeat split; assumption.
Qed.

(** X3. A Config-Item made of one of the three keys, '=' and a value
    sets that one configuration value and leaves the other two; a value
    that holds a further '=' is cut before it, since only the token
    after the first '=' is read. *)
Theorem configure_value_cut_at_equals (msg : message.Message) (f : message.Field)
        (key v tail : string) (s : State) :
  message.GetFieldList msg fieldNameConfigItem = [f] ->
  In key [configItemAcquireS3Region; configItemAcquireS3Role;
          configItemAcquireS3Endpoint] ->
  message.Value f = key ++ "=" ++ v ++ tail ->
  strings.mem "=" v = false ->
  tail = "" \/ (exists w, tail = "=" ++ w) ->
  exists s', configure msg s = (Ret tt, s')
             /\ region (self s')
                = (if (key =? configItemAcquireS3Region)%string then v
                   else region (self s))
             /\ roleARN (self s')
                = (if (key =? configItemAcquireS3Role)%string then v
                   else roleARN (self s))
             /\ endpoint (self s')
                = (if (key =? configItemAcquireS3Endpoint)%string then v
                   else endpoint (self s))
             /\ configured (self s') = true
             /\ wg (self s') = wg (self s) - 1.
Proof.
  intros Hitems Hkey Hvalue Hv Htail. unfold configure. rewrite Hitems.
  assert (Htokens : exists more,
             strings.Split (message.Value f) "=" = key :: v :: more).
  { rewrite Hvalue, Split_byte.
    change (key ++ "=" ++ v ++ tail) with (key ++ String "=" (v ++ tail)).
    rewrite split_go_byte_segment
      by (apply key_cases in Hkey; destruct Hkey as [-> | [-> | ->]]; reflexivity).
    cbn [append]. destruct Htail as [->|[w ->]].
    - rewrite append_nil_r, split_go_byte_whole by assumption. now exists [].
    - change (v ++ "=" ++ w) with (v ++ String "=" w).
      rewrite split_go_byte_segment by assumption. eexists. reflexivity. }
  destruct Htokens as [more Htokens].
  cbn [configureItems]. cbv zeta. rewrite Htokens.
  apply key_cases in Hkey. destruct Hkey as [-> | [-> | ->]];
    (eexists; split; [reflexivity|]; cbn; repeat split).
Qed.

End ConfigurationItems.

(** ** More on the fetch handler *)
Section FetchEdges.

Variable E : Env.

(** X4. The store client of a request takes the configured region and
    endpoint.  Its credentials are the static pair of the locator when
    the locator has a user name, also when a role is configured; a user
    name without password is a fatal error; without user name the
    configured role is assumed, and without role the default chain is
    used. *)
Theorem s3Client_credentials (user : option url.Userinfo) (s : State) :
  let m := self s in
  let cfgEndpoint := if (endpoint m =? "")%string then None else Some (endpoint m) in
  let opened := logged s (CallNewSession (region m) cfgEndpoint) in
  let built c :=
    (Ret {| aws.Region := region m; aws.Endpoint := cfgEndpoint; aws.Creds := c |},
     logged opened (CallCredentials c)) in
  NewSession E (region m) cfgEndpoint = None ->
  (url.Username user <> "" -> snd (url.Password user) = true ->
     s3Client E user s
     = built (aws.StaticCredentials (url.Username user) (fst (url.Password user)) ""))
  /\ (url.Username user <> "" -> snd (url.Password user) = false ->
        s3Client E user s
        = (Exit 1, emit opened (generalFailure errAcqMsgMissingRequiredFieldPassword)))
  /\ (url.Username user = "" -> roleARN m <> "" ->
        s3Client E user s = built (aws.AssumeRole (roleARN m)))
  /\ (url.Username user = "" -> roleARN m = "" ->
        s3Client E user s = built aws.DefaultChain).
Proof.
  intros m cfgEndpoint opened built Hsession.
  assert (Hcfg : (if negb (endpoint (self s) =? "")%string
                  then Some (endpoint (self s)) else None) = cfgEndpoint)
    by (unfold cfgEndpoint, m; now destruct (endpoint (self s) =? "")%string).
  unfold s3Client. mrun. rewrite Hcfg. fold m. rewrite Hsession. mrun.
  repeat split.
  - intros Huser Hpass. apply String.eqb_neq in Huser. rewrite Huser.
    destruct (url.Password user) as [secret ok]. cbn [fst snd] in *. subst ok.
    mrun. reflexivity.
  - intros Huser Hpass. apply String.eqb_neq in Huser. rewrite Huser.
    destruct (url.Password user) as [secret ok]. cbn [fst snd] in *. subst ok.
    mrun. reflexivity.
  - intros Huser Hrole. rewrite Huser. apply String.eqb_neq in Hrole.
    cbn [String.eqb negb]. fold m. rewrite Hrole. mrun. reflexivity.
  - intros Huser Hrole. rewrite Huser. cbn [String.eqb negb]. fold m.
    rewrite Hrole. cbn [String.eqb negb]. mrun. reflexivity.
Qed.

(** X5. A fetch request without URI field, once the configuration is
    applied, is a fatal error at once: the only output is the General
    Failure, no store call is made, and the process exits with 1. *)
Theorem uriAcquire_missing_uri (msg : message.Message) (s : State) :
  configured (self s) = true ->
  snd (message.GetFieldValue msg fieldNameURI) = false ->
  uriAcquire E msg s
  = (Exit 1, emit s (generalFailure errAcqMsgMissingRequiredFieldURI)).
Proof.
  intros Hc Huri. unfold uriAcquire, bind at 1.
  replace (uriAcquire_connect E msg s)
    with (@Exit (objectLocation * aws.S3API) 1,
          emit s (generalFailure errAcqMsgMissingRequiredFieldURI));
    [reflexivity|].
  unfold uriAcquire_connect. rewrite wait_bind, Hc.
  destruct (message.GetFieldValue msg fieldNameURI) as [locator hasField].
  cbn [snd] in Huri. subst hasField. reflexivity.
Qed.

(** The first part of the handler up to the choice of the endpoint. *)
Lemma connect_endpoint (msg : message.Message) (s : State) (locator : string) :
  configured (self s) = true ->
  message.GetFieldValue msg fieldNameURI = (locator, true) ->
  uriAcquire_connect E msg s
  = match (if (endpoint (self s) =? "")%string
           then s3EndpointURL E (region (self s))
           else url_Parse E (endpoint (self s))) with
    | Err e =>
        (Exit 1,
         emit s (generalFailure
                   (Errorf (if (endpoint (self s) =? "")%string
                            then "resolving S3 endpoint for region " ++ region (self s)
                            else "parsing S3 endpoint " ++ endpoint (self s)) e)))
    | Ok s3URL =>
        match newLocation E locator (url_Hostname E s3URL) with
        | Panicking why => (Panic why, s)
        | Normal (Err e) => (Exit 1, emit s (generalFailure e))
        | Normal (Ok objLoc) =>
            let s1 := emit s (requestStatus E (uri objLoc) fieldValueConnecting) in
            match s3Client E (url.User (uri objLoc)) s1 with
            | (Ret client, s2) => (Ret (objLoc, client), s2)
            | (Exit code, s2) => (Exit code, s2)
            | (Panic why, s2) => (Panic why, s2)
            | (Blocked, s2) => (Blocked, s2)
            end
        end
    end.
Proof.
  intros Hc Huri. unfold uriAcquire_connect. rewrite wait_bind, Hc, Huri.
  unfold require, get. cbn [negb]. unfold bind at 1 2. unfold ret at 1.
  cbv beta iota zeta.
  destruct (endpoint (self s) =? "")%string; cbn [negb].
  - destruct (s3EndpointURL E (region (self s))) as [s3URL|e]; [|reflexivity].
    unfold bind at 1. unfold ret at 1. unfold bind at 1.
    destruct (newLocation E locator (url_Hostname E s3URL)) as [[objLoc|e]|why];
      reflexivity.
  - destruct (url_Parse E (endpoint (self s))) as [s3URL|e]; [|reflexivity].
    unfold bind at 1. unfold ret at 1. unfold bind at 1.
    destruct (newLocation E locator (url_Hostname E s3URL)) as [[objLoc|e]|why];
      reflexivity.
Qed.

Lemma uriAcquire_stops (msg : message.Message) (s s' : State) :
  (forall code, uriAcquire_connect E msg s = (Exit code, s') ->
                uriAcquire E msg s = (Exit code, s'))
  /\ (forall why, uriAcquire_connect E msg s = (Panic why, s') ->
                  uriAcquire E msg s = (Panic why, s')).
Proof.
  unfold uriAcquire, bind. split; intros x H; now rewrite H.
Qed.

(** X6. The endpoint of a request is the configured override when there
    is one, and the endpoint derived from the region otherwise; the
    locator is resolved against the host name of that endpoint.  An
    override that does not parse, or a region without endpoint, is a
    fatal error reported before any other output of the request. *)
Theorem uriAcquire_endpoint_choice (msg : message.Message) (s : State)
        (locator : string) :
  configured (self s) = true ->
  message.GetFieldValue msg fieldNameURI = (locator, true) ->
  (endpoint (self s) <> "" ->
   forall e, url_Parse E (endpoint (self s)) = Err e ->
     uriAcquire E msg s
     = (Exit 1, emit s (generalFailure
                          (Errorf ("parsing S3 endpoint " ++ endpoint (self s)) e))))
  /\ (endpoint (self s) = "" ->
      forall e, s3EndpointURL E (region (self s)) = Err e ->
        uriAcquire E msg s
        = (Exit 1, emit s (generalFailure
                             (Errorf ("resolving S3 endpoint for region "
                                      ++ region (self s)) e))))
  /\ (forall objLoc client s1,
        uriAcquire_connect E msg s = (Ret (objLoc, client), s1) ->
        exists s3URL,
          (if (endpoint (self s) =? "")%string
           then s3EndpointURL E (region (self s))
           else url_Parse E (endpoint (self s))) = Ok s3URL
          /\ newLocation E locator (url_Hostname E s3URL) = Normal (Ok objLoc)).
Proof.
  intros Hc Huri. pose proof (connect_endpoint msg s locator Hc Huri) as Hrun.
  repeat split.
  - intros Hset e He. apply String.eqb_neq in Hset. rewrite Hset, He in Hrun.
    now apply uriAcquire_stops.
  - intros Hunset e He. apply String.eqb_eq in Hunset. rewrite Hunset, He in Hrun.
    now apply uriAcquire_stops.
  - intros objLoc client s1 Hret. rewrite Hret in Hrun.
    destruct (if (endpoint (self s) =? "")%string
              then s3EndpointURL E (region (self s))
              else url_Parse E (endpoint (self s))) as [s3URL|e]; [|discriminate].
    exists s3URL. split; [reflexivity|].
    destruct (newLocation E locator (url_Hostname E s3URL)) as [[loc|e]|why];
      try discriminate.
    cbv zeta in Hrun.
    destruct (s3Client E (url.User (uri loc)) _) as [[cl|code|why|] s2];
      try discriminate.
    now inversion Hrun.
Qed.

(** X7. A locator that does not resolve ends the request before its
    Status message and before any store call: a location error (a
    locator that does not parse, a path-style path with fewer than 3
    tokens) is a fatal error with that error as General Failure; a panic
    of the resolution is a panic of the handler, with no output at
    all. *)
Theorem uriAcquire_location_failure (msg : message.Message) (s : State)
        (locator : string) (s3URL : url.URL) :
  configured (self s) = true ->
  message.GetFieldValue msg fieldNameURI = (locator, true) ->
  (if (endpoint (self s) =? "")%string
   then s3EndpointURL E (region (self s))
   else url_Parse E (endpoint (self s))) = Ok s3URL ->
  (forall e, newLocation E locator (url_Hostname E s3URL) = Normal (Err e) ->
     uriAcquire E msg s = (Exit 1, emit s (generalFailure e)))
  /\ (forall why, newLocation E locator (url_Hostname E s3URL) = Panicking why ->
        uriAcquire E msg s = (Panic why, s)).
Proof.
  intros Hc Huri Hep. pose proof (connect_endpoint msg s locator Hc Huri) as Hrun.
  rewrite Hep in Hrun. split.
  - intros e He. rewrite He in Hrun. now apply uriAcquire_stops.
  - intros why Hwhy. rewrite Hwhy in Hrun. now apply uriAcquire_stops.
Qed.

(** X8. A metadata answer without content length or without
    last-modified time makes the handler panic on the nil pointer, after
    the Status message and before any URI Start. *)
Theorem uriAcquire_metadata_incomplete (msg : message.Message) (s s1 : State)
        (objLoc : objectLocation) (client : aws.S3API)
        (output : aws.HeadObjectOutput) :
  uriAcquire_connect E msg s = (Ret (objLoc, client), s1) ->
  HeadObject E client (bucket objLoc) (key objLoc) = Ok output ->
  aws.ContentLength output = None \/ aws.LastModified output = None ->
  uriAcquire E msg s
  = (Panic "invalid memory address or nil pointer dereference",
     logged s1 (CallHeadObject (bucket objLoc) (key objLoc)))
  /\ emitted s (logged s1 (CallHeadObject (bucket objLoc) (key objLoc)))
             [requestStatus E (uri objLoc) fieldValueConnecting].
Proof.
  intros Hc Hhead Hnil.
  destruct (uriAcquire_connected _ _ _ _ _ _ Hc) as (-> & Hout & _).
  split; [|exact Hout].
  unfold uriAcquire_fetch. mrun. rewrite Hhead.
  destruct output as [[len|] [t|]]; cbn [aws.ContentLength aws.LastModified] in *;
    try reflexivity.
  destruct Hnil; discriminate.
Qed.

(** X9. When the GMT zone cannot be loaded the last-modified time cannot
    be rendered: the request fails fatally after the metadata query, and
    no URI Start is printed. *)
Theorem uriAcquire_zone_unavailable (msg : message.Message) (s s1 : State)
        (objLoc : objectLocation) (client : aws.S3API) (size : Z) (t : time.Time)
        (e : error) :
  uriAcquire_connect E msg s = (Ret (objLoc, client), s1) ->
  HeadObject E client (bucket objLoc) (key objLoc)
  = Ok {| aws.ContentLength := Some size; aws.LastModified := Some t |} ->
  LoadLocation E "GMT" = Some e ->
  exists s', uriAcquire E msg s = (Exit 1, s')
             /\ emitted s s' [requestStatus E (uri objLoc) fieldValueConnecting;
                              generalFailure e].
Proof.
  intros Hc Hhead Hgmt.
  destruct (uriAcquire_connected _ _ _ _ _ _ Hc) as (-> & Hout & _).
  unfold uriAcquire_fetch. mrun. rewrite Hhead. mrun. rewrite Hgmt. mrun.
  eexists. split; [reflexivity|].
  apply (emitted_step _ _ _ _ _ Hout). reflexivity.
Qed.

(** X10. After the URI Start message a failure to create the local file
    or to download the object is a fatal error: the output of the request
    is Status, URI Start and the General Failure, without URI Done, and
    the counter keeps its value.  When the file cannot be created the
    download is not attempted. *)
Theorem uriAcquire_store_failure (msg : message.Message) (s s1 : State)
        (objLoc : objectLocation) (client : aws.S3API) (size : Z) (t : time.Time)
        (filename : string) (e : error) :
  uriAcquire_connect E msg s = (Ret (objLoc, client), s1) ->
  HeadObject E client (bucket objLoc) (key objLoc)
  = Ok {| aws.ContentLength := Some size; aws.LastModified := Some t |} ->
  LoadLocation E "GMT" = None ->
  message.GetFieldValue msg fieldNameFilename = (filename, true) ->
  Create E filename = Some e
  \/ Create E filename = None
     /\ Download E client (bucket objLoc) (key objLoc) = Err e ->
  exists s' start,
    uriAcquire E msg s = (Exit 1, s')
    /\ emitted s s' [requestStatus E (uri objLoc) fieldValueConnecting; start;
                     generalFailure e]
    /\ codeOf start = headerCodeURIStart
    /\ wg (self s') = wg (self s)
    /\ (Create E filename = Some e ->
        files s' = files s1
        /\ calls s' = (calls s1 ++ [CallHeadObject (bucket objLoc) (key objLoc)])%list).
Proof.
  intros Hc Hhead Hgmt Hname Hfail.
  destruct (uriAcquire_connected _ _ _ _ _ _ Hc) as (-> & Hout & Hwg).
  unfold uriAcquire_fetch, uriAcquire_store. mrun. rewrite Hhead. mrun.
  rewrite Hgmt, Hname. mrun.
  destruct Hfail as [Hcreate|[Hcreate Hdown]]; rewrite Hcreate; mrun.
  - eexists. eexists. split; [reflexivity|]. split.
    { apply (emitted_step _ _ _ _ _ Hout). unfold emitted. cbn [self stdout].
      rewrite <- app_assoc. reflexivity. }
    split; [reflexivity|]. split; [exact Hwg|]. intros _. split; reflexivity.
  - rewrite Hdown. mrun.
    eexists. eexists. split; [reflexivity|]. split.
    { apply (emitted_step _ _ _ _ _ Hout). unfold emitted. cbn [self stdout].
      rewrite <- app_assoc. reflexivity. }
    split; [reflexivity|]. split; [exact Hwg|]. intros Hc'. congruence.
Qed.

(** X11. Every course of a fetch handler.  It never changes region,
    role, endpoint or latch.  When it returns it has printed Status and
    URI Start messages and then exactly one concluding message, URI
    Failure or URI Done, and has taken exactly one off the counter; when
    it exits the code is 1, the General Failure is its last message, no
    concluding message was printed and the counter keeps its value; when
    it panics the counter keeps its value; when it waits nothing has
    changed. *)
Theorem uriAcquire_courses (msg : message.Message) (s : State) :
  let r := fst (uriAcquire E msg s) in
  let s' := snd (uriAcquire E msg s) in
  let going (out : list message.Message) :=
    Forall (fun m => codeOf m = headerCodeStatus \/ codeOf m = headerCodeURIStart) out in
  region (self s') = region (self s)
  /\ roleARN (self s') = roleARN (self s)
  /\ endpoint (self s') = endpoint (self s)
  /\ configured (self s') = configured (self s)
  /\ match r with
     | Ret _ =>
         exists out last,
           emitted s s' (out ++ [last]) /\ going out
           /\ (codeOf last = headerCodeURIFailure \/ codeOf last = headerCodeURIDone)
           /\ wg (self s') = wg (self s) - 1
     | Exit code =>
         code = 1
         /\ exists out err,
              emitted s s' (out ++ [generalFailure err]) /\ going out
              /\ wg (self s') = wg (self s)
     | Panic _ =>
         exists out, emitted s s' out /\ going out /\ wg (self s') = wg (self s)
     | Blocked => s' = s
     end.
Proof.
  pose proof (uriAcquire_settled E msg s) as H.
  destruct (uriAcquire E msg s) as [[u|code|why|] s']; cbn [fst snd settled] in *;
    cbv zeta.
  - destruct H as (_ & m & (Hr & Ha & He & Hl & Hw & out & Ho & Hf) & fin & Hfin & ->).
    unfold emitted in *. cbn. repeat split; try assumption.
    exists out, fin. rewrite Ho, app_assoc. repeat split; auto. lia.
  - destruct H as (_ & m & (Hr & Ha & He & Hl & Hw & out & Ho & Hf) & -> & err & ->).
    unfold emitted in *. cbn. repeat split; try assumption.
    exists out, err. rewrite Ho, app_assoc. repeat split; auto.
  - destruct H as (_ & (Hr & Ha & He & Hl & Hw & out & Ho & Hf)).
    repeat split; try assumption. exists out. repeat split; auto.
  - destruct H as (_ & ->). repeat split.
Qed.

End FetchEdges.

(** ** More on locators *)
Section Locators.

Variable E : Env.

(** X12. A resolved location keeps the whole path of the parsed
    locator.  In path style the path is a first token, '/', the bucket,
    '/', and the key, where neither the first token nor the bucket holds
    a '/'; in the other styles the path is one byte followed by the key.
    The location carries the parsed locator itself. *)
Theorem newLocation_keeps_path (value s3Hostname p : string) (u : url.URL)
        (loc : objectLocation) :
  preProcessURL value = Normal p ->
  url_Parse E p = Ok u ->
  newLocation E value s3Hostname = Normal (Ok loc) ->
  uri loc = u
  /\ (url.Host u = s3Hostname ->
      exists first, url.Path u = first ++ "/" ++ bucket loc ++ "/" ++ key loc
                    /\ strings.mem "/" first = false
                    /\ strings.mem "/" (bucket loc) = false)
  /\ (url.Host u <> s3Hostname ->
      exists c, url.Path u = String c (key loc)).
Proof.
  intros Hp Hu Hloc. rewrite (newLocation_parsed E _ _ _ _ Hp Hu) in Hloc.
  destruct (url.Host u =? s3Hostname)%string eqn:Hhost.
  - apply String.eqb_eq in Hhost. cbv zeta in Hloc.
    pose proof (Join_Split (url.Path u)) as HJ.
    pose proof (split_go_byte_free "/" (url.Path u) "" eq_refl) as Hfree.
    change (strings.split_go "/" (url.Path u) 0 "")
      with (strings.Split (url.Path u) "/") in Hfree.
    destruct (Z.of_nat (List.length (strings.Split (url.Path u) "/"))
              <? locationMinTokensCount) eqn:Hlen; [discriminate|].
    apply Z.ltb_ge in Hlen. unfold locationMinTokensCount in Hlen.
    destruct (strings.Split (url.Path u) "/") as [|t0 [|b [|k ks]]];
      cbn [List.length] in Hlen; try lia.
    inversion Hloc; subst loc; clear Hloc. cbn [uri bucket key nth skipn].
    split; [reflexivity|]. split; [|congruence].
    intros _. exists t0. unfold strings.Join in *.
    rewrite !concat_cons in HJ by discriminate.
    inversion Hfree as [|? ? Ht0 Hrest]; subst.
    inversion Hrest as [|? ? Hb _]; subst.
    repeat split; auto.
  - apply String.eqb_neq in Hhost.
    unfold strings.slice_from in Hloc.
    destruct (url.Path u) as [|c path] eqn:Hpath; [discriminate|].
    cbn [String.length Nat.leb Nat.sub] in Hloc.
    rewrite Nat.sub_0_r in Hloc. cbn [substring] in Hloc.
    rewrite substring_all in Hloc.
    inversion Hloc; subst loc; clear Hloc. cbn [uri bucket key].
    split; [reflexivity|]. split; [congruence|].
    intros _. now exists c.
Qed.

End Locators.

(** ** More on the escaping of credentials *)
Section Escaping.

Local Open Scope nat_scope.

Lemma length_substring (s : string) (n m : nat) :
  n + m <= String.length s -> String.length (substring n m s) = m.
Proof.
  revert n m; induction s as [|c s IH]; intros [|n] [|m] H; cbn in *;
    try lia; try reflexivity.
  - f_equal. apply (IH 0 m). lia.
  - apply (IH n 0). lia.
  - apply (IH n (S m)). lia.
Qed.

Lemma substring_substring (s : string) (a b n : nat) :
  a + b <= n -> substring a b (substring 0 n s) = substring a b s.
Proof.
  revert a b n; induction s as [|c s IH]; intros a b n H.
  - destruct n; reflexivity.
  - destruct n as [|n].
    + assert (a = 0) by lia. assert (b = 0) by lia. subst. reflexivity.
    + cbn [substring]. destruct a as [|a].
      * destruct b as [|b]; [reflexivity|]. cbn [substring]. f_equal.
        apply (IH 0 b n). lia.
      * cbn [substring]. apply (IH a b n). lia.
Qed.

(** Where a byte is found, and when it is not. *)
Lemma index_from_byte_bound (c : ascii) (s : string) (i j : nat) :
  strings.index_from (String c "") s i = Some j -> i <= j < i + String.length s.
Proof.
  revert i; induction s as [|d s IH]; intros i; cbn [strings.index_from].
  - cbn. discriminate.
  - rewrite prefix_byte. destruct (Ascii.eqb c d).
    + intros H; inversion H; subst. cbn. lia.
    + intros H. apply IH in H. cbn. lia.
Qed.

Lemma index_from_byte_absent (c : ascii) (s : string) (i : nat) :
  strings.mem c s = false -> strings.index_from (String c "") s i = None.
Proof.
  revert i; induction s as [|d s IH]; intros i Hs; cbn [strings.index_from].
  - reflexivity.
  - cbn [strings.mem] in Hs. apply orb_false_iff in Hs as [Hd Hs].
    rewrite prefix_byte, Hd. now apply IH.
Qed.

(** The tokens of a string hold no byte the string does not hold. *)
Lemma split_go_byte_bytes (c d : ascii) (s cur : string) :
  strings.mem d s = false ->
  strings.mem d cur = false ->
  Forall (fun t => strings.mem d t = false)
         (strings.split_go (String c "") s 0 cur).
Proof.
  revert cur; induction s as [|x s IH]; intros cur Hs Hcur.
  - cbn. now constructor.
  - cbn [strings.mem] in Hs. apply orb_false_iff in Hs as [Hx Hs].
    cbn [strings.split_go]. rewrite prefix_byte.
    destruct (Ascii.eqb c x).
    + constructor; [assumption|]. cbn. now apply IH.
    + apply IH; [assumption|]. rewrite mem_app, Hcur. cbn. now rewrite Hx.
Qed.

Lemma replace_go_absent (c : ascii) (new s : string) :
  strings.mem c s = false -> strings.replace_go (String c "") new s 0 = s.
Proof.
  induction s as [|d s IH]; intros Hs; [reflexivity|].
  cbn [strings.mem] in Hs. apply orb_false_iff in Hs as [Hd Hs].
  cbn [strings.replace_go]. now rewrite prefix_byte, Hd, IH.
Qed.

Lemma ReplaceAll_absent (s : string) :
  strings.mem "/" s = false -> strings.ReplaceAll s "/" "%2F" = s.
Proof.
  intros Hs. unfold strings.ReplaceAll. cbn [String.eqb Ascii.eqb Bool.eqb].
  now apply replace_go_absent.
Qed.

Lemma ReplaceAll_same (s old : string) : strings.ReplaceAll s old old = s.
Proof. unfold strings.ReplaceAll. now rewrite String.eqb_refl. Qed.

(** The credentials part of a locator whose first '@' is at byte [n]. *)
Lemma preProcessURL_at (url : string) (n : nat) :
  strings.Index url "@" = Z.of_nat n ->
  preProcessURL url
  = if n <? 5 then Panicking "slice bounds out of range"
    else
      let tkns := strings.Split (substring 5 (n - 5) url) ":" in
      let '(key, secret) :=
        if (Z.of_nat (List.length tkns) =? userAndPasswordFormattedTokensCount)%Z
        then (nth 0 tkns "", nth 1 tkns "")
        else ("", "") in
      Normal (strings.ReplaceAll
                (strings.ReplaceAll url key (strings.ReplaceAll key "/" "%2F"))
                secret (strings.ReplaceAll secret "/" "%2F")).
Proof.
  intros Hidx. unfold preProcessURL. rewrite Hidx.
  replace (Z.of_nat n <? 0)%Z with false by (symmetry; apply Z.ltb_ge; lia).
  rewrite Nat2Z.id.
  assert (Hn : n < String.length url).
  { unfold strings.Index in Hidx.
    destruct (strings.index_from "@" url 0) as [j|] eqn:Hj; [|lia].
    apply index_from_byte_bound in Hj. lia. }
  unfold strings.slice_to, strings.slice_from.
  replace (n <=? String.length url) with true by (symmetry; apply Nat.leb_le; lia).
  rewrite length_substring by lia.
  destruct (n <? 5) eqn:Hlt.
  - apply Nat.ltb_lt in Hlt.
    replace (5 <=? n) with false by (symmetry; apply Nat.leb_gt; lia). reflexivity.
  - apply Nat.ltb_ge in Hlt.
    replace (5 <=? n) with true by (symmetry; apply Nat.leb_le; lia).
    rewrite substring_substring by lia.
    cbv zeta.
    destruct (Z.of_nat (List.length (strings.Split (substring 5 (n - 5) url) ":"))
              =? userAndPasswordFormattedTokensCount)%Z; reflexivity.
Qed.

(** X13. [preProcessURL] hands the locator on unchanged when it holds
    no '@', and when the text between its fifth byte and its first '@'
    holds no '/' or does not split on ':' into exactly two tokens: only
    a user-password pair with a '/' is escaped. *)
Theorem preProcessURL_unchanged (url : string) :
  (strings.mem "@" url = false -> preProcessURL url = Normal url)
  /\ (forall n,
        strings.Index url "@" = Z.of_nat n ->
        5 <= n ->
        strings.mem "/" (substring 5 (n - 5) url) = false
        \/ List.length (strings.Split (substring 5 (n - 5) url) ":") <> 2 ->
        preProcessURL url = Normal url).
Proof.
  split.
  - intros Hno. unfold preProcessURL, strings.Index.
    now rewrite (index_from_byte_absent "@" url 0 Hno).
  - intros n Hidx Hn Hcred. rewrite (preProcessURL_at url n Hidx).
    replace (n <? 5) with false by (symmetry; apply Nat.ltb_ge; lia).
    cbv zeta. unfold userAndPasswordFormattedTokensCount.
    destruct (Z.of_nat (List.length (strings.Split (substring 5 (n - 5) url) ":"))
              =? 2)%Z eqn:Hlen.
    + apply Z.eqb_eq in Hlen. destruct Hcred as [Hfree|Hcount]; [|lia].
      pose proof (split_go_byte_bytes ":" "/" (substring 5 (n - 5) url) ""
                    Hfree eq_refl) as Htokens.
      change (strings.split_go ":" (substring 5 (n - 5) url) 0 "")
        with (strings.Split (substring 5 (n - 5) url) ":") in Htokens.
      destruct (strings.Split (substring 5 (n - 5) url) ":") as [|k [|sec [|x xs]]];
        cbn [List.length] in Hlen; try lia.
      inversion Htokens as [|? ? Hk Hrest]; subst.
      inversion Hrest as [|? ? Hsec _]; subst.
      cbn [nth]. now rewrite !ReplaceAll_absent, !ReplaceAll_same by assumption.
    + now rewrite !ReplaceAll_same.
Qed.

(** X14. A locator whose first '@' stands before its sixth byte makes
    [preProcessURL] panic: the five bytes of the scheme prefix are cut
    off a shorter string. *)
Theorem preProcessURL_early_at (url : string) (n : nat) :
  strings.Index url "@" = Z.of_nat n ->
  n < 5 ->
  preProcessURL url = Panicking "slice bounds out of range".
Proof.
  intros Hidx Hn. rewrite (preProcessURL_at url n Hidx).
  now replace (n <? 5) with true by (symmetry; apply Nat.ltb_lt; lia).
Qed.

End Escaping.

(** ** More on the process *)
Section Framing.

Variable E : Env.

Lemma TrimRight_line (l : string) :
  l <> "" -> strings.mem "010" l = false ->
  strings.TrimRight (l ++ String "010" "") (String "010" "") <> "".
Proof.
  destruct l as [|c l]; [congruence|]. intros _ Hl.
  cbn [strings.mem] in Hl. apply orb_false_iff in Hl as [Hc _].
  cbn [append strings.TrimRight strings.mem].
  rewrite Ascii.eqb_sym, Hc. cbn [orb]. rewrite andb_false_r. discriminate.
Qed.

Lemma len_zero (s : string) : strings.len s = 0 -> s = "".
Proof. destruct s; [reflexivity|]. unfold strings.len. cbn. lia. Qed.

(** The reader on a line that is not blank: the line joins the
    buffer. *)
Lemma readerStep_line (p : Process) (l : string) (rest : list string)
      (buffer : string) :
  reader p = Scanning (l :: rest) buffer ->
  l <> "" -> strings.mem "010" l = false ->
  readerStep p
  = Some {| state := state p;
            reader := Scanning rest (buffer ++ l ++ String "010" "");
            handlers := handlers p; status := status p |}.
Proof.
  intros Hr Hl Hnl. unfold readerStep. rewrite Hr.
  destruct (strings.len (strings.TrimRight (l ++ String "010" "") (String "010" ""))
            =? 0) eqn:Hz; [|reflexivity].
  apply Z.eqb_eq, len_zero in Hz. now apply TrimRight_line in Hz.
Qed.

(** X15. Framing.  From a reader that scans, a run of lines that are
    not blank followed by a blank line is handed over as one message,
    byte for byte: the bytes already in the buffer, each line with its
    newline, and the newline of the blank line.  This takes one move per
    line and one for the addition to the counter; the handler is added
    at the end of the list, the counter goes up by one, and the reader
    goes on with an empty buffer.  The buffer must come to more than 3
    bytes. *)
Theorem reader_sends_block (p : Process) (ls rest : list string) (buffer : string) :
  status p = Running ->
  reader p = Scanning (ls ++ "" :: rest) buffer ->
  Forall (fun l => l <> "" /\ strings.mem "010" l = false) ls ->
  let block :=
    buffer ++ fold_right (fun l acc => l ++ String "010" "" ++ acc)
                         (String "010" "") ls in
  3 < strings.len block ->
  exec E (repeat ActReader (List.length ls + 2)) p
  = Some {| state := snd (wg_Add 1 (state p));
            reader := Scanning rest "";
            handlers := handlers p ++ [{| bytes := block; returned := false |}];
            status := Running |}.
Proof.
  intros Hrun Hr Hls. revert p buffer Hrun Hr.
  induction Hls as [|l ls [Hl Hnl] _ IH]; intros p buffer Hrun Hr block Hlen.
  - cbn [List.length Nat.add repeat exec app] in *.
    unfold step at 1. rewrite Hrun. unfold readerStep. rewrite Hr.
    cbn [fold_right] in block.
    change (strings.TrimRight ("" ++ String "010" "") (String "010" "")) with "".
    change ("" ++ String "010" "") with (String "010" "").
    fold block. cbn [strings.len String.length Z.of_nat Z.eqb andb].
    replace (strings.len block >? 3) with true
      by (symmetry; apply Z.gtb_lt; exact Hlen).
    unfold step. cbn [status reader readerStep]. rewrite Hrun. reflexivity.
  - cbn [List.length Nat.add repeat exec app] in *.
    unfold step at 1. rewrite Hrun.
    rewrite (readerStep_line p l (ls ++ "" :: rest) buffer Hr Hl Hnl).
    specialize (IH {| state := state p;
                      reader := Scanning (ls ++ "" :: rest)
                                         (buffer ++ l ++ String "010" "");
                      handlers := handlers p; status := status p |}
                   (buffer ++ l ++ String "010" "") Hrun eq_refl).
    cbv zeta in IH. cbn [state handlers] in IH.
    assert (Heq : (buffer ++ l ++ String "010" "")
                  ++ fold_right (fun l acc => l ++ String "010" "" ++ acc)
                                (String "010" "") ls = block).
    { unfold block. cbn [fold_right]. now rewrite !append_assoc. }
    rewrite Heq in IH. apply IH. exact Hlen.
Qed.

End Framing.

Section Executions.

Variable E : Env.

Lemma step_emits (a : action) (p p' : Process) :
  step E a p = Some p' ->
  exists more, emitted (state p) (state p') more.
Proof.
  intros Hstep. apply step_cases in Hstep as (_ & [Hr|[[i Hh]|Hm]]).
  - apply readerStep_effect in Hr as (_ & Hout & _).
    exists []. unfold emitted. now rewrite app_nil_r.
  - apply handlerStep_effect in Hh as (h & _ & _ & _ & Hst & _).
    destruct (handleBytes_effect E h (state p)) as ((out & Hem & _) & _).
    cbv zeta in Hem. rewrite <- Hst in Hem. now exists out.
  - apply mainStep_effect in Hm as (_ & -> & _).
    exists []. unfold emitted. now rewrite app_nil_r.
Qed.

Lemma exec_emits (schedule : list action) (p p' : Process) :
  exec E schedule p = Some p' ->
  exists more, emitted (state p) (state p') more.
Proof.
  revert p; induction schedule as [|a rest IH]; intros p Hrun; cbn in Hrun.
  - inversion Hrun; subst. exists []. unfold emitted. now rewrite app_nil_r.
  - destruct (step E a p) as [q|] eqn:Hq; [|discriminate].
    destruct (step_emits a p q Hq) as [out Hout].
    destruct (IH q Hrun) as [more Hmore].
    exists (out ++ more)%list. unfold emitted in *. now rewrite Hmore, Hout, app_assoc.
Qed.

(** X16. The output of every execution starts with the capabilities
    message, printed before any input is read, and only grows: what has
    been printed stays, in its order, at the head of what is printed
    later. *)
Theorem output_grows (input : list string) (schedule : list action)
        (p p' : Process) :
  reachable E input p ->
  exec E schedule p = Some p' ->
  (exists out, stdout (self (state p)) = capabilities :: out)
  /\ exists more,
       stdout (self (state p')) = (stdout (self (state p)) ++ more)%list.
Proof.
  intros [first Hp] Hrun. split.
  - destruct (exec_emits first (Run input) p Hp) as [out Hout].
    exists out. exact Hout.
  - exact (exec_emits schedule p p' Hrun).
Qed.

Lemma handlerShares_zero (hs : list Handler) :
  handlerShares E hs = 0
  <-> Forall (fun h => returned h = true /\ ignored E h = false) hs.
Proof.
  induction hs as [|h hs IH]; cbn [handlerShares].
  - split; [constructor | reflexivity].
  - pose proof (handlerShare_bounds E h) as Hb.
    pose proof (handlerShares_nonneg E hs) as Hn.
    assert (Hh : handlerShare E h = 0 <-> returned h = true /\ ignored E h = false).
    { unfold handlerShare. destruct (returned h), (ignored E h); intuition (try lia; try discriminate). }
    split.
    + intros H. constructor; [apply Hh; lia | apply IH; lia].
    + intros H. inversion H as [|? ? Hhd Htl]; subst.
      apply Hh in Hhd. apply IH in Htl. lia.
Qed.


(** X18. The reader adds to the counter only after it has sent the
    message.  A handler that returns before this addition, when no other
    work is counted, brings the counter to zero, and the main goroutine
    can then end the process with status 0 while the reader still has
    its addition to do and input to read. *)
Theorem exit_before_add (p : Process) (rest : list string) (i : nat) (h : Handler) :
  status p = Running ->
  reader p = Adding rest ->
  wg (self (state p)) = 1 ->
  nth_error (handlers p) i = Some h ->
  returned h = false ->
  ignored E h = false ->
  fst (handleBytes E (bytes h) (state p)) = Ret tt ->
  exists p', exec E [ActHandler i; ActMain] p = Some p'
             /\ status p' = Exited 0
             /\ reader p' = Adding rest.
Proof.
  intros Hrun Hr Hwg Hnth Hret Hig Hout.
  destruct (handleBytes_effect E h (state p)) as (_ & Hcount & _).
  cbv zeta in Hcount. rewrite Hout, Hig in Hcount.
  cbn [exec]. unfold step at 1, handlerStep. rewrite Hrun, Hnth, Hret.
  destruct (handleBytes E (bytes h) (state p)) as [r s'] eqn:Hh.
  cbn [fst snd] in *. subst r. cbv beta iota.
  unfold step, mainStep. cbn [status state self].
  replace (wg (self s') =? 0) with true by (symmetry; apply Z.eqb_eq; lia).
  eexists. split; [reflexivity|]. cbn. now split.
Qed.

Lemma latch_step (a : action) (p p' : Process) :
  configured (self (state p)) = true ->
  step E a p = Some p' ->
  configured (self (state p')) = true.
Proof.
  intros Hc Hstep. apply step_cases in Hstep as (_ & [Hr|[[i Hh]|Hm]]).
  - apply readerStep_effect in Hr as (_ & _ & Hl & _). congruence.
  - apply handlerStep_effect in Hh as (h & _ & _ & _ & Hst & _).
    destruct (handleBytes_effect E h (state p)) as (_ & _ & Hmono & _).
    rewrite Hst. now apply Hmono.
  - apply mainStep_effect in Hm as (_ & -> & _). exact Hc.
Qed.

(** X19. The configuration latch is never reset: once it is set it is
    set in every later state of the execution, so a fetch handler that
    has passed the wait is never made to wait again. *)
Theorem latch_stays_set (schedule : list action) (p p' : Process) :
  configured (self (state p)) = true ->
  exec E schedule p = Some p' ->
  configured (self (state p')) = true.
Proof.
  intros Hc Hrun.
  apply (exec_invariant E (fun q => configured (self (state q)) = true)
           latch_step schedule p p'); assumption.
Qed.

End Executions.

(** ** What a fetch request touches *)

(** Split on the next test of the run in the goal. *)
Ltac branch :=
  match goal with
  | |- context [match ?x with _ => _ end] =>
      match type of x with
      | option _ => destruct x eqn:?
      | result _ => destruct x eqn:?
      | error => destruct x eqn:?
      | bool => destruct x eqn:?
      | (string * bool)%type => destruct x eqn:?
      end
  | |- context [if ?b then _ else _] => destruct b eqn:?
  end; mrun.

Section Footprint.

Variable E : Env.

Lemma s3Client_footprint (user : option url.Userinfo) (s : State) :
  files (snd (s3Client E user s)) = files s
  /\ exists region ep creds n,
       calls (snd (s3Client E user s))
       = (calls s ++ firstn n [CallNewSession region ep; CallCredentials creds])%list.
Proof.
  unfold s3Client. mrun. split.
  - repeat branch; reflexivity.
  - exists (region (self s)),
      (if negb (endpoint (self s) =? "")%string then Some (endpoint (self s)) else None).
    destruct (NewSession E _ _); mrun; [exists aws.DefaultChain, 1%nat; reflexivity|].
    destruct (negb (url.Username user =? "")%string); mrun.
    + destruct (url.Password user) as [secret ok]. destruct ok; mrun.
      * eexists. exists 2%nat. cbn [firstn]. rewrite <- app_assoc. reflexivity.
      * exists aws.DefaultChain, 1%nat. reflexivity.
    + destruct (negb (roleARN (self s) =? "")%string); mrun;
        eexists; exists 2%nat; cbn [firstn]; rewrite <- app_assoc; reflexivity.
Qed.

Lemma connect_footprint (msg : message.Message) (s : State) :
  files (snd (uriAcquire_connect E msg s)) = files s
  /\ exists region ep creds n,
       calls (snd (uriAcquire_connect E msg s))
       = (calls s ++ firstn n [CallNewSession region ep; CallCredentials creds])%list.
Proof.
  assert (Hnone : forall t : State,
             files t = files s -> calls t = calls s ->
             files t = files s
             /\ exists region ep creds n,
                  calls t = (calls s ++ firstn n [CallNewSession region ep;
                                                  CallCredentials creds])%list).
  { intros t Hf Hc. split; [exact Hf|].
    exists "", None, aws.DefaultChain, 0%nat. cbn. now rewrite app_nil_r. }
  destruct (configured (self s)) eqn:Hc;
    [|rewrite (connect_waits E msg s Hc); now apply Hnone].
  destruct (message.GetFieldValue msg fieldNameURI) as [locator hasField] eqn:Huri.
  destruct hasField.
  - rewrite (connect_endpoint E msg s locator Hc Huri).
    destruct (if (endpoint (self s) =? "")%string
              then s3EndpointURL E (region (self s))
              else url_Parse E (endpoint (self s))) as [s3URL|e];
      [|now apply Hnone].
    destruct (newLocation E locator (url_Hostname E s3URL)) as [[objLoc|e]|why];
      try now apply Hnone.
    cbv zeta.
    pose proof (s3Client_footprint (url.User (uri objLoc))
                  (emit s (requestStatus E (uri objLoc) fieldValueConnecting))) as H.
    destruct (s3Client E (url.User (uri objLoc)) _) as [[client|code|why|] s2];
      exact H.
  - unfold uriAcquire_connect. rewrite wait_bind, Hc, Huri. now apply Hnone.
Qed.

Lemma fetch_footprint (msg : message.Message) (objLoc : objectLocation)
      (client : aws.S3API) (s : State) :
  let s' := snd (uriAcquire_fetch E msg objLoc client s) in
  (exists n, calls s'
             = (calls s ++ firstn (S n) [CallHeadObject (bucket objLoc) (key objLoc);
                                       CallDownload (bucket objLoc) (key objLoc)])%list)
  /\ exists written,
       files s' = (written ++ files s)%list
       /\ Forall (fun entry =>
                    fst entry = fst (message.GetFieldValue msg fieldNameFilename))
                 written.
Proof.
  cbv zeta. unfold uriAcquire_fetch, uriAcquire_store. mrun.
  destruct (message.GetFieldValue msg fieldNameFilename) as [filename hasField].
  cbn [fst]. split.
  - repeat branch;
      solve [ exists 0%nat; reflexivity
            | exists 1%nat; cbn [firstn]; rewrite <- app_assoc; reflexivity ].
  - repeat branch;
      solve [ exists []; split; [reflexivity | constructor]
            | eexists [_]; split; [reflexivity | repeat constructor]
            | eexists [_; _]; split; [reflexivity | repeat constructor] ].
Qed.

(** X20. What a fetch request touches, whatever its course.  It calls
    the store in one fixed order and each call at most once: session,
    credentials, metadata query, download, the download for the bucket
    and key of the metadata query; there is no second attempt.  The only
    local file it writes is the one named by its Filename field. *)
Theorem uriAcquire_footprint (msg : message.Message) (s : State) :
  let s' := snd (uriAcquire E msg s) in
  (exists region ep creds b k n,
     calls s'
     = (calls s ++ firstn n [CallNewSession region ep; CallCredentials creds;
                             CallHeadObject b k; CallDownload b k])%list)
  /\ exists written,
       files s' = (written ++ files s)%list
       /\ Forall (fun entry =>
                    fst entry = fst (message.GetFieldValue msg fieldNameFilename))
                 written.
Proof.
  cbv zeta. unfold uriAcquire, bind.
  destruct (uriAcquire_connect E msg s) as [[[objLoc client]|code|why|] s1] eqn:Hc.
  - apply connect_returns in Hc as (_ & -> & _).
    destruct (fetch_footprint msg objLoc client
                (logged (logged (emit s (requestStatus E (uri objLoc) fieldValueConnecting))
                                (CallNewSession (aws.Region client) (aws.Endpoint client)))
                        (CallCredentials (aws.Creds client))))
      as ([n Hcalls] & written & Hfiles & Hnames).
    cbv zeta in Hcalls, Hfiles. cbn [fst snd].
    destruct (uriAcquire_fetch E msg objLoc client _) as [r s']. cbn [snd] in *.
    split.
    + exists (aws.Region client), (aws.Endpoint client), (aws.Creds client),
        (bucket objLoc), (key objLoc), (S (S (S n))).
      rewrite Hcalls. cbn [logged record modify snd calls firstn].
      rewrite <- !app_assoc. reflexivity.
    + exists written. split; assumption.
  - pose proof (connect_footprint msg s) as (Hf & region & ep & creds & n & Hcalls).
    rewrite Hc in Hf, Hcalls. cbn [snd] in *. split.
    + exists region, ep, creds, "", "", (Nat.min 2 n).
      rewrite Hcalls. f_equal.
      destruct n as [|[|n]]; cbn [Nat.min firstn]; rewrite ?firstn_nil; reflexivity.
    + exists []. split; [exact Hf | constructor].
  - pose proof (connect_footprint msg s) as (Hf & region & ep & creds & n & Hcalls).
    rewrite Hc in Hf, Hcalls. cbn [snd] in *. split.
    + exists region, ep, creds, "", "", (Nat.min 2 n).
      rewrite Hcalls. f_equal.
      destruct n as [|[|n]]; cbn [Nat.min firstn]; rewrite ?firstn_nil; reflexivity.
    + exists []. split; [exact Hf | constructor].
  - pose proof (connect_footprint msg s) as (Hf & region & ep & creds & n & Hcalls).
    rewrite Hc in Hf, Hcalls. cbn [snd] in *. split.
    + exists region, ep, creds, "", "", (Nat.min 2 n).
      rewrite Hcalls. f_equal.
      destruct n as [|[|n]]; cbn [Nat.min firstn]; rewrite ?firstn_nil; reflexivity.
    + exists []. split; [exact Hf | constructor].
Qed.

End Footprint.

Section Leftovers.

Variable E : Env.

(** X21. What the reader does not hand over.  A blank line that leaves
    the buffer at 3 bytes or fewer is no message: its newline stays in
    the buffer and will head the next message.  Lines that are not
    followed by a blank line before the end of the input are dropped:
    the reader takes its unit off the counter and starts no handler. *)
Theorem reader_leftovers (p : Process) :
  status p = Running ->
  (forall rest buffer,
     reader p = Scanning ("" :: rest) buffer ->
     strings.len (buffer ++ String "010" "") <= 3 ->
     step E ActReader p
     = Some {| state := state p;
               reader := Scanning rest (buffer ++ String "010" "");
               handlers := handlers p; status := Running |})
  /\ (forall ls buffer,
        reader p = Scanning ls buffer ->
        Forall (fun l => l <> "" /\ strings.mem "010" l = false) ls ->
        exec E (repeat ActReader (List.length ls + 1)) p
        = Some {| state := snd (wg_Done (state p)); reader := Finished;
                  handlers := handlers p; status := Running |}).
Proof.
  intros Hrun. split.
  - intros rest buffer Hr Hlen. unfold step, readerStep. rewrite Hrun, Hr.
    change (strings.TrimRight ("" ++ String "010" "") (String "010" "")) with "".
    change ("" ++ String "010" "") with (String "010" "").
    cbn [strings.len String.length Z.of_nat Z.eqb andb].
    replace (strings.len (buffer ++ String "010" "") >? 3) with false
      by (symmetry; rewrite Z.gtb_ltb; apply Z.ltb_ge; exact Hlen).
    reflexivity.
  - intros ls buffer Hr Hls. revert p buffer Hrun Hr.
    induction Hls as [|l ls [Hl Hnl] _ IH]; intros p buffer Hrun Hr.
    + cbn [List.length Nat.add repeat exec].
      unfold step, readerStep. now rewrite Hrun, Hr.
    + cbn [List.length Nat.add repeat exec].
      unfold step at 1. rewrite Hrun.
      rewrite (readerStep_line p l ls buffer Hr Hl Hnl).
      apply (IH {| state := state p;
                   reader := Scanning ls (buffer ++ l ++ String "010" "");
                   handlers := handlers p; status := status p |}
                (buffer ++ l ++ String "010" "") Hrun eq_refl).
Qed.

End Leftovers.

(** ** The further properties at work on the scenarios *)

Lemma configure_unrecognised_items_witness :
  exists s', configure configurationUnknown freshState = (Ret tt, s')
             /\ region (self s') = endpoints_UsEast1RegionID
             /\ configured (self s') = true.
Proof.
  destruct (configure_unrecognised_items configurationUnknown freshState)
    as (s' & Hrun & Hregion & _ & _ & Hlatch & _).
  - constructor; [|constructor].
    intros key [<- | [<- | [<- | []]]]; split; try intros v; discriminate.
  - exists s'. repeat split; assumption.
Defined.

Lemma configure_key_without_value_witness :
  exists s', configure configurationBareKey freshState
             = (Panic "index out of range", s')
             /\ configured (self s') = false.
Proof.
  destruct (configure_key_without_value configurationBareKey
              (field fieldNameConfigItem "Acquire::s3::region") freshState)
    as (s' & Hrun & Hlatch & _).
  - left. reflexivity.
  - left. reflexivity.
  - exists s'. split; [exact Hrun | exact Hlatch].
Defined.

Lemma configure_value_cut_at_equals_witness :
  exists s', configure configurationQuery freshState = (Ret tt, s')
             /\ endpoint (self s') = "https://minio.example.com/?zone"
             /\ region (self s') = endpoints_UsEast1RegionID.
Proof.
  destruct (configure_value_cut_at_equals configurationQuery
              (field fieldNameConfigItem
                     "Acquire::s3::endpoint=https://minio.example.com/?zone=a")
              configItemAcquireS3Endpoint "https://minio.example.com/?zone" "=a"
              freshState)
    as (s' & Hrun & Hregion & _ & Hendpoint & _).
  - reflexivity.
  - right. right. left. reflexivity.
  - reflexivity.
  - reflexivity.
  - right. exists "a". reflexivity.
  - exists s'. repeat split; assumption.
Defined.

Lemma s3Client_credentials_witness :
  exists s',
    s3Client (refenv.env [] []) (Some (url.mkUserinfo "ak" "sk" true)) configuredState
    = (Ret {| aws.Region := endpoints_UsEast1RegionID; aws.Endpoint := None;
              aws.Creds := aws.StaticCredentials "ak" "sk" "" |}, s').
Proof.
  eexists.
  refine (proj1 (s3Client_credentials (refenv.env [] [])
                   (Some (url.mkUserinfo "ak" "sk" true)) configuredState _) _ _).
  - reflexivity.
  - discriminate.
  - reflexivity.
Defined.

Lemma uriAcquire_missing_uri_witness :
  uriAcquire (refenv.env [pkg] []) acquireNoURI configuredState
  = (Exit 1, emit configuredState (generalFailure errAcqMsgMissingRequiredFieldURI)).
Proof.
  apply uriAcquire_missing_uri; reflexivity.
Defined.

Lemma uriAcquire_endpoint_choice_witness :
  exists e,
    uriAcquire (refenv.env [pkg] []) acquireMessage misconfiguredState
    = (Exit 1, emit misconfiguredState
                    (generalFailure (Errorf "parsing S3 endpoint :9000" e))).
Proof.
  destruct (url_Parse (refenv.env [pkg] []) ":9000") as [u|e] eqn:Hparse;
    [vm_compute in Hparse; discriminate|].
  exists e.
  refine (proj1 (uriAcquire_endpoint_choice (refenv.env [pkg] []) acquireMessage
                   misconfiguredState _ _ _) _ e Hparse).
  - reflexivity.
  - reflexivity.
  - discriminate.
Defined.

Lemma uriAcquire_location_failure_witness :
  exists e,
    uriAcquire (refenv.env [pkg] []) acquireBucketOnly configuredState
    = (Exit 1, emit configuredState (generalFailure e)).
Proof.
  eexists.
  refine (proj1 (uriAcquire_location_failure (refenv.env [pkg] []) acquireBucketOnly
                   configuredState _ _ _ _ _) _ _).
  - reflexivity.
  - reflexivity.
  - vm_compute. reflexivity.
  - vm_compute. reflexivity.
Defined.

Lemma uriAcquire_metadata_incomplete_witness :
  fst (uriAcquire bareAnswerEnv acquireMessage configuredState)
  = Panic "invalid memory address or nil pointer dereference".
Proof.
  destruct (uriAcquire_connect bareAnswerEnv acquireMessage configuredState)
    as [[[objLoc client]| | |] s1] eqn:Hconnect;
    try (vm_compute in Hconnect; discriminate).
  destruct (uriAcquire_metadata_incomplete bareAnswerEnv acquireMessage
              configuredState s1 objLoc client
              {| aws.ContentLength := None;
                 aws.LastModified := Some (refenv.objModified pkg) |}
              Hconnect eq_refl (or_introl eq_refl))
    as [Hrun _].
  now rewrite Hrun.
Defined.

Lemma uriAcquire_zone_unavailable_witness :
  fst (uriAcquire zonelessEnv acquireMessage configuredState) = Exit 1.
Proof.
  destruct (uriAcquire_connect zonelessEnv acquireMessage configuredState)
    as [[[objLoc client]| | |] s1] eqn:Hconnect;
    try (vm_compute in Hconnect; discriminate).
  assert (Hloc : bucket objLoc = "my-bucket" /\ key objLoc = "pkg.deb")
    by (vm_compute in Hconnect; injection Hconnect as <- _ _; split; reflexivity).
  destruct Hloc as [Hb Hk].
  destruct (uriAcquire_zone_unavailable zonelessEnv acquireMessage
              configuredState s1 objLoc client 9012 (refenv.objModified pkg)
              (errorString "unknown time zone GMT") Hconnect)
    as (s' & Hrun & _).
  - rewrite Hb, Hk. vm_compute. reflexivity.
  - reflexivity.
  - now rewrite Hrun.
Defined.

Lemma uriAcquire_store_failure_witness :
  fst (uriAcquire readOnlyEnv acquireMessage configuredState) = Exit 1.
Proof.
  destruct (uriAcquire_connect readOnlyEnv acquireMessage configuredState)
    as [[[objLoc client]| | |] s1] eqn:Hconnect;
    try (vm_compute in Hconnect; discriminate).
  assert (Hloc : bucket objLoc = "my-bucket" /\ key objLoc = "pkg.deb")
    by (vm_compute in Hconnect; injection Hconnect as <- _ _; split; reflexivity).
  destruct Hloc as [Hb Hk].
  destruct (uriAcquire_store_failure readOnlyEnv acquireMessage
              configuredState s1 objLoc client 9012 (refenv.objModified pkg)
              "/tmp/pkg.deb"
              (errorString "open /tmp/pkg.deb: permission denied") Hconnect)
    as (s' & start & Hrun & _).
  - rewrite Hb, Hk. vm_compute. reflexivity.
  - reflexivity.
  - reflexivity.
  - left. reflexivity.
  - now rewrite Hrun.
Defined.

Lemma newLocation_keeps_path_witness :
  exists loc first,
    newLocation (refenv.env [] []) "s3://ak:sk@s3.amazonaws.com/my-bucket/pkg.deb"
                "s3.amazonaws.com" = Normal (Ok loc)
    /\ url.Path (uri loc) = first ++ "/" ++ bucket loc ++ "/" ++ key loc.
Proof.
  destruct (newLocation (refenv.env [] [])
              "s3://ak:sk@s3.amazonaws.com/my-bucket/pkg.deb" "s3.amazonaws.com")
    as [[loc|e]|why] eqn:Hloc; try (vm_compute in Hloc; discriminate).
  destruct (url_Parse (refenv.env [] [])
              "s3://ak:sk@s3.amazonaws.com/my-bucket/pkg.deb")
    as [u|e] eqn:Hparse; [|vm_compute in Hparse; discriminate].
  destruct (newLocation_keeps_path (refenv.env [] [])
              "s3://ak:sk@s3.amazonaws.com/my-bucket/pkg.deb" "s3.amazonaws.com"
              "s3://ak:sk@s3.amazonaws.com/my-bucket/pkg.deb" u loc)
    as (Huri & Hpath & _).
  - vm_compute. reflexivity.
  - exact Hparse.
  - exact Hloc.
  - destruct Hpath as (first & Hfirst & _).
    + vm_compute in Hparse. injection Hparse as <-. reflexivity.
    + exists loc, first. split; [reflexivity | now rewrite Huri].
Defined.

Lemma preProcessURL_unchanged_witness :
  preProcessURL "s3://ak:sk@s3.amazonaws.com/my-bucket/pkg.deb"
  = Normal "s3://ak:sk@s3.amazonaws.com/my-bucket/pkg.deb".
Proof.
  refine (proj2 (preProcessURL_unchanged
                   "s3://ak:sk@s3.amazonaws.com/my-bucket/pkg.deb") 10%nat _ _ _).
  - vm_compute. reflexivity.
  - apply Nat.leb_le. reflexivity.
  - left. vm_compute. reflexivity.
Defined.

Lemma preProcessURL_early_at_witness :
  preProcessURL "a@b" = Panicking "slice bounds out of range".
Proof.
  apply (preProcessURL_early_at "a@b" 1).
  - vm_compute. reflexivity.
  - apply Nat.ltb_lt. reflexivity.
Defined.

Lemma reader_sends_block_witness :
  exists p,
    exec (refenv.env [pkg] []) (repeat ActReader 5) (Run acquireLines) = Some p
    /\ reader p = Scanning [] ""
    /\ List.length (handlers p) = 1%nat
    /\ wg (self (state p)) = 2.
Proof.
  eexists. split.
  - apply (reader_sends_block (refenv.env [pkg] []) (Run acquireLines)
             [ "600 URI Acquire";
               "URI: s3://ak:sk@s3.amazonaws.com/my-bucket/pkg.deb";
               "Filename: /tmp/pkg.deb" ] [] "").
    + reflexivity.
    + reflexivity.
    + repeat constructor; discriminate.
    + vm_compute. reflexivity.
  - repeat split; reflexivity.
Defined.

Lemma reader_leftovers_witness :
  exec (refenv.env [pkg] []) (repeat ActReader 3)
       (Run ["600 URI Acquire"; "Filename: /tmp/pkg.deb"])
  = Some {| state := snd (wg_Done (state (Run ["600 URI Acquire";
                                               "Filename: /tmp/pkg.deb"])));
            reader := Finished; handlers := []; status := Running |}.
Proof.
  apply (proj2 (reader_leftovers (refenv.env [pkg] [])
                  (Run ["600 URI Acquire"; "Filename: /tmp/pkg.deb"]) eq_refl)
               ["600 URI Acquire"; "Filename: /tmp/pkg.deb"] "").
  - reflexivity.
  - repeat constructor; discriminate.
Defined.

Lemma output_grows_witness :
  exists p,
    exec (refenv.env [pkg] []) brokenSchedule (Run brokenLines) = Some p
    /\ exists more, stdout (self (state p)) = (capabilities :: more)%list.
Proof.
  eexists. split; [vm_compute; reflexivity|].
  match goal with
  | |- exists more, stdout (self (state ?p)) = _ =>
      destruct (output_grows (refenv.env [pkg] []) brokenLines brokenSchedule
                  (Run brokenLines) p)
        as (_ & more & Hmore);
        [exists []; reflexivity | vm_compute; reflexivity |];
        exists more; exact Hmore
  end.
Defined.


Lemma exit_before_add_witness :
  exists p p',
    exec (refenv.env [pkg] []) (repeat ActReader 2) (Run sessionLines) = Some p
    /\ exec (refenv.env [pkg] []) [ActHandler 0; ActMain] p = Some p'
    /\ status p' = Exited 0
    /\ reader p' = Adding acquireLines.
Proof.
  destruct (exec (refenv.env [pkg] []) (repeat ActReader 2) (Run sessionLines))
    as [p|] eqn:Hexec; [|vm_compute in Hexec; discriminate].
  vm_compute in Hexec. injection Hexec as <-.
  match goal with
  | |- exists p p', Some ?q = Some p /\ _ =>
      destruct (exit_before_add (refenv.env [pkg] []) q acquireLines 0
                  {| bytes := "601 Configuration" ++ String "010" (String "010" "");
                     returned := false |})
        as (p' & Hrun & Hstatus & Hreader);
      [reflexivity | reflexivity | reflexivity | reflexivity | reflexivity
      | vm_compute; reflexivity | vm_compute; reflexivity |];
      exists q, p'; repeat split; assumption
  end.
Defined.

Lemma latch_stays_set_witness :
  exists p,
    exec (refenv.env [] []) [ActHandler 1]
         {| state := configuredState; reader := Finished;
            handlers := [ {| bytes := "601 Configuration"
                                      ++ String "010" (String "010" "");
                             returned := true |};
                          {| bytes := "600 URI Acquire" ++ String "010"
                                       ("URI: s3://ak:sk@s3.amazonaws.com/my-bucket/pkg.deb"
                                        ++ String "010" ("Filename: /tmp/pkg.deb"
                                        ++ String "010" (String "010" "")));
                             returned := false |} ];
            status := Running |} = Some p
    /\ configured (self (state p)) = true.
Proof.
  eexists. split; [vm_compute; reflexivity|].
  match goal with
  | |- configured (self (state ?p')) = true =>
      apply (latch_stays_set (refenv.env [] []) [ActHandler 1]
               {| state := configuredState; reader := Finished;
                  handlers := [ {| bytes := "601 Configuration"
                                            ++ String "010" (String "010" "");
                                   returned := true |};
                                {| bytes := "600 URI Acquire" ++ String "010"
                                             ("URI: s3://ak:sk@s3.amazonaws.com/my-bucket/pkg.deb"
                                              ++ String "010" ("Filename: /tmp/pkg.deb"
                                              ++ String "010" (String "010" "")));
                                   returned := false |} ];
                  status := Running |} p');
        [reflexivity | vm_compute; reflexivity]
  end.
Defined.
